(** * SquirrelDB C client SDK: connection and multiplexing engine

    A shallow embedding of [src/squirreldb.c] (with the constants of
    [include/squirreldb.h]) and the properties of its handshake, frame
    codec, pending-request table, subscription list and reader thread.

    Conventions of the embedding.
    - Wire data is [list byte]; C integers are [Z] with the wrap-around of
      their width written out ([u8], [u16], [u32], [u64]).
    - A C string is a [string]; the functions that read one through a
      [char*] see it up to its first NUL ([c_str]).
    - [malloc], [calloc] and [strdup] are taken to succeed: the
      [SQRL_ERR_MEMORY] returns are not part of the model.
    - A socket is the script of what the network does next; a call that
      would wait beyond the end of the script is reported as blocked.
    - Threads interleave at two grains.  In [step] a call's way into
      [send_request] (taking an id, linking its node, sending the frame)
      is one step, as are the loop test of [send_request], the return of
      its timed wait and one pass of the reader loop.  In [fine_step] the
      way in is taken apart: the test of [connected], the read and the
      write of the counter, which no lock protects, the linking of the
      node and the sending of the frame are steps of their own. *)

From Stdlib Require Import ZArith NArith List Bool Lia.
From Stdlib Require Import Strings.String Strings.Ascii Strings.Byte.
Import ListNotations.

Local Open Scope string_scope.
Local Open Scope Z_scope.
Local Open Scope list_scope.

Infix "+++" := String.append (right associativity, at level 60).

(* ------------------------------------------------------------------ *)
(** ** Constants of [squirreldb.h] and [squirreldb.c]                  *)
(* ------------------------------------------------------------------ *)

Inductive sqrl_error_t : Type :=
| SQRL_OK
| SQRL_ERR_CONNECT
| SQRL_ERR_HANDSHAKE
| SQRL_ERR_VERSION_MISMATCH
| SQRL_ERR_AUTH_FAILED
| SQRL_ERR_SEND
| SQRL_ERR_RECV
| SQRL_ERR_TIMEOUT
| SQRL_ERR_CLOSED
| SQRL_ERR_INVALID_ARG
| SQRL_ERR_MEMORY
| SQRL_ERR_ENCODE
| SQRL_ERR_DECODE
| SQRL_ERR_SERVER
| SQRL_ERR_NOT_FOUND.

Inductive sqrl_encoding_t : Type :=
| SQRL_ENCODING_MSGPACK
| SQRL_ENCODING_JSON.

Definition encoding_tag (e : sqrl_encoding_t) : Z :=
  match e with
  | SQRL_ENCODING_MSGPACK => 1
  | SQRL_ENCODING_JSON => 2
  end.

Inductive sqrl_change_type_t : Type :=
| SQRL_CHANGE_INITIAL
| SQRL_CHANGE_INSERT
| SQRL_CHANGE_UPDATE
| SQRL_CHANGE_DELETE.

Definition SQRL_PROTOCOL_VERSION : Z := 1.
Definition SQRL_MAX_MESSAGE_SIZE : Z := 16 * 1024 * 1024.

Definition MSG_TYPE_REQUEST : Z := 1.
Definition MSG_TYPE_RESPONSE : Z := 2.
Definition MSG_TYPE_NOTIFICATION : Z := 3.

Definition HANDSHAKE_SUCCESS : Z := 0.
Definition HANDSHAKE_VERSION_MISMATCH : Z := 1.
Definition HANDSHAKE_AUTH_FAILED : Z := 2.

(* ------------------------------------------------------------------ *)
(** ** Machine integers and bytes                                      *)
(* ------------------------------------------------------------------ *)

Definition u8 (z : Z) : Z := Z.land z 255.
Definition u16 (z : Z) : Z := z mod 2 ^ 16.
Definition u32 (z : Z) : Z := z mod 2 ^ 32.
Definition u64 (z : Z) : Z := z mod 2 ^ 64.

Definition Zbyte (b : byte) : Z := Z.of_N (Byte.to_N b).

(** The byte stored by an assignment [buf[i] = z] to a [uint8_t]. *)
Definition byte_of_Z (z : Z) : byte :=
  match Byte.of_N (Z.to_N (u8 z)) with
  | Some b => b
  | None => "000"%byte
  end.

Definition MAGIC : list byte := ["S"%byte; "Q"%byte; "R"%byte; "L"%byte].

Definition read_u32_be (buf : list byte) : Z :=
  Z.lor (Z.lor (Z.lor (Z.shiftl (Zbyte (nth 0 buf "000"%byte)) 24)
                      (Z.shiftl (Zbyte (nth 1 buf "000"%byte)) 16))
               (Z.shiftl (Zbyte (nth 2 buf "000"%byte)) 8))
        (Zbyte (nth 3 buf "000"%byte)).

Definition write_u32_be (val : Z) : list byte :=
  [ byte_of_Z (Z.land (Z.shiftr val 24) 255);
    byte_of_Z (Z.land (Z.shiftr val 16) 255);
    byte_of_Z (Z.land (Z.shiftr val 8) 255);
    byte_of_Z (Z.land val 255) ].

Definition write_u16_be (val : Z) : list byte :=
  [ byte_of_Z (Z.land (Z.shiftr val 8) 255);
    byte_of_Z (Z.land val 255) ].

(* ------------------------------------------------------------------ *)
(** ** C strings                                                       *)
(* ------------------------------------------------------------------ *)

Definition NUL : ascii := "000"%char.
Definition dquote : ascii := "034"%char.

(** What a [char*] reader sees of a buffer: the characters before the
    first NUL. *)
Fixpoint c_str (s : string) : string :=
  match s with
  | EmptyString => EmptyString
  | String a t => if Ascii.eqb a NUL then EmptyString else String a (c_str t)
  end.

Definition strlen (s : string) : Z := Z.of_nat (String.length (c_str s)).

(** [strcmp(a, b) == 0]. *)
Definition streq (a b : string) : bool := String.eqb a b.

Fixpoint string_drop (n : nat) (s : string) : string :=
  match n, s with
  | O, _ => s
  | S n', String _ t => string_drop n' t
  | S _, EmptyString => EmptyString
  end.

Fixpoint string_take (n : nat) (s : string) : string :=
  match n, s with
  | O, _ => EmptyString
  | S n', String a t => String a (string_take n' t)
  | S _, EmptyString => EmptyString
  end.

(** [snprintf(buf, size, ...)]: the formatted text cut to [size - 1]
    characters. *)
Definition snprintf (size : nat) (text : string) : string :=
  string_take (size - 1) text.

(** [strstr(hay, needle)]: the suffix of [hay] that starts at the first
    occurrence of [needle], or [None] for a NULL result. *)
Fixpoint strstr (hay needle : string) : option string :=
  if String.prefix needle hay then Some hay
  else match hay with
       | EmptyString => None
       | String _ t => strstr t needle
       end.

(** [strchr(s, c)] for a non-NUL [c], as the pair of the text before the
    first [c] and the suffix that starts at it. *)
Fixpoint strchr (s : string) (c : ascii) : option (string * string) :=
  match s with
  | EmptyString => None
  | String a t =>
      if Ascii.eqb a c then Some (EmptyString, s)
      else match strchr t c with
           | Some (pre, suf) => Some (String a pre, suf)
           | None => None
           end
  end.

(** The loop that advances [start] over spaces and tabs. *)
Fixpoint skip_blanks (s : string) : string :=
  match s with
  | String a t =>
      if (Ascii.eqb a " " || Ascii.eqb a "009")%bool then skip_blanks t else s
  | EmptyString => s
  end.

(** The loop that advances [start] over spaces, tabs and newlines. *)
Fixpoint skip_blanks_nl (s : string) : string :=
  match s with
  | String a t =>
      if (Ascii.eqb a " " || Ascii.eqb a "009" || Ascii.eqb a "010")%bool
      then skip_blanks_nl t else s
  | EmptyString => s
  end.

Definition quoted_key (key : string) : string :=
  String dquote (key +++ String dquote ":").

(** The copy of [start .. end) made once [strchr] has found the closing
    double quote. *)
Definition copy_to_quote (start : string) : option string :=
  match strchr start dquote with
  | Some (pre, _) => Some pre
  | None => None
  end.

Definition json_get_string (json key : string) : option string :=
  let search := snprintf 256 (quoted_key key +++ String dquote "") in
  match strstr json search with
  | None =>
      let search := snprintf 256 (quoted_key key) in
      match strstr json search with
      | None => None
      | Some start =>
          let start := skip_blanks (string_drop (String.length search) start) in
          match start with
          | String a rest =>
              if Ascii.eqb a dquote then copy_to_quote rest else None
          | EmptyString => None
          end
      end
  | Some start => copy_to_quote (string_drop (String.length search) start)
  end.

(** The brace-matching loop of [json_get_object]; [s] is the text after
    the opening brace, the result the text up to and including the
    brace that brings [depth] to 0. *)
Fixpoint match_braces (s : string) (depth : nat) : option string :=
  match depth with
  | O => Some EmptyString
  | S d =>
      match s with
      | EmptyString => None
      | String a t =>
          let depth' :=
            if Ascii.eqb a "{" then S depth
            else if Ascii.eqb a "}" then d
            else depth in
          option_map (String a) (match_braces t depth')
      end
  end.

Definition json_get_object (json key : string) : option string :=
  let search := snprintf 256 (quoted_key key) in
  match strstr json search with
  | None => None
  | Some start =>
      match skip_blanks_nl (string_drop (String.length search) start) with
      | String a rest =>
          if Ascii.eqb a "{" then option_map (String a) (match_braces rest 1)
          else None
      | EmptyString => None
      end
  end.

(** JSON literals are written with single quotes in this file; [js]
    turns them into the double quotes of the wire text. *)
Fixpoint js (s : string) : string :=
  match s with
  | EmptyString => EmptyString
  | String a t => String (if Ascii.eqb a "'" then dquote else a) (js t)
  end.

(* ------------------------------------------------------------------ *)
(** ** Formatting                                                      *)
(* ------------------------------------------------------------------ *)

Definition hex_digit (n : Z) : ascii :=
  match String.get (Z.to_nat n) "0123456789abcdef" with
  | Some a => a
  | None => "?"%char
  end.

(** The lowercase hexadecimal digits of [v], most significant first;
    [fuel] bounds their number. *)
Fixpoint hex_digits (fuel : nat) (v : Z) (acc : string) : string :=
  match fuel with
  | O => acc
  | S f =>
      let acc' := String (hex_digit (v mod 16)) acc in
      if v / 16 =? 0 then acc' else hex_digits f (v / 16) acc'
  end.

Fixpoint zero_pad (width : nat) (s : string) : string :=
  if (width <=? String.length s)%nat then s
  else match width with
       | O => s
       | S w => String "0" (zero_pad w s)
       end.

(** The conversion [%02x] applied to an [unsigned int]. *)
Definition fmt_02x (v : Z) : string := zero_pad 2 (hex_digits 8 (u32 v) "").

Definition uuid_to_string (bytes : list byte) : string :=
  let b i := fmt_02x (Zbyte (nth i bytes "000"%byte)) in
  b 0%nat +++ b 1%nat +++ b 2%nat +++ b 3%nat +++ "-" +++
  b 4%nat +++ b 5%nat +++ "-" +++
  b 6%nat +++ b 7%nat +++ "-" +++
  b 8%nat +++ b 9%nat +++ "-" +++
  b 10%nat +++ b 11%nat +++ b 12%nat +++ b 13%nat +++ b 14%nat +++ b 15%nat.

Definition dec_digit (n : Z) : ascii := ascii_of_N (Z.to_N (48 + n)).

(** The decimal digits of [v], most significant first; [fuel] bounds
    their number. *)
Fixpoint dec_digits (fuel : nat) (v : Z) (acc : string) : string :=
  match fuel with
  | O => acc
  | S f =>
      let acc' := String (dec_digit (v mod 10)) acc in
      if v / 10 =? 0 then acc' else dec_digits f (v / 10) acc'
  end.

(** The conversion [%llu] applied to an [unsigned long long]: at most
    20 digits. *)
Definition fmt_llu (v : Z) : string := dec_digits 20 (u64 v) "".

(* ------------------------------------------------------------------ *)
(** ** Network I/O                                                     *)
(* ------------------------------------------------------------------ *)

(** What the network does next on the read side of a socket. *)
Inductive net_event : Type :=
| Data (bs : list byte)  (* these bytes arrive *)
| Eof                    (* the peer has closed: [recv] returns 0 *)
| Fail                   (* [select] or [recv] returns -1, errno not EINTR *)
| Intr                   (* a signal interrupts the call: -1 with EINTR *)
| Quiet.                 (* nothing arrives for as long as a timeout lasts *)

(** What the kernel does with the next [send]. *)
Inductive tx_event : Type :=
| TxAccept (n : nat)     (* takes at most [n] bytes *)
| TxIntr                 (* -1 with EINTR *)
| TxFail.                (* -1 with another errno *)

(** A connected socket: its two scripts and the bytes written so far.
    An exhausted [net_out] accepts whatever is sent. *)
Record socket : Type := mkSocket {
  net_in : list net_event;
  net_out : list tx_event;
  wire : list byte
}.

Inductive rx_failure : Type :=
| RxTimedOut             (* [select] returned 0; errno = ETIMEDOUT *)
| RxError
| RxClosed.

Inductive rx_result : Type :=
| RxOk (bs : list byte)
| RxFail (e : rx_failure)
| RxBlocked.

Definition rx_prepend (bs : list byte) (r : rx_result * list net_event)
  : rx_result * list net_event :=
  match r with
  | (RxOk rest, net) => (RxOk (bs ++ rest), net)
  | other => other
  end.

(** [recv_all(fd, buf, len, timeout_ms)].  Each pass of the loop looks
    at the head of the script: with a positive timeout [select] comes
    first and returns 0 on [Quiet]; without one [recv] waits through
    [Quiet].  A closed or failed socket stays so. *)
Fixpoint recv_all (net : list net_event) (len : nat) (timeout_ms : Z)
  : rx_result * list net_event :=
  match len with
  | O => (RxOk [], net)
  | S _ =>
      match net with
      | [] => (RxBlocked, [])
      | Intr :: net' => recv_all net' len timeout_ms
      | Fail :: _ => (RxFail RxError, net)
      | Eof :: _ => (RxFail RxClosed, net)
      | Quiet :: net' =>
          if 0 <? timeout_ms then (RxFail RxTimedOut, net')
          else recv_all net' len timeout_ms
      | Data bs :: net' =>
          if (List.length bs <=? len)%nat
          then rx_prepend bs (recv_all net' (len - List.length bs) timeout_ms)
          else (RxOk (firstn len bs), Data (skipn len bs) :: net')
      end
  end.

(** [send_all(fd, buf, len)]: whether it returned [len], the bytes that
    reached the wire, and the rest of the script. *)
Fixpoint send_all (out : list tx_event) (buf : list byte)
  : bool * list byte * list tx_event :=
  match buf with
  | [] => (true, [], out)
  | _ :: _ =>
      match out with
      | [] => (true, buf, [])
      | TxFail :: _ => (false, [], out)
      | TxIntr :: out' => send_all out' buf
      | TxAccept n :: out' =>
          match send_all out' (skipn n buf) with
          | (ok, w, out'') => (ok, firstn n buf ++ w, out'')
          end
      end
  end.

Definition sock_recv_all (s : socket) (len : nat) (timeout_ms : Z)
  : rx_result * socket :=
  match recv_all (net_in s) len timeout_ms with
  | (r, net) => (r, mkSocket net (net_out s) (wire s))
  end.

Definition sock_send_all (s : socket) (buf : list byte) : bool * socket :=
  match send_all (net_out s) buf with
  | (ok, w, out) => (ok, mkSocket (net_in s) out (wire s ++ w))
  end.

(* ------------------------------------------------------------------ *)
(** ** Client state                                                    *)
(* ------------------------------------------------------------------ *)

(** A node of the pending list; [req_addr] is the address [calloc]
    returned for it, by which [send_request] finds it again. *)
Record pending_request_t : Type := mkPending {
  req_addr : nat;
  req_id : string;
  req_response : option string;
  req_error : sqrl_error_t;
  req_completed : bool
}.

Record subscription_entry_t : Type := mkSubEntry {
  sub_id : string;
  sub_callback : nat;
  sub_user_data : nat
}.

Record sqrl_client_t : Type := mkClient {
  fd : Z;
  session_id : option string;
  encoding : option sqrl_encoding_t;
  connected : bool;
  request_id : Z;
  request_timeout_ms : Z;
  reader_running : bool;
  pending_requests : list pending_request_t;
  subscriptions : list subscription_entry_t
}.

Record sqrl_options_t : Type := mkOptions {
  auth_token : option string;
  use_msgpack : bool;
  connect_timeout_ms : Z;
  opt_request_timeout_ms : Z
}.

Definition set_session (c : sqrl_client_t) (sid : string)
  (enc : sqrl_encoding_t) : sqrl_client_t :=
  mkClient (fd c) (Some sid) (Some enc) (connected c) (request_id c)
    (request_timeout_ms c) (reader_running c) (pending_requests c)
    (subscriptions c).

Definition set_connected (c : sqrl_client_t) (b : bool) : sqrl_client_t :=
  mkClient (fd c) (session_id c) (encoding c) b (request_id c)
    (request_timeout_ms c) (reader_running c) (pending_requests c)
    (subscriptions c).

Definition set_request_id (c : sqrl_client_t) (n : Z) : sqrl_client_t :=
  mkClient (fd c) (session_id c) (encoding c) (connected c) n
    (request_timeout_ms c) (reader_running c) (pending_requests c)
    (subscriptions c).

Definition set_reader_running (c : sqrl_client_t) (b : bool) : sqrl_client_t :=
  mkClient (fd c) (session_id c) (encoding c) (connected c) (request_id c)
    (request_timeout_ms c) b (pending_requests c) (subscriptions c).

Definition set_pending (c : sqrl_client_t) (l : list pending_request_t)
  : sqrl_client_t :=
  mkClient (fd c) (session_id c) (encoding c) (connected c) (request_id c)
    (request_timeout_ms c) (reader_running c) l (subscriptions c).

Definition set_subscriptions (c : sqrl_client_t)
  (l : list subscription_entry_t) : sqrl_client_t :=
  mkClient (fd c) (session_id c) (encoding c) (connected c) (request_id c)
    (request_timeout_ms c) (reader_running c) (pending_requests c) l.

(** A client as [sqrl_connect] has it when it calls [do_handshake]:
    zeroed by [calloc], with the descriptor and the request timeout
    filled in. *)
Definition fresh_client (fd request_timeout_ms : Z) : sqrl_client_t :=
  mkClient fd None None false 0 request_timeout_ms false [] [].

(* ------------------------------------------------------------------ *)
(** ** Protocol implementation                                         *)
(* ------------------------------------------------------------------ *)

(** The packet [do_handshake] builds before it sends anything. *)
Definition handshake_packet (opts : option sqrl_options_t) : list byte :=
  let token :=
    match opts with
    | Some o => match auth_token o with Some t => c_str t | None => "" end
    | None => ""
    end in
  let token_len := strlen token in
  let flags :=
    Z.lor (match opts with
           | None => 1
           | Some o => if use_msgpack o then 1 else 0
           end) 2 in
  MAGIC ++ [byte_of_Z SQRL_PROTOCOL_VERSION; byte_of_Z flags]
        ++ write_u16_be (u16 token_len)
        ++ list_byte_of_string token.

(** The timeout [do_handshake] passes to [recv_all]. *)
Definition handshake_timeout (opts : option sqrl_options_t) : Z :=
  match opts with
  | Some o => connect_timeout_ms o
  | None => 5000
  end.

(** [do_handshake(client, opts)]; [None] when the call is still blocked
    at the end of the script. *)
Definition do_handshake (client : sqrl_client_t) (opts : option sqrl_options_t)
  (s : socket) : option (sqrl_error_t * sqrl_client_t) * socket :=
  match sock_send_all s (handshake_packet opts) with
  | (false, s1) => (Some (SQRL_ERR_SEND, client), s1)
  | (true, s1) =>
      match sock_recv_all s1 19 (handshake_timeout opts) with
      | (RxBlocked, s2) => (None, s2)
      | (RxFail _, s2) => (Some (SQRL_ERR_RECV, client), s2)
      | (RxOk resp, s2) =>
          let status := Zbyte (nth 0 resp "000"%byte) in
          let resp_flags := Zbyte (nth 2 resp "000"%byte) in
          if status =? HANDSHAKE_VERSION_MISMATCH
          then (Some (SQRL_ERR_VERSION_MISMATCH, client), s2)
          else if status =? HANDSHAKE_AUTH_FAILED
          then (Some (SQRL_ERR_AUTH_FAILED, client), s2)
          else if negb (status =? HANDSHAKE_SUCCESS)
          then (Some (SQRL_ERR_HANDSHAKE, client), s2)
          else
            let sid := uuid_to_string (skipn 3 resp) in
            let enc := if negb (Z.land resp_flags 1 =? 0)
                       then SQRL_ENCODING_MSGPACK else SQRL_ENCODING_JSON in
            (Some (SQRL_OK, set_session client sid enc), s2)
      end
  end.

(** The buffer [send_frame] fills before it takes the write lock. *)
Definition frame_of (json : string) : list byte :=
  let payload_len := strlen json in
  let length := u32 (payload_len + 2) in
  write_u32_be length
    ++ [byte_of_Z MSG_TYPE_REQUEST; byte_of_Z (encoding_tag SQRL_ENCODING_JSON)]
    ++ list_byte_of_string (c_str json).

Definition send_frame (s : socket) (json : string) : sqrl_error_t * socket :=
  match sock_send_all s (frame_of json) with
  | (true, s') => (SQRL_OK, s')
  | (false, s') => (SQRL_ERR_SEND, s')
  end.

Inductive frame_result : Type :=
| FrameOk (msg_type : Z) (payload : list byte)
| FrameErr (e : sqrl_error_t)
| FrameBlocked.

Definition recv_frame (s : socket) : frame_result * socket :=
  match sock_recv_all s 6 0 with
  | (RxBlocked, s1) => (FrameBlocked, s1)
  | (RxFail _, s1) => (FrameErr SQRL_ERR_RECV, s1)
  | (RxOk header, s1) =>
      let length := read_u32_be header in
      let msg_type := Zbyte (nth 4 header "000"%byte) in
      if ((length <? 2) || (SQRL_MAX_MESSAGE_SIZE <? length))%bool
      then (FrameErr SQRL_ERR_DECODE, s1)
      else
        let payload_len := u32 (length - 2) in
        match sock_recv_all s1 (Z.to_nat payload_len) 0 with
        | (RxBlocked, s2) => (FrameBlocked, s2)
        | (RxFail _, s2) => (FrameErr SQRL_ERR_RECV, s2)
        | (RxOk payload, s2) => (FrameOk msg_type payload, s2)
        end
  end.

(* ------------------------------------------------------------------ *)
(** ** Reader thread                                                   *)
(* ------------------------------------------------------------------ *)

Record sqrl_document_t : Type := mkDocument {
  doc_id : option string;
  doc_collection : option string;
  doc_data : option string;
  doc_created_at : option string;
  doc_updated_at : option string
}.

Record sqrl_change_event_t : Type := mkEvent {
  ev_type : sqrl_change_type_t;
  ev_document : option sqrl_document_t;
  ev_new_doc : option sqrl_document_t;
  ev_old_data : option string
}.

(** One call [entry->callback(&event, entry->user_data)]. *)
Inductive callback_call : Type :=
| Invoke (callback : nat) (event : sqrl_change_event_t) (user_data : nat).

(** The zero-initialised event with its [type] parsed from the change
    payload. *)
Definition change_event_of (json : string) : sqrl_change_event_t :=
  let ty :=
    match json_get_string json "type" with
    | Some type_str =>
        if streq type_str "initial" then SQRL_CHANGE_INITIAL
        else if streq type_str "insert" then SQRL_CHANGE_INSERT
        else if streq type_str "update" then SQRL_CHANGE_UPDATE
        else if streq type_str "delete" then SQRL_CHANGE_DELETE
        else SQRL_CHANGE_INITIAL
    | None => SQRL_CHANGE_INITIAL
    end in
  mkEvent ty None None None.

(** The walk of [dispatch_change] over the subscription list. *)
Fixpoint dispatch_change_from (entry : list subscription_entry_t)
  (id json : string) : list callback_call :=
  match entry with
  | [] => []
  | e :: next =>
      if streq (sub_id e) id
      then [Invoke (sub_callback e) (change_event_of json) (sub_user_data e)]
      else dispatch_change_from next id json
  end.

Definition dispatch_change (client : sqrl_client_t) (id json : string)
  : list callback_call :=
  dispatch_change_from (subscriptions client) id json.

(** The walk of [dispatch_response] over the pending list. *)
Fixpoint dispatch_response_from (req : list pending_request_t)
  (id json : string) : list pending_request_t :=
  match req with
  | [] => []
  | r :: next =>
      if streq (req_id r) id
      then mkPending (req_addr r) (req_id r) (Some json) (req_error r) true :: next
      else r :: dispatch_response_from next id json
  end.

Definition dispatch_response (client : sqrl_client_t) (id json : string)
  : sqrl_client_t :=
  set_pending client (dispatch_response_from (pending_requests client) id json).

(** The part of the loop body of [reader_thread_func] that follows a
    successful [recv_frame]. *)
Definition reader_route (client : sqrl_client_t) (json : string)
  : sqrl_client_t * list callback_call :=
  match json_get_string json "id", json_get_string json "type" with
  | Some msg_id, Some resp_type =>
      if streq resp_type "change" then
        match json_get_object json "change" with
        | Some change_json => (client, dispatch_change client msg_id change_json)
        | None => (client, [])
        end
      else (dispatch_response client msg_id json, [])
  | _, _ => (client, [])
  end.

(** How a run of the reader thread stands when the model stops
    following it. *)
Inductive reader_status : Type :=
| ReaderFlagCleared                  (* the loop condition was false *)
| ReaderBroke (err : sqrl_error_t)   (* [recv_frame] failed: [break] *)
| ReaderBlocked                      (* waiting in [recv] *)
| ReaderRunning.                     (* more iterations to go *)

Record reader_run : Type := mkReaderRun {
  run_status : reader_status;
  run_client : sqrl_client_t;
  run_socket : socket;
  run_calls : list callback_call
}.

(** One pass through the loop of [reader_thread_func], the loop
    condition included. *)
Definition reader_iteration (client : sqrl_client_t) (s : socket) : reader_run :=
  if negb (reader_running client) then mkReaderRun ReaderFlagCleared client s []
  else
    match recv_frame s with
    | (FrameBlocked, s') => mkReaderRun ReaderBlocked client s' []
    | (FrameErr err, s') =>
        mkReaderRun (ReaderBroke err)
          (if reader_running client then set_connected client false else client)
          s' []
    | (FrameOk _ payload, s') =>
        let json := c_str (string_of_list_byte payload) in
        match reader_route client json with
        | (client', calls) => mkReaderRun ReaderRunning client' s' calls
        end
    end.

(** [reader_thread_func], followed for at most [fuel] iterations. *)
Fixpoint reader_thread_func (fuel : nat) (client : sqrl_client_t) (s : socket)
  : reader_run :=
  match fuel with
  | O => mkReaderRun ReaderRunning client s []
  | S fuel' =>
      let r := reader_iteration client s in
      match run_status r with
      | ReaderRunning =>
          let r' := reader_thread_func fuel' (run_client r) (run_socket r) in
          mkReaderRun (run_status r') (run_client r') (run_socket r')
            (run_calls r ++ run_calls r')
      | _ => r
      end
  end.

(* ------------------------------------------------------------------ *)
(** ** Request/Response                                                *)
(* ------------------------------------------------------------------ *)

(** Linking a fresh node at the head of the pending list. *)
Definition pending_add (client : sqrl_client_t) (addr : nat) (id : string)
  : sqrl_client_t :=
  set_pending client
    (mkPending addr id None SQRL_OK false :: pending_requests client).

(** Unlinking the node at [addr]: the head if it is the one, else the
    successor of the first node whose [next] is it. *)
Fixpoint unlink (l : list pending_request_t) (addr : nat)
  : list pending_request_t :=
  match l with
  | [] => []
  | r :: next => if Nat.eqb (req_addr r) addr then next else r :: unlink next addr
  end.

Definition pending_remove (client : sqrl_client_t) (addr : nat) : sqrl_client_t :=
  set_pending client (unlink (pending_requests client) addr).

Fixpoint node_at (l : list pending_request_t) (addr : nat)
  : option pending_request_t :=
  match l with
  | [] => None
  | r :: next => if Nat.eqb (req_addr r) addr then Some r else node_at next addr
  end.

(** What [send_request] hands back: its return value and
    [*response_out]. *)
Definition request_result : Type := (sqrl_error_t * option string)%type.

(** First half of [send_request]: link the node and send the frame.
    [Some] is an early return on a failed send, [None] means the caller
    goes on to wait. *)
Definition send_request_begin (client : sqrl_client_t) (s : socket)
  (json id : string) (addr : nat)
  : option request_result * sqrl_client_t * socket :=
  let client1 := pending_add client addr id in
  match send_frame s json with
  | (SQRL_OK, s') => (None, client1, s')
  | (err, s') => (Some (err, None), pending_remove client1 addr, s')
  end.

(** Where the caller stands in the wait loop. *)
Inductive wait_pc : Type :=
| AtLoopTest             (* about to evaluate [!req->completed] *)
| InTimedWait.           (* inside [pthread_cond_timedwait] *)

(** The return value of [pthread_cond_timedwait]. *)
Inductive wait_ret : Type :=
| WaitWoken              (* 0 *)
| WaitTimedOut.          (* ETIMEDOUT *)

(** The code from the label [cleanup] on, reached with [err]. *)
Definition send_request_cleanup (client : sqrl_client_t) (addr : nat)
  (res : request_result) : request_result * sqrl_client_t :=
  (res, pending_remove client addr).

(** The caller at the loop test: with [completed] set it leaves the
    loop and returns, otherwise it enters the timed wait. *)
Definition send_request_test (client : sqrl_client_t) (addr : nat)
  : option (request_result * sqrl_client_t) :=
  match node_at (pending_requests client) addr with
  | None => None
  | Some req =>
      if req_completed req then
        Some (send_request_cleanup client addr
                match req_response req with
                | Some response => (SQRL_OK, Some response)
                | None => (SQRL_ERR_RECV, None)
                end)
      else None
  end.

(** The caller inside the timed wait when it returns [ret]: a timeout
    goes to [cleanup], any other return goes back to the loop test. *)
Definition send_request_wake (client : sqrl_client_t) (addr : nat)
  (ret : wait_ret) : option (request_result * sqrl_client_t) :=
  match ret with
  | WaitTimedOut =>
      Some (send_request_cleanup client addr (SQRL_ERR_TIMEOUT, None))
  | WaitWoken => None
  end.

Definition next_request_id (client : sqrl_client_t) : string * sqrl_client_t :=
  let client' := set_request_id client (u64 (request_id client + 1)) in
  (snprintf 32 (fmt_llu (request_id client')), client').

(** The increment in [next_request_id] is made outside every lock.  Its
    two halves, for a caller that has read [seen] from the counter: *)
Definition request_id_read (client : sqrl_client_t) : Z := request_id client.

Definition request_id_write (client : sqrl_client_t) (seen : Z)
  : string * sqrl_client_t :=
  let client' := set_request_id client (u64 (seen + 1)) in
  (snprintf 32 (fmt_llu (request_id client')), client').

(* ------------------------------------------------------------------ *)
(** ** Public API                                                      *)
(* ------------------------------------------------------------------ *)

Definition error_code (e : sqrl_error_t) : Z :=
  match e with
  | SQRL_OK => 0
  | SQRL_ERR_CONNECT => 1
  | SQRL_ERR_HANDSHAKE => 2
  | SQRL_ERR_VERSION_MISMATCH => 3
  | SQRL_ERR_AUTH_FAILED => 4
  | SQRL_ERR_SEND => 5
  | SQRL_ERR_RECV => 6
  | SQRL_ERR_TIMEOUT => 7
  | SQRL_ERR_CLOSED => 8
  | SQRL_ERR_INVALID_ARG => 9
  | SQRL_ERR_MEMORY => 10
  | SQRL_ERR_ENCODE => 11
  | SQRL_ERR_DECODE => 12
  | SQRL_ERR_SERVER => 13
  | SQRL_ERR_NOT_FOUND => 14
  end.

Definition is_ok (e : sqrl_error_t) : bool := error_code e =? 0.

(** [sqrl_init] and [sqrl_cleanup] on the global flag [g_initialized]. *)
Definition sqrl_init (g_initialized : bool) : sqrl_error_t * bool :=
  if g_initialized then (SQRL_OK, g_initialized) else (SQRL_OK, true).

Definition sqrl_cleanup (g_initialized : bool) : bool := false.

Definition sqrl_error_string (err : Z) : string :=
  if err =? 0 then "Success"
  else if err =? 1 then "Connection failed"
  else if err =? 2 then "Handshake failed"
  else if err =? 3 then "Protocol version mismatch"
  else if err =? 4 then "Authentication failed"
  else if err =? 5 then "Send failed"
  else if err =? 6 then "Receive failed"
  else if err =? 7 then "Timeout"
  else if err =? 8 then "Connection closed"
  else if err =? 9 then "Invalid argument"
  else if err =? 10 then "Memory allocation failed"
  else if err =? 11 then "Encoding failed"
  else if err =? 12 then "Decoding failed"
  else if err =? 13 then "Server error"
  else if err =? 14 then "Not found"
  else "Unknown error".

Definition sqrl_options_default : sqrl_options_t := mkOptions None true 5000 30000.

(** What the operating system answers to [sqrl_connect]: whether the
    host resolves, the descriptor [socket] returns, whether [connect]
    succeeds, the scripts of the connection made, and whether the reader
    thread can be created. *)
Record connect_env : Type := mkConnectEnv {
  env_resolves : bool;
  env_fd : Z;
  env_connects : bool;
  env_peer : socket;
  env_thread_starts : bool
}.

(** [sqrl_connect]: its return value ([None] when the handshake never
    returns) and what it stores through [client_out]. *)
Definition sqrl_connect (client_out : bool) (host : option string) (port : Z)
  (options : option sqrl_options_t) (env : connect_env)
  : option sqrl_error_t * option (sqrl_client_t * socket) :=
  match client_out, host with
  | true, Some _ =>
      let timeout := match options with
                     | Some o => opt_request_timeout_ms o
                     | None => 30000
                     end in
      if negb (env_resolves env) then (Some SQRL_ERR_CONNECT, None)
      else if env_fd env <? 0 then (Some SQRL_ERR_CONNECT, None)
      else if negb (env_connects env) then (Some SQRL_ERR_CONNECT, None)
      else
        match do_handshake (fresh_client (env_fd env) timeout) options (env_peer env) with
        | (None, _) => (None, None)
        | (Some (err, client), s) =>
            if negb (is_ok err) then (Some err, None)
            else
              let client := set_reader_running (set_connected client true) true in
              if env_thread_starts env then (Some SQRL_OK, Some (client, s))
              else (Some SQRL_ERR_CONNECT, None)
        end
  | _, _ => (Some SQRL_ERR_INVALID_ARG, None)
  end.

Definition sqrl_session_id (client : option sqrl_client_t) : option string :=
  match client with
  | Some c => session_id c
  | None => None
  end.

Definition sqrl_is_connected (client : option sqrl_client_t) : bool :=
  match client with
  | Some c => connected c
  | None => false
  end.

(** What happens around one call of [send_request]: the address
    [calloc] returns for the node, how many passes the reader thread
    makes between the send and the caller's loop test, and how the timed
    wait returns if it is entered. *)
Record wait_env : Type := mkWaitEnv {
  env_addr : nat;
  env_reader_passes : nat;
  env_wake : wait_ret
}.

(** The reply of an operation that waits: [None] when the operation does
    not return under this schedule. *)
Definition reply (A : Type) : Type :=
  (option A * sqrl_client_t * socket * list callback_call)%type.

(** [send_request] from call to return, the reader thread running in
    between as [env] says. *)
Definition send_request (client : sqrl_client_t) (s : socket) (json id : string)
  (env : wait_env) : reply request_result :=
  match send_request_begin client s json id (env_addr env) with
  | (Some res, c1, s1) => (Some res, c1, s1, [])
  | (None, c1, s1) =>
      let r := reader_thread_func (env_reader_passes env) c1 s1 in
      match send_request_test (run_client r) (env_addr env) with
      | Some (res, c3) => (Some res, c3, run_socket r, run_calls r)
      | None =>
          match send_request_wake (run_client r) (env_addr env) (env_wake env) with
          | Some (res, c3) => (Some res, c3, run_socket r, run_calls r)
          | None => (None, run_client r, run_socket r, run_calls r)
          end
      end
  end.

(** The three statements every request operation shares: take the next
    id, format the request around it, call [send_request]. *)
Definition request (client : sqrl_client_t) (s : socket) (env : wait_env)
  (build : string -> string) : string * reply request_result :=
  match next_request_id client with
  | (id, c1) => (id, send_request c1 s (build id) id env)
  end.

(** The test [resp_type && strcmp(resp_type, "error") == 0]. *)
Definition is_error_response (response : string) : bool :=
  match json_get_string response "type" with
  | Some resp_type => streq resp_type "error"
  | None => false
  end.

(** The request text of [sqrl_ping]. *)
Definition ping_json (id : string) : string :=
  snprintf 256 (js "{'type':'ping','id':'" +++ id +++ js "'}").

(** What an operation on a client handle leaves behind: its result
    ([None] when it does not return), the client, the socket and the
    callbacks the reader thread made meanwhile. *)
Definition api_reply (A : Type) : Type :=
  (option A * option sqrl_client_t * socket * list callback_call)%type.

Definition returns {A : Type} (a : A) (client : option sqrl_client_t)
  (s : socket) : api_reply A := (Some a, client, s, []).

(** A request followed by what the operation does with the outcome:
    [on_error] when [send_request] failed, [on_response] with the id,
    the response and the client otherwise. *)
Definition after_request {A : Type} (c : sqrl_client_t) (s : socket)
  (env : wait_env) (build : string -> string)
  (on_error : sqrl_error_t -> A)
  (on_response : string -> string -> sqrl_client_t -> A * sqrl_client_t)
  : api_reply A :=
  match request c s env build with
  | (_, (None, c', s', calls)) => (None, Some c', s', calls)
  | (id, (Some (err, Some response), c', s', calls)) =>
      if is_ok err then
        match on_response id response c' with
        | (a, c'') => (Some a, Some c'', s', calls)
        end
      else (Some (on_error err), Some c', s', calls)
  | (_, (Some (err, None), c', s', calls)) =>
      (Some (on_error err), Some c', s', calls)
  end.

Definition sqrl_ping (client : option sqrl_client_t) (s : socket)
  (env : wait_env) : api_reply sqrl_error_t :=
  match client with
  | None => returns SQRL_ERR_CLOSED client s
  | Some c =>
      if negb (connected c) then returns SQRL_ERR_CLOSED client s
      else
        after_request c s env ping_json (fun err => err)
          (fun _ response c' =>
             (match json_get_string response "type" with
              | Some resp_type =>
                  if streq resp_type "pong" then SQRL_OK else SQRL_ERR_SERVER
              | None => SQRL_ERR_SERVER
              end, c'))
  end.

(** The loop that cuts closing braces and newlines off the end. *)
Fixpoint strip_trailing (data : string) : string :=
  match data with
  | EmptyString => EmptyString
  | String a t =>
      match strip_trailing t with
      | EmptyString =>
          if (Ascii.eqb a "}" || Ascii.eqb a "010")%bool then EmptyString
          else String a EmptyString
      | t' => String a t'
      end
  end.

Fixpoint skip_spaces (s : string) : string :=
  match s with
  | String a t => if Ascii.eqb a " " then skip_spaces t else s
  | EmptyString => s
  end.

(** The data field of a query response, as [sqrl_query] extracts it. *)
Definition query_data (response : string) : string :=
  match json_get_object response "data" with
  | Some data => data
  | None =>
      match strstr response (quoted_key "data") with
      | Some data_start => strip_trailing (skip_spaces (string_drop 7 data_start))
      | None => "null"
      end
  end.

Definition query_json (query id : string) : string :=
  snprintf (Z.to_nat (strlen query * 2 + 256))
    (js "{'type':'query','id':'" +++ id +++ js "','query':'" +++ c_str query
        +++ js "'}").

Definition sqrl_query (client : option sqrl_client_t) (s : socket)
  (query : option string) (result_out : bool) (env : wait_env)
  : api_reply (sqrl_error_t * option string) :=
  match client, query, result_out with
  | Some c, Some query, true =>
      if negb (connected c) then returns (SQRL_ERR_CLOSED, None) client s
      else
        after_request c s env (query_json query) (fun err => (err, None))
          (fun _ response c' =>
             (if is_error_response response then (SQRL_ERR_SERVER, None)
              else (SQRL_OK, Some (query_data response)), c'))
  | _, _, _ => returns (SQRL_ERR_INVALID_ARG, None) client s
  end.

Definition parse_document (json : string) : sqrl_document_t :=
  mkDocument (json_get_string json "id") (json_get_string json "collection")
    (json_get_object json "data") (json_get_string json "created_at")
    (json_get_string json "updated_at").

(** The end of [sqrl_insert] and [sqrl_update]: the document of the
    response, or [SQRL_ERR_DECODE] without one. *)
Definition document_result (response : string)
  : sqrl_error_t * option sqrl_document_t :=
  if is_error_response response then (SQRL_ERR_SERVER, None)
  else
    match json_get_object response "data" with
    | Some doc_json => (SQRL_OK, Some (parse_document doc_json))
    | None => (SQRL_ERR_DECODE, None)
    end.

Definition insert_json (collection data id : string) : string :=
  snprintf (Z.to_nat (strlen collection + strlen data + 256))
    (js "{'type':'insert','id':'" +++ id +++ js "','collection':'"
        +++ c_str collection +++ js "','data':" +++ c_str data +++ "}").

Definition sqrl_insert (client : option sqrl_client_t) (s : socket)
  (collection data : option string) (doc_out : bool) (env : wait_env)
  : api_reply (sqrl_error_t * option sqrl_document_t) :=
  match client, collection, data, doc_out with
  | Some c, Some collection, Some data, true =>
      if negb (connected c) then returns (SQRL_ERR_CLOSED, None) client s
      else
        after_request c s env (insert_json collection data)
          (fun err => (err, None))
          (fun _ response c' => (document_result response, c'))
  | _, _, _, _ => returns (SQRL_ERR_INVALID_ARG, None) client s
  end.

Definition update_json (collection document_id data id : string) : string :=
  snprintf (Z.to_nat (strlen collection + strlen document_id + strlen data + 256))
    (js "{'type':'update','id':'" +++ id +++ js "','collection':'"
        +++ c_str collection +++ js "','document_id':'" +++ c_str document_id
        +++ js "','data':" +++ c_str data +++ "}").

Definition sqrl_update (client : option sqrl_client_t) (s : socket)
  (collection document_id data : option string) (doc_out : bool) (env : wait_env)
  : api_reply (sqrl_error_t * option sqrl_document_t) :=
  match client, collection, document_id, data, doc_out with
  | Some c, Some collection, Some document_id, Some data, true =>
      if negb (connected c) then returns (SQRL_ERR_CLOSED, None) client s
      else
        after_request c s env (update_json collection document_id data)
          (fun err => (err, None))
          (fun _ response c' => (document_result response, c'))
  | _, _, _, _, _ => returns (SQRL_ERR_INVALID_ARG, None) client s
  end.

Definition delete_json (collection document_id id : string) : string :=
  snprintf (Z.to_nat (strlen collection + strlen document_id + 256))
    (js "{'type':'delete','id':'" +++ id +++ js "','collection':'"
        +++ c_str collection +++ js "','document_id':'" +++ c_str document_id
        +++ js "'}").

Definition sqrl_delete (client : option sqrl_client_t) (s : socket)
  (collection document_id : option string) (doc_out : bool) (env : wait_env)
  : api_reply (sqrl_error_t * option sqrl_document_t) :=
  match client, collection, document_id with
  | Some c, Some collection, Some document_id =>
      if negb (connected c) then returns (SQRL_ERR_CLOSED, None) client s
      else
        after_request c s env (delete_json collection document_id)
          (fun err => (err, None))
          (fun _ response c' =>
             (if is_error_response response then (SQRL_ERR_SERVER, None)
              else if doc_out then
                (SQRL_OK, option_map parse_document (json_get_object response "data"))
              else (SQRL_OK, None), c'))
  | _, _, _ => returns (SQRL_ERR_INVALID_ARG, None) client s
  end.

(** The loop of [sqrl_list_collections] that skips spaces and opening
    brackets. *)
Fixpoint skip_to_entries (s : string) : string :=
  match s with
  | String a t =>
      if (Ascii.eqb a " " || Ascii.eqb a "[")%bool then skip_to_entries t else s
  | EmptyString => s
  end.

(** The step that moves [p] on by one character unless it is at the end. *)
Definition advance (p : string) : string :=
  match p with
  | String _ t => t
  | EmptyString => EmptyString
  end.

(** The counting loop: one entry per opening quote up to the closing
    bracket.  [fuel] bounds the number of passes. *)
Fixpoint count_entries (fuel : nat) (p : string) (count : nat) : nat :=
  match fuel with
  | O => count
  | S f =>
      match p with
      | EmptyString => count
      | String a t =>
          if Ascii.eqb a "]" then count
          else if Ascii.eqb a dquote then
            let at_quote := match strchr t dquote with
                            | Some (_, suf) => suf
                            | None => EmptyString
                            end in
            count_entries f (advance at_quote) (S count)
          else count_entries f t count
      end
  end.

(** The copying loop: the names between quotes, at most [room] of
    them. *)
Fixpoint copy_entries (fuel : nat) (p : string) (room : nat) : list string :=
  match fuel, room with
  | S f, S room' =>
      match p with
      | EmptyString => []
      | String a t =>
          if Ascii.eqb a "]" then []
          else if Ascii.eqb a dquote then
            match strchr t dquote with
            | Some (name, at_quote) => name :: copy_entries f (advance at_quote) room'
            | None => copy_entries f (advance t) room
            end
          else copy_entries f t room
      end
  | _, _ => []
  end.

Definition collection_names (response : string) : list string :=
  match strstr response (quoted_key "data") with
  | Some data =>
      let data := skip_to_entries (string_drop 7 data) in
      let count := count_entries (S (String.length data)) data 0 in
      copy_entries (S (String.length data)) data count
  | None => []
  end.

Definition list_collections_json (id : string) : string :=
  snprintf 256 (js "{'type':'listcollections','id':'" +++ id +++ js "'}").

Definition sqrl_list_collections (client : option sqrl_client_t) (s : socket)
  (names_out count_out : bool) (env : wait_env)
  : api_reply (sqrl_error_t * list string) :=
  match client, names_out, count_out with
  | Some c, true, true =>
      if negb (connected c) then returns (SQRL_ERR_CLOSED, []) client s
      else
        after_request c s env list_collections_json (fun err => (err, []))
          (fun _ response c' =>
             (if is_error_response response then (SQRL_ERR_SERVER, [])
              else (SQRL_OK, collection_names response), c'))
  | _, _, _ => returns (SQRL_ERR_INVALID_ARG, []) client s
  end.

Definition subscribe_json (query id : string) : string :=
  snprintf (Z.to_nat (strlen query * 2 + 256))
    (js "{'type':'subscribe','id':'" +++ id +++ js "','query':'" +++ c_str query
        +++ js "'}").

(** [sqrl_subscribe]; the handle it returns is the subscription id. *)
Definition sqrl_subscribe (client : option sqrl_client_t) (s : socket)
  (query : option string) (callback : option nat) (user_data : nat)
  (sub_out : bool) (env : wait_env)
  : api_reply (sqrl_error_t * option string) :=
  match client, query, callback, sub_out with
  | Some c, Some query, Some callback, true =>
      if negb (connected c) then returns (SQRL_ERR_CLOSED, None) client s
      else
        after_request c s env (subscribe_json query) (fun err => (err, None))
          (fun id response c' =>
             if is_error_response response then ((SQRL_ERR_SERVER, None), c')
             else
               ((SQRL_OK, Some id),
                set_subscriptions c'
                  (mkSubEntry id callback user_data :: subscriptions c')))
  | _, _, _, _ => returns (SQRL_ERR_INVALID_ARG, None) client s
  end.

(** The walk of [sqrl_unsubscribe] that unlinks the first entry with
    the id. *)
Fixpoint remove_subscription (l : list subscription_entry_t) (id : string)
  : list subscription_entry_t :=
  match l with
  | [] => []
  | e :: next =>
      if streq (sub_id e) id then next else e :: remove_subscription next id
  end.

Definition unsubscribe_json (id : string) : string :=
  snprintf 256 (js "{'type':'unsubscribe','id':'" +++ id +++ js "'}").

Definition sqrl_unsubscribe (client : option sqrl_client_t) (s : socket)
  (sub : option string) : sqrl_error_t * option sqrl_client_t * socket :=
  match sub, client with
  | Some id, Some c =>
      let c' := set_subscriptions c (remove_subscription (subscriptions c) id) in
      if connected c'
      then (SQRL_OK, Some c', snd (send_frame s (unsubscribe_json id)))
      else (SQRL_OK, Some c', s)
  | _, _ => (SQRL_ERR_INVALID_ARG, client, s)
  end.

Definition sqrl_subscription_id (sub : option string) : option string := sub.

(** [sqrl_disconnect]: the reader thread is stopped and joined, the
    lists and the client are freed; the handle is gone. *)
Definition sqrl_disconnect (client : option sqrl_client_t)
  : option sqrl_client_t := None.

(** *** The process *)

(** The state of a process that uses the library: the global flag of
    [squirreldb.c], the client handle the program holds (if any) and the
    socket behind it. *)
Record process : Type := mkProcess {
  g_initialized : bool;
  proc_client : option sqrl_client_t;
  proc_socket : socket
}.

(** A call of a public function, with its arguments and what the
    environment does during the call.  A pointer argument that only
    receives a result is given as the flag "not NULL". *)
Inductive api_call : Type :=
| CallInit
| CallCleanup
| CallErrorString (err : Z)
| CallOptionsDefault
| CallConnect (client_out : bool) (host : option string) (port : Z)
    (options : option sqrl_options_t) (env : connect_env)
| CallDisconnect
| CallSessionId
| CallIsConnected
| CallPing (env : wait_env)
| CallQuery (query : option string) (result_out : bool) (env : wait_env)
| CallInsert (collection data : option string) (doc_out : bool) (env : wait_env)
| CallUpdate (collection document_id data : option string) (doc_out : bool)
    (env : wait_env)
| CallDelete (collection document_id : option string) (doc_out : bool)
    (env : wait_env)
| CallListCollections (names_out count_out : bool) (env : wait_env)
| CallSubscribe (query : option string) (callback : option nat)
    (user_data : nat) (sub_out : bool) (env : wait_env)
| CallUnsubscribe (sub : option string)
| CallSubscriptionId (sub : option string)
| CallDocumentFree
| CallChangeEventFree
| CallStringFree
| CallStringArrayFree
| ReaderPasses (n : nat).        (* the reader thread runs between calls *)

(** What the caller sees of a call. *)
Inductive api_result : Type :=
| RetVoid
| RetHangs
| RetError (e : sqrl_error_t)
| RetBool (b : bool)
| RetString (s : option string)
| RetOptions (o : sqrl_options_t)
| RetText (e : sqrl_error_t) (text : option string)
| RetDocument (e : sqrl_error_t) (doc : option sqrl_document_t)
| RetNames (e : sqrl_error_t) (names : list string)
| RetCallbacks.

(** The observable outcome of a call: its result and the callbacks that
    ran during it. *)
Definition observation : Type := (api_result * list callback_call)%type.

Definition settle {A : Type} (p : process) (r : api_reply A)
  (ret : A -> api_result) : process * observation :=
  match r with
  | (Some a, client, s, calls) => (mkProcess (g_initialized p) client s, (ret a, calls))
  | (None, client, s, calls) => (mkProcess (g_initialized p) client s, (RetHangs, calls))
  end.

Definition api_step (p : process) (call : api_call) : process * observation :=
  let client := proc_client p in
  let s := proc_socket p in
  match call with
  | CallInit =>
      match sqrl_init (g_initialized p) with
      | (err, g) => (mkProcess g client s, (RetError err, []))
      end
  | CallCleanup =>
      (mkProcess (sqrl_cleanup (g_initialized p)) client s, (RetVoid, []))
  | CallErrorString err => (p, (RetString (Some (sqrl_error_string err)), []))
  | CallOptionsDefault => (p, (RetOptions sqrl_options_default, []))
  | CallConnect client_out host port options env =>
      match sqrl_connect client_out host port options env with
      | (Some err, Some (c, s')) =>
          (mkProcess (g_initialized p) (Some c) s', (RetError err, []))
      | (Some err, None) => (p, (RetError err, []))
      | (None, _) => (p, (RetHangs, []))
      end
  | CallDisconnect =>
      (mkProcess (g_initialized p) (sqrl_disconnect client) s, (RetVoid, []))
  | CallSessionId => (p, (RetString (sqrl_session_id client), []))
  | CallIsConnected => (p, (RetBool (sqrl_is_connected client), []))
  | CallPing env => settle p (sqrl_ping client s env) RetError
  | CallQuery query result_out env =>
      settle p (sqrl_query client s query result_out env)
        (fun r => RetText (fst r) (snd r))
  | CallInsert collection data doc_out env =>
      settle p (sqrl_insert client s collection data doc_out env)
        (fun r => RetDocument (fst r) (snd r))
  | CallUpdate collection document_id data doc_out env =>
      settle p (sqrl_update client s collection document_id data doc_out env)
        (fun r => RetDocument (fst r) (snd r))
  | CallDelete collection document_id doc_out env =>
      settle p (sqrl_delete client s collection document_id doc_out env)
        (fun r => RetDocument (fst r) (snd r))
  | CallListCollections names_out count_out env =>
      settle p (sqrl_list_collections client s names_out count_out env)
        (fun r => RetNames (fst r) (snd r))
  | CallSubscribe query callback user_data sub_out env =>
      settle p (sqrl_subscribe client s query callback user_data sub_out env)
        (fun r => RetText (fst r) (snd r))
  | CallUnsubscribe sub =>
      match sqrl_unsubscribe client s sub with
      | (err, client', s') =>
          (mkProcess (g_initialized p) client' s', (RetError err, []))
      end
  | CallSubscriptionId sub => (p, (RetString (sqrl_subscription_id sub), []))
  | CallDocumentFree => (p, (RetVoid, []))
  | CallChangeEventFree => (p, (RetVoid, []))
  | CallStringFree => (p, (RetVoid, []))
  | CallStringArrayFree => (p, (RetVoid, []))
  | ReaderPasses n =>
      match client with
      | Some c =>
          let r := reader_thread_func n c s in
          (mkProcess (g_initialized p) (Some (run_client r)) (run_socket r),
           (RetCallbacks, run_calls r))
      | None => (p, (RetCallbacks, []))
      end
  end.

(** A program: the calls it makes, in order; and what it observes. *)
Fixpoint api_run (p : process) (calls : list api_call)
  : process * list (api_call * observation) :=
  match calls with
  | [] => (p, [])
  | call :: rest =>
      match api_step p call with
      | (p1, obs) =>
          match api_run p1 rest with
          | (p2, seen) => (p2, (call, obs) :: seen)
          end
      end
  end.

Definition is_lifecycle (call : api_call) : bool :=
  match call with
  | CallInit | CallCleanup => true
  | _ => false
  end.

Definition same_but_flag (p q : process) : Prop :=
  proc_client p = proc_client q /\ proc_socket p = proc_socket q.

Definition set_flag (p : process) (g : bool) : process :=
  mkProcess g (proc_client p) (proc_socket p).

(* ------------------------------------------------------------------ *)
(** ** The client with its threads                                     *)
(* ------------------------------------------------------------------ *)

(** The steps below are the critical sections of the source, each taken
    as a whole: a caller thread evaluates the loop test, or comes back
    from the timed wait; the reader thread makes one pass through its
    loop.  The way of a call into [send_request] is one step as well
    here, which is one of the schedules the source allows; all of them
    are the subject of [fine_step] further down. *)

(** A caller inside [send_request]: the address of its node, the id it
    passed, and where it stands. *)
Record caller : Type := mkCaller {
  caller_req : nat;
  caller_id : string;
  caller_pc : wait_pc
}.

Inductive log_entry : Type :=
| Issued (id : string)                        (* [next_request_id] returned [id] *)
| Returned (id : string) (res : request_result) (* the call that passed [id] returned *)
| Refused                                     (* [SQRL_ERR_CLOSED], no id taken *)
| Called (call : callback_call).

Record system : Type := mkSystem {
  sys_client : sqrl_client_t;
  sys_socket : socket;
  sys_reader_done : bool;
  sys_callers : list caller;
  sys_log : list log_entry                    (* most recent first *)
}.

Inductive event : Type :=
| EvSubmit (addr : nat) (build : string -> string)
| EvTest (addr : nat)
| EvWake (addr : nat) (ret : wait_ret)
| EvReader.

Fixpoint caller_at (l : list caller) (addr : nat) : option caller :=
  match l with
  | [] => None
  | k :: t => if Nat.eqb (caller_req k) addr then Some k else caller_at t addr
  end.

Fixpoint drop_caller (l : list caller) (addr : nat) : list caller :=
  match l with
  | [] => []
  | k :: t => if Nat.eqb (caller_req k) addr then t else k :: drop_caller t addr
  end.

Fixpoint move_caller (l : list caller) (addr : nat) (pc : wait_pc) : list caller :=
  match l with
  | [] => []
  | k :: t =>
      if Nat.eqb (caller_req k) addr
      then mkCaller (caller_req k) (caller_id k) pc :: t
      else k :: move_caller t addr pc
  end.

Definition addr_in_use (client : sqrl_client_t) (addr : nat) : bool :=
  existsb (fun r => Nat.eqb (req_addr r) addr) (pending_requests client).

(** What every request operation of the public API does with the
    client: refuse when not connected, else take the next id, build the
    request text around it and enter [send_request].  This is the call
    as it runs when no other thread takes a step before its frame is
    out; [fine_step] below makes the same steps one at a time. *)
Definition submit (sys : system) (addr : nat) (build : string -> string)
  : system :=
  let client := sys_client sys in
  if negb (connected client) then
    mkSystem client (sys_socket sys) (sys_reader_done sys) (sys_callers sys)
      (Refused :: sys_log sys)
  else
    match next_request_id client with
    | (id, client1) =>
        match send_request_begin client1 (sys_socket sys) (build id) id addr with
        | (Some res, client2, s2) =>
            mkSystem client2 s2 (sys_reader_done sys) (sys_callers sys)
              (Returned id res :: Issued id :: sys_log sys)
        | (None, client2, s2) =>
            mkSystem client2 s2 (sys_reader_done sys)
              (mkCaller addr id AtLoopTest :: sys_callers sys)
              (Issued id :: sys_log sys)
        end
    end.

(** The caller at [addr] leaves [send_request] with [res], or moves to
    [pc]. *)
Definition caller_moves (sys : system) (k : caller)
  (out : option (request_result * sqrl_client_t)) (pc : wait_pc) : system :=
  match out with
  | Some (res, client') =>
      mkSystem client' (sys_socket sys) (sys_reader_done sys)
        (drop_caller (sys_callers sys) (caller_req k))
        (Returned (caller_id k) res :: sys_log sys)
  | None =>
      mkSystem (sys_client sys) (sys_socket sys) (sys_reader_done sys)
        (move_caller (sys_callers sys) (caller_req k) pc) (sys_log sys)
  end.

(** One step of the system; [None] when the event cannot happen in this
    state. *)
Definition step (sys : system) (ev : event) : option system :=
  match ev with
  | EvSubmit addr build =>
      if addr_in_use (sys_client sys) addr then None
      else Some (submit sys addr build)
  | EvTest addr =>
      match caller_at (sys_callers sys) addr with
      | Some k =>
          match caller_pc k with
          | AtLoopTest =>
              Some (caller_moves sys k
                      (send_request_test (sys_client sys) addr) InTimedWait)
          | InTimedWait => None
          end
      | None => None
      end
  | EvWake addr ret =>
      match caller_at (sys_callers sys) addr with
      | Some k =>
          match caller_pc k with
          | InTimedWait =>
              Some (caller_moves sys k
                      (send_request_wake (sys_client sys) addr ret) AtLoopTest)
          | AtLoopTest => None
          end
      | None => None
      end
  | EvReader =>
      if sys_reader_done sys then None
      else
        let r := reader_iteration (sys_client sys) (sys_socket sys) in
        match run_status r with
        | ReaderBlocked => None
        | ReaderRunning =>
            Some (mkSystem (run_client r) (run_socket r) false (sys_callers sys)
                    (map Called (rev (run_calls r)) ++ sys_log sys))
        | _ =>
            Some (mkSystem (run_client r) (run_socket r) true (sys_callers sys)
                    (sys_log sys))
        end
  end.

Fixpoint run (sys : system) (trace : list event) : option system :=
  match trace with
  | [] => Some sys
  | ev :: rest =>
      match step sys ev with
      | Some sys' => run sys' rest
      | None => None
      end
  end.

(** The system [sqrl_connect] leaves behind when it succeeds: the
    handshaken client marked connected, the reader thread started, no
    request made yet. *)
Definition boot (client : sqrl_client_t) (s : socket) : system :=
  mkSystem (set_reader_running (set_connected client true) true) s false [] [].

(** The ids handed out so far, most recent first. *)
Fixpoint issued (log : list log_entry) : list string :=
  match log with
  | [] => []
  | Issued id :: rest => id :: issued rest
  | _ :: rest => issued rest
  end.

(* ------------------------------------------------------------------ *)
(** ** The entry of a call, thread by thread                           *)
(* ------------------------------------------------------------------ *)

(** [submit] takes a call from the test of [connected] to the end of
    [send_frame] with no other thread in between.  The source does not
    enforce that: the test and the increment in [next_request_id] are
    outside every lock, and linking the node and sending the frame are
    two critical sections.  Here every thread makes these steps one by
    one, and the threads take their steps in any order. *)

(** Second half of [send_request_begin], the node being linked. *)
Definition send_request_send (client : sqrl_client_t) (s : socket)
  (json : string) (addr : nat)
  : option request_result * sqrl_client_t * socket :=
  match send_frame s json with
  | (SQRL_OK, s') => (None, client, s')
  | (err, s') => (Some (err, None), pending_remove client addr, s')
  end.

(** Where a thread stands between its call of a request operation and
    the end of [send_frame]. *)
Inductive entry_pc : Type :=
| Checked (build : string -> string)            (* found [connected] set *)
| Loaded (build : string -> string) (seen : Z)  (* has read [request_id] *)
| Named (id json : string)                      (* has its id and its request text *)
| Linked (addr : nat) (id json : string).       (* its node is in the list *)

(** The shared state, and where each thread stands that is on its way
    into [send_request]; a thread whose frame is out is the caller of
    its node. *)
Record fine_system : Type := mkFine {
  fine_sys : system;
  fine_threads : nat -> option entry_pc
}.

Inductive fine_event : Type :=
| FeCall (t : nat) (build : string -> string)  (* [!client->connected] *)
| FeLoad (t : nat)                             (* read of [client->request_id] *)
| FeStore (t : nat)                            (* its write, and [snprintf] *)
| FeLink (t : nat) (addr : nat)                (* [calloc], node put in the list *)
| FeSend (t : nat)                             (* [send_frame] and what follows a failure *)
| FeTest (addr : nat)                          (* as [EvTest] *)
| FeWake (addr : nat) (ret : wait_ret)         (* as [EvWake] *)
| FeReader.                                    (* as [EvReader] *)

Definition at_thread (threads : nat -> option entry_pc) (t : nat)
  (pc : option entry_pc) : nat -> option entry_pc :=
  fun t' => if Nat.eqb t' t then pc else threads t'.

Definition with_sys (f : fine_system) (sys : option system) : option fine_system :=
  match sys with
  | Some sys' => Some (mkFine sys' (fine_threads f))
  | None => None
  end.

(** One step of one thread; [None] when the thread is not at that
    point.  A thread that finds the client not connected returns
    [SQRL_ERR_CLOSED] at once.  The id a thread is given is the counter
    it has read plus one, whatever the counter holds by then.  A thread
    whose frame is out waits as the caller of its node; the steps of
    callers and of the reader thread are those of [step]. *)
Definition fine_step (f : fine_system) (ev : fine_event) : option fine_system :=
  let sys := fine_sys f in
  let client := sys_client sys in
  match ev with
  | FeCall t build =>
      match fine_threads f t with
      | Some _ => None
      | None =>
          if negb (connected client) then
            Some (mkFine (mkSystem client (sys_socket sys) (sys_reader_done sys)
                            (sys_callers sys) (Refused :: sys_log sys))
                    (fine_threads f))
          else Some (mkFine sys (at_thread (fine_threads f) t (Some (Checked build))))
      end
  | FeLoad t =>
      match fine_threads f t with
      | Some (Checked build) =>
          Some (mkFine sys
                  (at_thread (fine_threads f) t
                     (Some (Loaded build (request_id_read client)))))
      | _ => None
      end
  | FeStore t =>
      match fine_threads f t with
      | Some (Loaded build seen) =>
          match request_id_write client seen with
          | (id, client1) =>
              Some (mkFine (mkSystem client1 (sys_socket sys) (sys_reader_done sys)
                              (sys_callers sys) (Issued id :: sys_log sys))
                      (at_thread (fine_threads f) t (Some (Named id (build id)))))
          end
      | _ => None
      end
  | FeLink t addr =>
      match fine_threads f t with
      | Some (Named id json) =>
          if addr_in_use client addr then None
          else
            Some (mkFine (mkSystem (pending_add client addr id) (sys_socket sys)
                            (sys_reader_done sys) (sys_callers sys) (sys_log sys))
                    (at_thread (fine_threads f) t (Some (Linked addr id json))))
      | _ => None
      end
  | FeSend t =>
      match fine_threads f t with
      | Some (Linked addr id json) =>
          match send_request_send client (sys_socket sys) json addr with
          | (Some res, client2, s2) =>
              Some (mkFine (mkSystem client2 s2 (sys_reader_done sys) (sys_callers sys)
                              (Returned id res :: sys_log sys))
                      (at_thread (fine_threads f) t None))
          | (None, client2, s2) =>
              Some (mkFine (mkSystem client2 s2 (sys_reader_done sys)
                              (mkCaller addr id AtLoopTest :: sys_callers sys)
                              (sys_log sys))
                      (at_thread (fine_threads f) t None))
          end
      | _ => None
      end
  | FeTest addr => with_sys f (step sys (EvTest addr))
  | FeWake addr ret => with_sys f (step sys (EvWake addr ret))
  | FeReader => with_sys f (step sys EvReader)
  end.

Fixpoint fine_run (f : fine_system) (trace : list fine_event) : option fine_system :=
  match trace with
  | [] => Some f
  | ev :: rest =>
      match fine_step f ev with
      | Some f' => fine_run f' rest
      | None => None
      end
  end.

(** The system of [boot], no thread being in a call. *)
Definition fine_boot (client : sqrl_client_t) (s : socket) : fine_system :=
  mkFine (boot client s) (fun _ => None).

(** The steps by which thread [t] gets through [submit] when no other
    thread takes a step in between. *)
Definition entry_steps (t addr : nat) (build : string -> string)
  : list fine_event :=
  [FeCall t build; FeLoad t; FeStore t; FeLink t addr; FeSend t].

(** A trace in which every read of the counter is followed at once by
    the write of the same thread: the increment is made in one piece,
    as it would be under a lock. *)
Fixpoint increments_whole (trace : list fine_event) : bool :=
  match trace with
  | [] => true
  | FeLoad t :: rest =>
      match rest with
      | FeStore t' :: rest' => Nat.eqb t t' && increments_whole rest'
      | _ => false
      end
  | FeStore _ :: _ => false
  | _ :: rest => increments_whole rest
  end.

(* ------------------------------------------------------------------ *)
(** ** Notions used to state the properties                            *)
(* ------------------------------------------------------------------ *)

(** The value of four bytes read as a big-endian number, written with
    sums and powers rather than with shifts. *)
Definition be32_value (b0 b1 b2 b3 : byte) : Z :=
  Zbyte b0 * 2 ^ 24 + Zbyte b1 * 2 ^ 16 + Zbyte b2 * 2 ^ 8 + Zbyte b3.

(** The bytes a read script still delivers, chunk after chunk. *)
Fixpoint net_bytes (net : list net_event) : list byte :=
  match net with
  | [] => []
  | Data bs :: net' => bs ++ net_bytes net'
  | _ :: net' => net_bytes net'
  end.

(** A text of [n] copies of one character. *)
Fixpoint string_repeat (a : ascii) (n : nat) : string :=
  match n with
  | O => EmptyString
  | S n' => String a (string_repeat a n')
  end.

(** The six header bytes of a frame. *)
Definition frame_header (length msg_type enc : Z) : list byte :=
  write_u32_be length ++ [byte_of_Z msg_type; byte_of_Z enc].

(** A socket on which [bs] has arrived and nothing else happens. *)
Definition sock_of_bytes (bs : list byte) : socket := mkSocket [Data bs] [] [].

(** A response header that declares one byte more than 16 MiB. *)
Definition over_limit_header : list byte :=
  frame_header (SQRL_MAX_MESSAGE_SIZE + 1) MSG_TYPE_RESPONSE 2.

(** A request text of 2^32 - 2 characters. *)
Definition huge_json : string := string_repeat "a" (Z.to_nat 4294967294).

(** The session id as the specification words it: each byte as two
    lowercase hexadecimal digits, in dash-separated groups of 8, 4, 4, 4
    and 12 digits. *)
Definition lower_hex_digit (n : Z) : ascii :=
  if n <? 10 then ascii_of_N (Z.to_N (48 + n))
  else ascii_of_N (Z.to_N (97 + (n - 10))).

Definition hex_pair (b : byte) : string :=
  String (lower_hex_digit (Zbyte b / 16))
    (String (lower_hex_digit (Zbyte b mod 16)) EmptyString).

Fixpoint lower_hex (bs : list byte) : string :=
  match bs with
  | [] => EmptyString
  | b :: t => hex_pair b +++ lower_hex t
  end.

Definition hex_groups_8_4_4_4_12 (bytes : list byte) : string :=
  lower_hex (firstn 4 bytes) +++ "-" +++
  lower_hex (firstn 2 (skipn 4 bytes)) +++ "-" +++
  lower_hex (firstn 2 (skipn 6 bytes)) +++ "-" +++
  lower_hex (firstn 2 (skipn 8 bytes)) +++ "-" +++
  lower_hex (firstn 6 (skipn 10 bytes)).

(** A 19-byte handshake response. *)
Definition handshake_response (status version flags : Z) (sid : list byte)
  : list byte :=
  [byte_of_Z status; byte_of_Z version; byte_of_Z flags] ++ sid.

Definition sample_sid : list byte :=
  map byte_of_Z [0; 1; 2; 255; 16; 171; 205; 239; 1; 35; 69; 103; 137; 171; 205; 239].

(** A connected client with the subscription of request "1" in place
    and request "2" waiting for its response. *)
Definition sample_client : sqrl_client_t :=
  mkClient 3 (Some "000102ff-10ab-cdef-0123-456789abcdef")
    (Some SQRL_ENCODING_JSON) true 2 30000 true
    [mkPending 100 "2" None SQRL_OK false]
    [mkSubEntry "1" 7 0].

(** The frame that carries a JSON text. *)
Definition frame_bytes (msg_type : Z) (json : string) : list byte :=
  frame_header (strlen json + 2) msg_type 2 ++ list_byte_of_string (c_str json).

(** The number a text of decimal digits denotes, read from the left
    with [acc] as the value so far. *)
Fixpoint dec_value (s : string) (acc : Z) : Z :=
  match s with
  | EmptyString => acc
  | String a t => dec_value t (acc * 10 + (Z.of_N (N_of_ascii a) - 48))
  end.

(** The [k]-th id a connection hands out, and the first [n] of them,
    most recent first. *)
Definition id_of (k : nat) : string := fmt_llu (Z.of_nat k).

Fixpoint ids_upto (n : nat) : list string :=
  match n with
  | O => []
  | S k => id_of (S k) :: ids_upto k
  end.

(** What holds of the system after any number of steps. *)
Record sys_inv (sys : system) : Prop := mkSysInv {
  inv_counter :
    request_id (sys_client sys)
    = u64 (Z.of_nat (List.length (issued (sys_log sys))));
  inv_issued :
    issued (sys_log sys) = ids_upto (List.length (issued (sys_log sys)));
  inv_callers :
    forall k, In k (sys_callers sys) ->
      exists r, node_at (pending_requests (sys_client sys)) (caller_req k) = Some r
                /\ req_id r = caller_id k;
  inv_callers_nodup : NoDup (map caller_req (sys_callers sys));
  inv_pending_issued :
    forall r, In r (pending_requests (sys_client sys)) ->
      In (req_id r) (issued (sys_log sys));
  inv_responses :
    forall r json, In r (pending_requests (sys_client sys)) ->
      req_response r = Some json -> json_get_string json "id" = Some (req_id r);
  inv_returned :
    forall id json, In (Returned id (SQRL_OK, Some json)) (sys_log sys) ->
      In id (issued (sys_log sys)) /\ json_get_string json "id" = Some id;
  inv_pending_nodup :
    Z.of_nat (List.length (issued (sys_log sys))) < 2 ^ 64 ->
    NoDup (map req_id (pending_requests (sys_client sys)))
}.

(** A connection the peer closes without sending anything. *)
Definition closing_socket : socket := mkSocket [Eof] [] [].

(** A server that answers one ping. *)
Definition pong_socket : socket :=
  sock_of_bytes (frame_bytes MSG_TYPE_RESPONSE (js "{'type':'pong','id':'1'}")).

(** One request that is sent and times out, and [n] of them in a row. *)
Definition timeout_round : list event :=
  [EvSubmit 0 ping_json; EvTest 0; EvWake 0 WaitTimedOut].

Fixpoint rounds (n : nat) : list event :=
  match n with
  | O => []
  | S k => timeout_round ++ rounds k
  end.

(** 2^64 requests that time out, then one more. *)
Definition wrap_trace : list event :=
  rounds (Z.to_nat 18446744073709551616) ++ [EvSubmit 0 ping_json].

(** A system in which no request is outstanding, the client is
    connected and the kernel accepts whatever is sent. *)
Definition idle (sys : system) : Prop :=
  connected (sys_client sys) = true /\
  pending_requests (sys_client sys) = [] /\
  sys_callers sys = [] /\
  net_out (sys_socket sys) = [].

(** A program that asks two things between [sqrl_init] and
    [sqrl_cleanup], on a process that has no connection. *)
Definition small_program : list api_call :=
  [CallInit; CallIsConnected; CallCleanup; CallErrorString 7].

Definition no_connection : process := mkProcess false None (mkSocket [] [] []).

(* ------------------------------------------------------------------ *)
(** ** Notions used for the further properties                         *)
(* ------------------------------------------------------------------ *)

(** A read script without the events a read without timeout does not
    see: interrupting signals and idle periods. *)
Fixpoint without_pauses (net : list net_event) : list net_event :=
  match net with
  | [] => []
  | Intr :: net' => without_pauses net'
  | Quiet :: net' => without_pauses net'
  | ev :: net' => ev :: without_pauses net'
  end.

(** A script on which the connection neither closes nor fails. *)
Fixpoint healthy (net : list net_event) : bool :=
  match net with
  | [] => true
  | Eof :: _ => false
  | Fail :: _ => false
  | _ :: net' => healthy net'
  end.

(** [p] is an initial part of [l]. *)
Definition prefix_of (p l : list byte) : Prop := exists rest, l = p ++ rest.

(** The token [do_handshake] sends: the caller's, or the empty text. *)
Definition handshake_token (opts : option sqrl_options_t) : string :=
  match opts with
  | Some o => match auth_token o with Some t => c_str t | None => "" end
  | None => ""
  end.

(** The same socket with another read script. *)
Definition with_net_in (s : socket) (net : list net_event) : socket :=
  mkSocket net (net_out s) (wire s).

(** Whether the character [c] occurs in [s]. *)
Fixpoint occurs (c : ascii) (s : string) : bool :=
  match s with
  | EmptyString => false
  | String a t => (Ascii.eqb a c || occurs c t)%bool
  end.

(** A text of spaces and tabs only. *)
Fixpoint blank_only (s : string) : bool :=
  match s with
  | EmptyString => true
  | String a t => ((Ascii.eqb a " " || Ascii.eqb a "009") && blank_only t)%bool
  end.

(** How often the character [c] occurs in [s]. *)
Fixpoint count_char (c : ascii) (s : string) : nat :=
  match s with
  | EmptyString => 0
  | String a t => ((if Ascii.eqb a c then 1 else 0) + count_char c t)%nat
  end.

(** A text of spaces, tabs and newlines only. *)
Fixpoint blank_nl_only (s : string) : bool :=
  match s with
  | EmptyString => true
  | String a t =>
      ((Ascii.eqb a " " || Ascii.eqb a "009" || Ascii.eqb a "010")
       && blank_nl_only t)%bool
  end.

(** What may happen to a pending request while the reader thread runs:
    nothing, or its completion. *)
Definition kept_or_completed (r r' : pending_request_t) : Prop :=
  req_addr r' = req_addr r /\ req_id r' = req_id r /\
  req_error r' = req_error r /\ (r' = r \/ req_completed r' = true).

(** What may differ between the client before and after a run of the
    reader thread: requests completed, and [connected] cleared. *)
Definition reader_effect (c c' : sqrl_client_t) : Prop :=
  fd c' = fd c /\ session_id c' = session_id c /\ encoding c' = encoding c /\
  request_id c' = request_id c /\
  request_timeout_ms c' = request_timeout_ms c /\
  reader_running c' = reader_running c /\
  subscriptions c' = subscriptions c /\
  Forall2 kept_or_completed (pending_requests c) (pending_requests c') /\
  (connected c' = connected c \/ connected c' = false).

(** A connected client with two requests waiting. *)
Definition two_pending : sqrl_client_t :=
  mkClient 3 None (Some SQRL_ENCODING_JSON) true 2 30000 true
    [mkPending 101 "2" None SQRL_OK false; mkPending 100 "1" None SQRL_OK false]
    [].


(** A server that accepts the connection and answers the handshake with
    success. *)
Definition welcoming : connect_env :=
  mkConnectEnv true 3 true
    (sock_of_bytes (handshake_response 0 1 0 sample_sid)) true.

(** The text of a compact JSON array of strings without its brackets:
    each name between double quotes, commas in between. *)
Fixpoint entries_tail (names : list string) : string :=
  match names with
  | [] => ""
  | n :: rest => "," +++ String dquote n +++ String dquote (entries_tail rest)
  end.

Definition entries_text (names : list string) : string :=
  match names with
  | [] => ""
  | n :: rest => String dquote n +++ String dquote (entries_tail rest)
  end.

(** A text of closing braces and newlines only. *)
Fixpoint closers_only (s : string) : bool :=
  match s with
  | EmptyString => true
  | String a t => ((Ascii.eqb a "}" || Ascii.eqb a "010") && closers_only t)%bool
  end.

(** Whether [s] ends with a closing brace or a newline. *)
Fixpoint ends_with_closer (s : string) : bool :=
  match s with
  | EmptyString => false
  | String a EmptyString => (Ascii.eqb a "}" || Ascii.eqb a "010")%bool
  | String _ t => ends_with_closer t
  end.

(** A text of spaces only. *)
Fixpoint spaces_only (s : string) : bool :=
  match s with
  | EmptyString => true
  | String a t => (Ascii.eqb a " " && spaces_only t)%bool
  end.

(** A value text that begins with neither white space nor an opening
    brace, such as an array, a number or a string. *)
Definition starts_plain (v : string) : bool :=
  match v with
  | EmptyString => false
  | String a _ =>
      negb (Ascii.eqb a " " || Ascii.eqb a "009" || Ascii.eqb a "010"
            || Ascii.eqb a "{")
  end.

(** The ids of the calls that have returned so far, most recent
    first. *)
Fixpoint returned (log : list log_entry) : list string :=
  match log with
  | [] => []
  | Returned id _ :: rest => id :: returned rest
  | _ :: rest => returned rest
  end.

(** What holds of callers and outcomes as long as fewer than 2^64 ids
    have been handed out. *)
Record once_inv (sys : system) : Prop := mkOnceInv {
  once_returned_issued :
    forall id, In id (returned (sys_log sys)) -> In id (issued (sys_log sys));
  once_callers :
    Z.of_nat (List.length (issued (sys_log sys))) < 2 ^ 64 ->
    NoDup (map caller_id (sys_callers sys));
  once_returned :
    Z.of_nat (List.length (issued (sys_log sys))) < 2 ^ 64 ->
    NoDup (returned (sys_log sys));
  once_apart :
    Z.of_nat (List.length (issued (sys_log sys))) < 2 ^ 64 ->
    forall k, In k (sys_callers sys) ->
      ~ In (caller_id k) (returned (sys_log sys))
}.

(** Fewer than 2^64 ids have been handed out. *)
Definition below_wrap (sys : system) : Prop :=
  Z.of_nat (List.length (issued (sys_log sys))) < 2 ^ 64.

(** What a caller's step at the loop test or out of the timed wait, or
    a pass of the reader, does to the parts of the system the entering
    threads depend on. *)
Definition entry_frame (sys sys' : system) : Prop :=
  issued (sys_log sys') = issued (sys_log sys) /\
  (returned (sys_log sys') = returned (sys_log sys) \/
   exists k, In k (sys_callers sys) /\
             returned (sys_log sys') = caller_id k :: returned (sys_log sys)) /\
  (forall id, In id (map req_id (pending_requests (sys_client sys'))) ->
              In id (map req_id (pending_requests (sys_client sys)))) /\
  (forall a, In a (map caller_req (sys_callers sys')) ->
             In a (map caller_req (sys_callers sys))) /\
  (forall a r, node_at (pending_requests (sys_client sys)) a = Some r ->
               ~ In a (map caller_req (sys_callers sys)) ->
               exists r', node_at (pending_requests (sys_client sys')) a = Some r'
                          /\ req_id r' = req_id r).

(** What holds of the threads on their way into [send_request] as long
    as every increment of the counter is made in one piece. *)
Record entry_inv (f : fine_system) : Prop := mkEntryInv {
  ent_sys : sys_inv (fine_sys f);
  ent_once : once_inv (fine_sys f);
  ent_loaded :
    forall t build seen, fine_threads f t <> Some (Loaded build seen);
  ent_named_issued :
    forall t id json, fine_threads f t = Some (Named id json) ->
      In id (issued (sys_log (fine_sys f)));
  ent_named_fresh :
    below_wrap (fine_sys f) ->
    forall t id json, fine_threads f t = Some (Named id json) ->
      ~ In id (map req_id (pending_requests (sys_client (fine_sys f)))) /\
      ~ In id (returned (sys_log (fine_sys f)));
  ent_named_apart :
    below_wrap (fine_sys f) ->
    forall t1 t2 id json1 json2,
      fine_threads f t1 = Some (Named id json1) ->
      fine_threads f t2 = Some (Named id json2) -> t1 = t2;
  ent_linked_node :
    forall t addr id json, fine_threads f t = Some (Linked addr id json) ->
      (exists r, node_at (pending_requests (sys_client (fine_sys f))) addr = Some r
                 /\ req_id r = id) /\
      ~ In addr (map caller_req (sys_callers (fine_sys f)));
  ent_linked_apart :
    forall t1 t2 addr id1 json1 id2 json2,
      fine_threads f t1 = Some (Linked addr id1 json1) ->
      fine_threads f t2 = Some (Linked addr id2 json2) -> t1 = t2;
  ent_linked_fresh :
    below_wrap (fine_sys f) ->
    forall t addr id json, fine_threads f t = Some (Linked addr id json) ->
      ~ In id (returned (sys_log (fine_sys f)))
}.

(** Two threads call [sqrl_ping] on one connection and both read the
    counter before either writes it. *)
Definition racing_pings : list fine_event :=
  [FeCall 1 ping_json; FeCall 2 ping_json;
   FeLoad 1; FeLoad 2; FeStore 1; FeStore 2;
   FeLink 1 100; FeLink 2 200; FeSend 1; FeSend 2].

(** What is seen of a system: the counter, the ids handed out, the
    nodes of the pending list with id and [completed], the waiting
    callers with the id each passed, and the log. *)
Definition seen_of (f : fine_system)
  : Z * list string * list (nat * string * bool) * list (nat * string)
    * list log_entry :=
  let sys := fine_sys f in
  (request_id (sys_client sys), issued (sys_log sys),
   map (fun r => (req_addr r, req_id r, req_completed r))
     (pending_requests (sys_client sys)),
   map (fun k => (caller_req k, caller_id k)) (sys_callers sys),
   sys_log sys).

(** A server that answers two pings, both under the id "1". *)
Definition two_pongs_socket : socket :=
  mkSocket [Data (frame_bytes MSG_TYPE_RESPONSE (js "{'type':'pong','id':'1'}"));
            Data (frame_bytes MSG_TYPE_RESPONSE (js "{'type':'pong','id':'1'}"))]
    [] [].

(** After [racing_pings] both callers wait while both answers arrive;
    the second caller returns and the first runs into its timeout. *)
Definition racing_pings_answered : list fine_event :=
  racing_pings ++
  [FeTest 100; FeTest 200; FeReader; FeReader; FeWake 200 WaitWoken; FeTest 200;
   FeWake 100 WaitTimedOut].

(** After [racing_pings] both callers wait and the first runs into its
    timeout. *)
Definition racing_pings_timeout : list fine_event :=
  racing_pings ++ [FeTest 100; FeTest 200; FeWake 100 WaitTimedOut].

(** Two pings whose steps alternate, except at the counter; the one
    that is given the id "1" is answered, the other times out. *)
Definition staggered_pings : list fine_event :=
  [FeCall 1 ping_json; FeCall 2 ping_json; FeLoad 2; FeStore 2;
   FeLoad 1; FeStore 1; FeLink 1 100; FeLink 2 200; FeSend 2; FeSend 1;
   FeTest 100; FeTest 200; FeReader; FeWake 200 WaitWoken; FeTest 200;
   FeWake 100 WaitTimedOut].

(** A response that belongs to request "2" and whose data mentions
    another id first. *)
Definition nested_id_response : string :=
  js "{'type':'result','data':{'id':'1'},'id':'2'}".

(* ------------------------------------------------------------------ *)
(** ** Query builder                                                   *)
(* ------------------------------------------------------------------ *)

Definition MAX_FILTERS : nat := 32.
Definition MAX_SORTS : nat := 8.
Definition BUFFER_SIZE : Z := 4096.

Inductive sqrl_sort_dir_t : Type :=
| SQRL_ASC
| SQRL_DESC.

(** The character arrays of the entries as the texts they hold. *)
Record filter_entry_t : Type := mkFilter {
  filter_field : string;   (* char field[128] *)
  filter_op : string;      (* char op[16] *)
  filter_value : string    (* char value[512] *)
}.

Record sort_entry_t : Type := mkSort {
  sort_field : string;     (* char field[128] *)
  sort_direction : sqrl_sort_dir_t
}.

(** [struct sqrl_query]; the arrays with their counts are the lists of
    the entries in use. *)
Record sqrl_query_t : Type := mkQuery {
  table_name : string;     (* char table_name[256] *)
  filters : list filter_entry_t;
  sorts : list sort_entry_t;
  limit_value : Z;
  skip_value : Z;
  has_limit : bool;
  has_skip : bool;
  is_changes : bool
}.

Definition backslash : ascii := "092"%char.

(** The loop of [escape_json_string(str, buf, buf_size)] from the state
    in which [j] characters have been written; the result is what it
    writes from there on.  [buf_size] is at least 2 at every call in
    the source (it is 512). *)
Fixpoint escape_from (str : string) (j buf_size : nat) : string :=
  match str with
  | EmptyString => EmptyString
  | String a t =>
      if (j <? buf_size - 2)%nat then
        if (Ascii.eqb a dquote || Ascii.eqb a backslash)%bool
        then String backslash (String a (escape_from t (j + 2) buf_size))
        else String a (escape_from t (j + 1) buf_size)
      else EmptyString
  end.

Definition escape_json_string (str : string) (buf_size : nat) : string :=
  escape_from (c_str str) 0 buf_size.

(** [strncpy(dst, src, size - 1)] into a zeroed array of [size]
    characters. *)
Definition strncpy_into (size : nat) (src : string) : string :=
  string_take (size - 1) (c_str src).

(** [sqrl_table]; [None] is NULL. *)
Definition sqrl_table (name : option string) : option sqrl_query_t :=
  match name with
  | None => None
  | Some name =>
      Some (mkQuery (strncpy_into 256 name) [] [] 0 0 false false false)
  end.

Definition add_filter (query : option sqrl_query_t) (field op value : string)
  : option sqrl_query_t :=
  match query with
  | None => None
  | Some q =>
      if (MAX_FILTERS <=? List.length (filters q))%nat then query
      else
        Some (mkQuery (table_name q)
                (filters q ++ [mkFilter (strncpy_into 128 field)
                                 (strncpy_into 16 op) (strncpy_into 512 value)])
                (sorts q) (limit_value q) (skip_value q) (has_limit q)
                (has_skip q) (is_changes q))
  end.

(** The value text the string filters build: the escaped value between
    double quotes, formatted into [char buf[520]]. *)
Definition quoted_value (value : string) : string :=
  snprintf 520 (String dquote (escape_json_string value 512 +++ String dquote "")).

Definition sqrl_find_eq_str (query : option sqrl_query_t) (field value : string)
  : option sqrl_query_t :=
  add_filter query field "$eq" (quoted_value value).

Definition sqrl_find_ne_str (query : option sqrl_query_t) (field value : string)
  : option sqrl_query_t :=
  add_filter query field "$ne" (quoted_value value).

Definition sqrl_find_contains (query : option sqrl_query_t) (field value : string)
  : option sqrl_query_t :=
  add_filter query field "$contains" (quoted_value value).

Definition sqrl_find_starts_with (query : option sqrl_query_t)
  (field value : string) : option sqrl_query_t :=
  add_filter query field "$startsWith" (quoted_value value).

Definition sqrl_find_ends_with (query : option sqrl_query_t)
  (field value : string) : option sqrl_query_t :=
  add_filter query field "$endsWith" (quoted_value value).

Definition bool_text (b : bool) : string := if b then "true" else "false".

Definition sqrl_find_eq_bool (query : option sqrl_query_t) (field : string)
  (value : bool) : option sqrl_query_t :=
  add_filter query field "$eq" (bool_text value).

Definition sqrl_find_exists (query : option sqrl_query_t) (field : string)
  (exists_ : bool) : option sqrl_query_t :=
  add_filter query field "$exists" (bool_text exists_).

(** A [long] of 64 bits and the conversion [%ld]. *)
Definition s64 (v : Z) : Z := (v + 2 ^ 63) mod 2 ^ 64 - 2 ^ 63.

Definition fmt_ld (v : Z) : string :=
  let v := s64 v in
  if v <? 0 then String "-" (dec_digits 20 (- v) "") else dec_digits 20 v "".

Definition sqrl_find_eq_int (query : option sqrl_query_t) (field : string)
  (value : Z) : option sqrl_query_t :=
  add_filter query field "$eq" (snprintf 64 (fmt_ld value)).

Definition sqrl_find_ne_int (query : option sqrl_query_t) (field : string)
  (value : Z) : option sqrl_query_t :=
  add_filter query field "$ne" (snprintf 64 (fmt_ld value)).

(** The filters on a [double] format it with [%g] into [char buf[64]];
    [rendered] stands for the text that conversion gives. *)
Definition sqrl_find_eq_double (query : option sqrl_query_t) (field : string)
  (rendered : string) : option sqrl_query_t :=
  add_filter query field "$eq" (snprintf 64 rendered).

Definition sqrl_find_gt (query : option sqrl_query_t) (field : string)
  (rendered : string) : option sqrl_query_t :=
  add_filter query field "$gt" (snprintf 64 rendered).

Definition sqrl_find_gte (query : option sqrl_query_t) (field : string)
  (rendered : string) : option sqrl_query_t :=
  add_filter query field "$gte" (snprintf 64 rendered).

Definition sqrl_find_lt (query : option sqrl_query_t) (field : string)
  (rendered : string) : option sqrl_query_t :=
  add_filter query field "$lt" (snprintf 64 rendered).

Definition sqrl_find_lte (query : option sqrl_query_t) (field : string)
  (rendered : string) : option sqrl_query_t :=
  add_filter query field "$lte" (snprintf 64 rendered).

Definition sqrl_sort (query : option sqrl_query_t) (field : string)
  (direction : sqrl_sort_dir_t) : option sqrl_query_t :=
  match query with
  | None => None
  | Some q =>
      if (MAX_SORTS <=? List.length (sorts q))%nat then query
      else
        Some (mkQuery (table_name q) (filters q)
                (sorts q ++ [mkSort (strncpy_into 128 field) direction])
                (limit_value q) (skip_value q) (has_limit q) (has_skip q)
                (is_changes q))
  end.

Definition sqrl_limit (query : option sqrl_query_t) (n : Z)
  : option sqrl_query_t :=
  match query with
  | None => None
  | Some q =>
      Some (mkQuery (table_name q) (filters q) (sorts q) (u64 n) (skip_value q)
              true (has_skip q) (is_changes q))
  end.

Definition sqrl_skip (query : option sqrl_query_t) (n : Z)
  : option sqrl_query_t :=
  match query with
  | None => None
  | Some q =>
      Some (mkQuery (table_name q) (filters q) (sorts q) (limit_value q) (u64 n)
              (has_limit q) true (is_changes q))
  end.

Definition sqrl_changes (query : option sqrl_query_t) : option sqrl_query_t :=
  match query with
  | None => None
  | Some q =>
      Some (mkQuery (table_name q) (filters q) (sorts q) (limit_value q)
              (skip_value q) (has_limit q) (has_skip q) true)
  end.

(** *** Compiling a query *)

(** The text one filter is formatted to. *)
Definition filter_js (f : filter_entry_t) : string :=
  let field := filter_field f in
  let value := filter_value f in
  if streq (filter_op f) "$eq" then "doc." +++ field +++ " === " +++ value
  else if streq (filter_op f) "$ne" then "doc." +++ field +++ " !== " +++ value
  else if streq (filter_op f) "$gt" then "doc." +++ field +++ " > " +++ value
  else if streq (filter_op f) "$gte" then "doc." +++ field +++ " >= " +++ value
  else if streq (filter_op f) "$lt" then "doc." +++ field +++ " < " +++ value
  else if streq (filter_op f) "$lte" then "doc." +++ field +++ " <= " +++ value
  else if streq (filter_op f) "$contains"
  then "doc." +++ field +++ ".includes(" +++ value +++ ")"
  else if streq (filter_op f) "$startsWith"
  then "doc." +++ field +++ ".startsWith(" +++ value +++ ")"
  else if streq (filter_op f) "$endsWith"
  then "doc." +++ field +++ ".endsWith(" +++ value +++ ")"
  else if streq (filter_op f) "$exists" then
    if streq value "true" then "doc." +++ field +++ " !== undefined"
    else "doc." +++ field +++ " === undefined"
  else "true".

(** The texts of the [snprintf] calls of the filter loop, one per call:
    the separator before every filter but the first, then the filter. *)
Fixpoint filter_pieces (first : bool) (l : list filter_entry_t) : list string :=
  match l with
  | [] => []
  | f :: rest =>
      (if first then [] else [" && "]) ++ filter_js f :: filter_pieces false rest
  end.

Definition sort_js (s : sort_entry_t) : string :=
  match sort_direction s with
  | SQRL_DESC => js ".orderBy('" +++ sort_field s +++ js "', 'desc')"
  | SQRL_ASC => js ".orderBy('" +++ sort_field s +++ js "')"
  end.

(** The texts of all [snprintf] calls of [sqrl_query_compile] that are
    followed by an advance of [p], in the order of the calls. *)
Definition compile_pieces (q : sqrl_query_t) : list string :=
  [js "db.table('" +++ table_name q +++ js "')"]
    ++ (match filters q with
        | [] => []
        | _ :: _ => [".filter(doc => "] ++ filter_pieces true (filters q) ++ [")"]
        end)
    ++ map sort_js (sorts q)
    ++ (if has_limit q then [".limit(" +++ fmt_llu (limit_value q) +++ ")"] else [])
    ++ (if has_skip q then [".skip(" +++ fmt_llu (skip_value q) +++ ")"] else []).

(** The text of the last call, after which [p] is not advanced. *)
Definition compile_last (q : sqrl_query_t) : string :=
  if is_changes q then ".changes()" else ".run()".

(** Where [sqrl_query_compile] stands between two calls: the text the
    buffer holds, the offset of [p] in it and [remaining]. *)
Record cursor : Type := mkCursor {
  cur_text : string;
  cur_p : Z;
  cur_remaining : Z
}.

(** What [snprintf(p, remaining, piece)] leaves in the buffer: nothing
    new when [remaining] is 0, else the text before [p] followed by the
    first [remaining - 1] characters of the piece. *)
Definition written (st : cursor) (piece : string) : string :=
  if cur_remaining st =? 0 then cur_text st
  else string_take (Z.to_nat (cur_p st)) (cur_text st)
         +++ string_take (Z.to_nat (cur_remaining st - 1)) piece.

(** One call followed by the advance of [p] by the length of the piece
    and the decrease of [remaining].  [None]: [p] has left the buffer,
    so that this or the next call writes outside it. *)
Definition emit (st : option cursor) (piece : string) : option cursor :=
  match st with
  | None => None
  | Some st =>
      let n := Z.of_nat (String.length piece) in
      if BUFFER_SIZE <? cur_p st + n then None
      else Some (mkCursor (written st piece) (cur_p st + n)
                   (u64 (cur_remaining st - n)))
  end.

(** [sqrl_query_compile]: the text returned, or [None] when the call
    has written outside its buffer of [BUFFER_SIZE] bytes. *)
Definition sqrl_query_compile (q : sqrl_query_t) : option string :=
  match fold_left emit (compile_pieces q) (Some (mkCursor "" 0 BUFFER_SIZE)) with
  | None => None
  | Some st => Some (written st (compile_last q))
  end.

(** *** Notions used to state the properties of the query builder *)

(** The text an escaped text stands for: a backslash gives way to the
    character behind it. *)
Fixpoint unescape (s : string) : string :=
  match s with
  | EmptyString => EmptyString
  | String a t =>
      if Ascii.eqb a backslash then
        match t with
        | String b t' => String b (unescape t')
        | EmptyString => EmptyString
        end
      else String a (unescape t)
  end.

(** A text in which every double quote stands behind a backslash and
    every backslash is followed by the double quote or backslash it
    escapes. *)
Fixpoint escaped_ok (s : string) : bool :=
  match s with
  | EmptyString => true
  | String a t =>
      if Ascii.eqb a backslash then
        match t with
        | String b t' =>
            ((Ascii.eqb b dquote || Ascii.eqb b backslash) && escaped_ok t')%bool
        | EmptyString => false
        end
      else (negb (Ascii.eqb a dquote) && escaped_ok t)%bool
  end.

(** An entry whose texts fit their arrays, the terminating NUL
    included. *)
Definition filter_fits (f : filter_entry_t) : Prop :=
  (String.length (filter_field f) <= 127)%nat /\
  (String.length (filter_op f) <= 15)%nat /\
  (String.length (filter_value f) <= 511)%nat.

Definition sort_fits (s : sort_entry_t) : Prop :=
  (String.length (sort_field s) <= 127)%nat.

(** A query whose texts fit their arrays and whose counts do not exceed
    the arrays of entries. *)
Record query_fits (q : sqrl_query_t) : Prop := mkQueryFits {
  fits_table : (String.length (table_name q) <= 255)%nat;
  fits_filter_count : (List.length (filters q) <= MAX_FILTERS)%nat;
  fits_sort_count : (List.length (sorts q) <= MAX_SORTS)%nat;
  fits_filters : Forall filter_fits (filters q);
  fits_sorts : Forall sort_fits (sorts q);
  fits_limit : 0 <= limit_value q < 2 ^ 64;
  fits_skip : 0 <= skip_value q < 2 ^ 64
}.

(** The calls of the builder API on a query handle. *)
Inductive builder_call : Type :=
| FindEqStr (field value : string)
| FindNeStr (field value : string)
| FindContains (field value : string)
| FindStartsWith (field value : string)
| FindEndsWith (field value : string)
| FindEqBool (field : string) (value : bool)
| FindExists (field : string) (value : bool)
| FindEqInt (field : string) (value : Z)
| FindNeInt (field : string) (value : Z)
| FindEqDouble (field rendered : string)
| FindGt (field rendered : string)
| FindGte (field rendered : string)
| FindLt (field rendered : string)
| FindLte (field rendered : string)
| Sort (field : string) (direction : sqrl_sort_dir_t)
| Limit (n : Z)
| Skip (n : Z)
| Changes.

Definition builder_step (query : option sqrl_query_t) (call : builder_call)
  : option sqrl_query_t :=
  match call with
  | FindEqStr field value => sqrl_find_eq_str query field value
  | FindNeStr field value => sqrl_find_ne_str query field value
  | FindContains field value => sqrl_find_contains query field value
  | FindStartsWith field value => sqrl_find_starts_with query field value
  | FindEndsWith field value => sqrl_find_ends_with query field value
  | FindEqBool field value => sqrl_find_eq_bool query field value
  | FindExists field value => sqrl_find_exists query field value
  | FindEqInt field value => sqrl_find_eq_int query field value
  | FindNeInt field value => sqrl_find_ne_int query field value
  | FindEqDouble field rendered => sqrl_find_eq_double query field rendered
  | FindGt field rendered => sqrl_find_gt query field rendered
  | FindGte field rendered => sqrl_find_gte query field rendered
  | FindLt field rendered => sqrl_find_lt query field rendered
  | FindLte field rendered => sqrl_find_lte query field rendered
  | Sort field direction => sqrl_sort query field direction
  | Limit n => sqrl_limit query n
  | Skip n => sqrl_skip query n
  | Changes => sqrl_changes query
  end.

(** A query as a program builds it: [sqrl_table] followed by calls on
    the handle. *)
Definition build (name : option string) (calls : list builder_call)
  : option sqrl_query_t :=
  fold_left builder_step calls (sqrl_table name).

(** The query with one more filter. *)
Definition with_filter (q : sqrl_query_t) (f : filter_entry_t) : sqrl_query_t :=
  mkQuery (table_name q) (filters q ++ [f]) (sorts q) (limit_value q)
    (skip_value q) (has_limit q) (has_skip q) (is_changes q).

(** The number of characters of the pieces together, and their text in
    a row. *)
Fixpoint total_length (pieces : list string) : Z :=
  match pieces with
  | [] => 0
  | p :: rest => Z.of_nat (String.length p) + total_length rest
  end.

Fixpoint concat_all (pieces : list string) : string :=
  match pieces with
  | [] => ""
  | p :: rest => p +++ concat_all rest
  end.

(** Eleven calls that each add a filter with a long field and a long
    value. *)
Definition eleven_filters : list builder_call :=
  repeat (FindStartsWith (string_repeat "a" 127) (string_repeat "b" 254)) 11.

(* ================================================================== *)
(** * Properties                                                       *)
(* ================================================================== *)

(** ** Sample evaluations *)

Example json_get_string_id :
  json_get_string (js "{'type':'pong','id':'7'}") "id" = Some "7".
Proof. reflexivity. Qed.

Example json_get_string_spaced :
  json_get_string (js "{'id': 'a1', 'n':1}") "id" = Some "a1".
Proof. reflexivity. Qed.

Example json_get_string_number :
  json_get_string (js "{'id':17,'type':'pong'}") "id" = None.
Proof. reflexivity. Qed.

Example json_get_object_change :
  json_get_object (js "{'id':'3','change':{'type':'insert','new':{}}}") "change"
  = Some (js "{'type':'insert','new':{}}").
Proof. reflexivity. Qed.

(** ** Bytes and big-endian words *)

Lemma Zbyte_range (b : byte) : 0 <= Zbyte b < 256.
Proof.
  unfold Zbyte. pose proof (Byte.to_N_bounded b) as H.
  split; [apply N2Z.is_nonneg|].
  apply N2Z.inj_le in H. simpl in H. lia.
Qed.

Lemma u8_range (z : Z) : 0 <= u8 z < 256.
Proof.
  unfold u8. change 255 with (Z.ones 8).
  rewrite Z.land_ones by lia. apply Z.mod_pos_bound. lia.
Qed.

Lemma Zbyte_byte_of_Z (z : Z) : Zbyte (byte_of_Z z) = u8 z.
Proof.
  unfold byte_of_Z, Zbyte. pose proof (u8_range z) as Hr.
  destruct (Byte.of_N (Z.to_N (u8 z))) as [b|] eqn:E.
  - apply Byte.to_of_N in E. rewrite E. apply Z2N.id. lia.
  - apply Byte.of_N_None_iff in E.
    apply N2Z.inj_lt in E. rewrite Z2N.id in E by lia. simpl in E. lia.
Qed.

Lemma u8_small (z : Z) : 0 <= z < 256 -> u8 z = z.
Proof.
  intros H. unfold u8. change 255 with (Z.ones 8).
  rewrite Z.land_ones by lia. apply Z.mod_small. lia.
Qed.

Lemma byte_of_Z_Zbyte (b : byte) : byte_of_Z (Zbyte b) = b.
Proof.
  unfold byte_of_Z. rewrite u8_small by apply Zbyte_range.
  unfold Zbyte. rewrite N2Z.id, Byte.of_to_N. reflexivity.
Qed.

Lemma testbit_255 (m : Z) : 0 <= m -> Z.testbit 255 m = (m <? 8).
Proof.
  intros H. change 255 with (Z.ones 8).
  apply Z.testbit_ones_nonneg; lia.
Qed.

Lemma testbit_above (v n k : Z) :
  0 <= v < 2 ^ k -> 0 <= k <= n -> Z.testbit v n = false.
Proof.
  intros Hv Hk.
  destruct (Z.eq_dec v 0) as [->|Hz]; [apply Z.bits_0|].
  apply Z.bits_above_log2; [lia|].
  assert (Z.log2 v < k) by (apply Z.log2_lt_pow2; lia). lia.
Qed.

Lemma lor_shiftl_byte (hi lo k : Z) :
  0 <= hi -> 0 <= lo < 2 ^ k -> 0 <= k ->
  Z.lor (Z.shiftl hi k) lo = hi * 2 ^ k + lo.
Proof.
  intros Hhi Hlo Hk.
  rewrite Z.shiftl_mul_pow2 by lia.
  rewrite <- Z.lxor_lor, <- Z.add_nocarry_lxor; try reflexivity.
  all: apply Z.bits_inj'; intros n Hn; rewrite Z.land_spec, Z.bits_0;
    destruct (Z.lt_ge_cases n k) as [L|G];
    [ rewrite Z.mul_pow2_bits_low by lia; reflexivity
    | rewrite (testbit_above lo n k) by lia; apply andb_false_r ].
Qed.

Lemma read_u32_be_value (buf : list byte) :
  read_u32_be buf =
  be32_value (nth 0 buf "000"%byte) (nth 1 buf "000"%byte)
             (nth 2 buf "000"%byte) (nth 3 buf "000"%byte).
Proof.
  unfold read_u32_be, be32_value.
  set (b0 := nth 0 buf "000"%byte). set (b1 := nth 1 buf "000"%byte).
  set (b2 := nth 2 buf "000"%byte). set (b3 := nth 3 buf "000"%byte).
  pose proof (Zbyte_range b0). pose proof (Zbyte_range b1).
  pose proof (Zbyte_range b2). pose proof (Zbyte_range b3).
  replace (Z.shiftl (Zbyte b0) 24)
    with (Z.shiftl (Z.shiftl (Z.shiftl (Zbyte b0) 8) 8) 8)
    by (rewrite !Z.shiftl_shiftl by lia; reflexivity).
  replace (Z.shiftl (Zbyte b1) 16) with (Z.shiftl (Z.shiftl (Zbyte b1) 8) 8)
    by (rewrite !Z.shiftl_shiftl by lia; reflexivity).
  rewrite <- !Z.shiftl_lor.
  rewrite (lor_shiftl_byte (Zbyte b0) (Zbyte b1) 8) by lia.
  rewrite (lor_shiftl_byte _ (Zbyte b2) 8) by lia.
  rewrite (lor_shiftl_byte _ (Zbyte b3) 8) by lia.
  lia.
Qed.

Lemma read_u32_be_range (buf : list byte) : 0 <= read_u32_be buf < 2 ^ 32.
Proof.
  rewrite read_u32_be_value. unfold be32_value.
  pose proof (Zbyte_range (nth 0 buf "000"%byte)).
  pose proof (Zbyte_range (nth 1 buf "000"%byte)).
  pose proof (Zbyte_range (nth 2 buf "000"%byte)).
  pose proof (Zbyte_range (nth 3 buf "000"%byte)).
  change (2 ^ 24) with 16777216. change (2 ^ 16) with 65536.
  change (2 ^ 8) with 256. change (2 ^ 32) with 4294967296. lia.
Qed.

Lemma write_u32_be_bytes (v : Z) :
  0 <= v < 2 ^ 32 ->
  exists b0 b1 b2 b3,
    write_u32_be v = [b0; b1; b2; b3] /\ be32_value b0 b1 b2 b3 = v.
Proof.
  intros Hv. unfold write_u32_be. do 4 eexists. split; [reflexivity|].
  unfold be32_value. rewrite !Zbyte_byte_of_Z.
  assert (E : forall k, 0 <= k -> Z.land (Z.shiftr v k) 255 = (v / 2 ^ k) mod 256).
  { intros k Hk. change 255 with (Z.ones 8).
    rewrite Z.land_ones, Z.shiftr_div_pow2 by lia. reflexivity. }
  rewrite !E by lia.
  replace (Z.land v 255) with (v mod 256)
    by (change 255 with (Z.ones 8); rewrite Z.land_ones by lia; reflexivity).
  rewrite !u8_small by (apply Z.mod_pos_bound; lia).
  change (2 ^ 24) with 16777216. change (2 ^ 16) with 65536.
  change (2 ^ 8) with 256. change (2 ^ 32) with 4294967296 in Hv.
  pose proof (Z.div_mod v 256 ltac:(lia)).
  pose proof (Z.div_mod (v / 256) 256 ltac:(lia)).
  pose proof (Z.div_mod (v / 256 / 256) 256 ltac:(lia)).
  rewrite (Z.mod_small (v / 16777216)) by
    (split; [apply Z.div_pos; lia | apply Z.div_lt_upper_bound; lia]).
  replace (v / 65536) with (v / 256 / 256) by (rewrite Z.div_div by lia; reflexivity).
  replace (v / 16777216) with (v / 256 / 256 / 256)
    by (rewrite !Z.div_div by lia; reflexivity).
  lia.
Qed.

Lemma read_write_u32_be (v : Z) (rest : list byte) :
  0 <= v < 2 ^ 32 -> read_u32_be (write_u32_be v ++ rest) = v.
Proof.
  intros Hv. destruct (write_u32_be_bytes v Hv) as (b0 & b1 & b2 & b3 & E & V).
  rewrite E. cbn [app]. rewrite read_u32_be_value. exact V.
Qed.

(** ** [recv_all] and [send_all] *)

Lemma recv_all_ok (timeout_ms : Z) (net : list net_event) :
  forall (len : nat) (bs : list byte) (net' : list net_event),
    recv_all net len timeout_ms = (RxOk bs, net') ->
    List.length bs = len /\ net_bytes net = bs ++ net_bytes net'.
Proof.
  induction net as [|ev net IH]; intros len bs net' H.
  - destruct len; simpl in H; inversion H; subst; auto.
  - destruct len as [|n].
    { simpl in H. inversion H; subst. auto. }
    destruct ev as [chunk| | | |]; cbn [recv_all] in H.
    + destruct (List.length chunk <=? S n)%nat eqn:L.
      * apply Nat.leb_le in L.
        destruct (recv_all net (S n - List.length chunk) timeout_ms)
          as [[rest | e |] net1] eqn:R; cbn [rx_prepend] in H; inversion H; subst.
        destruct (IH _ _ _ R) as [Hl Hb].
        split.
        -- rewrite length_app, Hl. lia.
        -- cbn [net_bytes]. rewrite Hb. apply app_assoc.
      * apply Nat.leb_gt in L. injection H as Hb Hn. subst bs net'. split.
        -- exact (firstn_length_le chunk (n := S n) ltac:(lia)).
        -- cbn [net_bytes]. rewrite app_assoc.
           f_equal. symmetry. exact (firstn_skipn (S n) chunk).
    + discriminate.
    + discriminate.
    + apply IH in H. exact H.
    + destruct (0 <? timeout_ms); [discriminate|]. apply IH in H. exact H.
Qed.

Lemma sock_recv_all_ok (s s' : socket) (len : nat) (t : Z) (bs : list byte) :
  sock_recv_all s len t = (RxOk bs, s') ->
  List.length bs = len /\ net_bytes (net_in s) = bs ++ net_bytes (net_in s').
Proof.
  unfold sock_recv_all. destruct (recv_all (net_in s) len t) as [r net] eqn:R.
  intros H. inversion H; subst. cbn [net_in]. eapply recv_all_ok; eauto.
Qed.

Lemma send_all_ok (out : list tx_event) :
  forall (buf w : list byte) (out' : list tx_event),
    send_all out buf = (true, w, out') -> w = buf.
Proof.
  induction out as [|ev out IH]; intros buf w out' H.
  - destruct buf; simpl in H; inversion H; reflexivity.
  - destruct buf as [|b buf]; [simpl in H; inversion H; reflexivity|].
    destruct ev as [n| |]; cbn [send_all] in H.
    + destruct (send_all out (skipn n (b :: buf))) as [[ok w1] out1] eqn:R.
      inversion H; subst. apply IH in R. subst. apply firstn_skipn.
    + apply IH in H. exact H.
    + discriminate.
Qed.

Lemma sock_send_all_ok (s s' : socket) (buf : list byte) :
  sock_send_all s buf = (true, s') -> wire s' = wire s ++ buf.
Proof.
  unfold sock_send_all.
  destruct (send_all (net_out s) buf) as [[ok w] out] eqn:R.
  intros H. inversion H; subst. cbn [wire].
  apply send_all_ok in R. subst. reflexivity.
Qed.

(** ** Frame codec *)

Lemma u32_small (z : Z) : 0 <= z < 2 ^ 32 -> u32 z = z.
Proof. intros H. apply Z.mod_small. exact H. Qed.

Lemma recv_frame_payload_len (header : list byte) :
  2 <= read_u32_be header -> u32 (read_u32_be header - 2) = read_u32_be header - 2.
Proof.
  intros H. pose proof (read_u32_be_range header). apply u32_small. lia.
Qed.

(** C5, as amended.  [recv_frame] reads exactly 6 header bytes and takes
    the declared length from the first four.  It fails with
    [SQRL_ERR_DECODE] exactly when the header was read and the length is
    below 2 or above [SQRL_MAX_MESSAGE_SIZE] (16 MiB), the sub-header
    included.  A frame it returns is the header followed by exactly
    [length - 2] payload bytes, taken from the front of the stream; and
    whenever the header is in range and those bytes can be read, it
    succeeds.  The only other failure is [SQRL_ERR_RECV], which it
    answers exactly when the read of the header fails, or the header is
    in range and the read of the payload fails. *)
Theorem recv_frame_decode (s : socket) :
  (forall e s',
     recv_frame s = (FrameErr e, s') ->
     e = SQRL_ERR_DECODE \/ e = SQRL_ERR_RECV) /\
  (forall s',
     recv_frame s = (FrameErr SQRL_ERR_RECV, s') <->
     (exists failure, sock_recv_all s 6 0 = (RxFail failure, s')) \/
     (exists header s1 failure,
        sock_recv_all s 6 0 = (RxOk header, s1) /\
        2 <= read_u32_be header <= SQRL_MAX_MESSAGE_SIZE /\
        sock_recv_all s1 (Z.to_nat (read_u32_be header - 2)) 0
        = (RxFail failure, s'))) /\
  (forall s',
     recv_frame s = (FrameErr SQRL_ERR_DECODE, s') <->
     exists header,
       sock_recv_all s 6 0 = (RxOk header, s') /\
       (read_u32_be header < 2 \/ SQRL_MAX_MESSAGE_SIZE < read_u32_be header)) /\
  (forall msg_type payload s',
     recv_frame s = (FrameOk msg_type payload, s') ->
     exists header s1,
       sock_recv_all s 6 0 = (RxOk header, s1) /\
       List.length header = 6%nat /\
       2 <= read_u32_be header <= SQRL_MAX_MESSAGE_SIZE /\
       msg_type = Zbyte (nth 4 header "000"%byte) /\
       sock_recv_all s1 (Z.to_nat (read_u32_be header - 2)) 0 = (RxOk payload, s') /\
       Z.of_nat (List.length payload) = read_u32_be header - 2 /\
       net_bytes (net_in s) = header ++ payload ++ net_bytes (net_in s')) /\
  (forall header s1 payload s2,
     sock_recv_all s 6 0 = (RxOk header, s1) ->
     2 <= read_u32_be header <= SQRL_MAX_MESSAGE_SIZE ->
     sock_recv_all s1 (Z.to_nat (read_u32_be header - 2)) 0 = (RxOk payload, s2) ->
     recv_frame s = (FrameOk (Zbyte (nth 4 header "000"%byte)) payload, s2)).
Proof.
  split.
  { intros e s'. unfold recv_frame.
    destruct (sock_recv_all s 6 0) as [[header | f |] s1];
      [| intros H; inversion H; auto | intros H; inversion H; auto].
    destruct ((read_u32_be header <? 2)
              || (SQRL_MAX_MESSAGE_SIZE <? read_u32_be header))%bool;
      [intros H; inversion H; auto|].
    destruct (sock_recv_all s1 (Z.to_nat (u32 (read_u32_be header - 2))) 0)
      as [[payload | f |] s2]; intros H; inversion H; auto. }
  split.
  { intros s'. unfold recv_frame.
    destruct (sock_recv_all s 6 0) as [[header | f |] s1] eqn:H6.
    - destruct (Z.ltb_spec (read_u32_be header) 2) as [Lo|Lo];
        destruct (Z.ltb_spec SQRL_MAX_MESSAGE_SIZE (read_u32_be header)) as [Hi|Hi];
        cbn [orb].
      1-3: split;
        [ discriminate
        | intros [(f & Hf) | (h & s1' & f & Hh & Hr & _)];
          [ discriminate | inversion Hh; subst; lia ] ].
      rewrite recv_frame_payload_len by lia.
      destruct (sock_recv_all s1 (Z.to_nat (read_u32_be header - 2)) 0)
        as [[payload | f |] s2] eqn:HP.
      + split; [discriminate|].
        intros [(f & Hf) | (h & s1' & f & Hh & _ & Hf)]; [discriminate|].
        inversion Hh; subst. rewrite HP in Hf. discriminate.
      + split.
        * intros E. inversion E; subst. right.
          exists header, s1, f. repeat split; try assumption; lia.
        * intros [(f' & Hf) | (h & s1' & f' & Hh & _ & Hf)]; [discriminate|].
          inversion Hh; subst. rewrite HP in Hf. inversion Hf; subst. reflexivity.
      + split; [discriminate|].
        intros [(f & Hf) | (h & s1' & f & Hh & _ & Hf)]; [discriminate|].
        inversion Hh; subst. rewrite HP in Hf. discriminate.
    - split.
      + intros E. inversion E; subst. left. exists f. reflexivity.
      + intros [(f' & Hf) | (h & s1' & f' & Hh & _)]; [|discriminate].
        inversion Hf; subst. reflexivity.
    - split; [discriminate|].
      intros [(f' & Hf) | (h & s1' & f' & Hh & _)]; discriminate. }
  unfold recv_frame.
  destruct (sock_recv_all s 6 0) as [[header | e |] s1] eqn:H6.
  2: { repeat split; try discriminate.
       intros (h & Hh & _). discriminate. }
  2: { repeat split; try discriminate.
       intros (h & Hh & _). discriminate. }
  destruct (sock_recv_all_ok _ _ _ _ _ H6) as [Hlen Hbytes].
  destruct (Z.ltb_spec (read_u32_be header) 2) as [Lo|Lo];
    destruct (Z.ltb_spec SQRL_MAX_MESSAGE_SIZE (read_u32_be header)) as [Hi|Hi];
    cbn [orb].
  1-3: split; [|split].
  1,4,7: intros s'; split;
    [ intros E; inversion E; subst; exists header; split; [reflexivity | lia]
    | intros (h & Hh & _); inversion Hh; subst; reflexivity ].
  1,3,5: intros ? ? ? E; discriminate.
  1-3: intros h s1' p s2 E Hr; inversion E; subst; lia.
  rewrite recv_frame_payload_len by lia.
  destruct (sock_recv_all s1 (Z.to_nat (read_u32_be header - 2)) 0)
    as [[payload | e |] s2] eqn:HP.
  - destruct (sock_recv_all_ok _ _ _ _ _ HP) as [Hpl Hpb].
    split; [|split].
    + intros s'; split; [discriminate|].
      intros (h & Hh & Hr). inversion Hh; subst. lia.
    + intros t p s' E. inversion E; subst.
      exists header, s1. repeat split; try assumption; try lia.
      rewrite Hbytes, Hpb. reflexivity.
    + intros h s1' p s2' E Hr HP'. inversion E; subst.
      rewrite HP in HP'. inversion HP'; subst. reflexivity.
  - split; [|split].
    + intros s'; split; [discriminate|].
      intros (h & Hh & Hr). inversion Hh; subst. lia.
    + intros t p s' E. discriminate.
    + intros h s1' p s2' E Hr HP'. inversion E; subst.
      rewrite HP in HP'. discriminate.
  - split; [|split].
    + intros s'; split; [discriminate|].
      intros (h & Hh & Hr). inversion Hh; subst. lia.
    + intros t p s' E. discriminate.
    + intros h s1' p s2' E Hr HP'. inversion E; subst.
      rewrite HP in HP'. discriminate.
Qed.

(** C5 as stated fails: a header that declares 16 MiB + 1 has
    [length - 2] within 16 MiB, yet [recv_frame] answers
    [SQRL_ERR_DECODE]. *)
Lemma recv_frame_rejects_over_limit :
  read_u32_be over_limit_header = SQRL_MAX_MESSAGE_SIZE + 1 /\
  ~ (read_u32_be over_limit_header < 2 \/
     read_u32_be over_limit_header - 2 > SQRL_MAX_MESSAGE_SIZE) /\
  fst (recv_frame (sock_of_bytes over_limit_header)) = FrameErr SQRL_ERR_DECODE.
Proof.
  assert (E : read_u32_be over_limit_header = SQRL_MAX_MESSAGE_SIZE + 1)
    by (vm_compute; reflexivity).
  split; [exact E|]. split.
  - rewrite E. unfold SQRL_MAX_MESSAGE_SIZE. lia.
  - vm_compute. reflexivity.
Qed.

Lemma recv_frame_decode_witness :
  recv_frame (sock_of_bytes (frame_bytes MSG_TYPE_RESPONSE "abc"))
  = (FrameOk MSG_TYPE_RESPONSE (list_byte_of_string "abc"), mkSocket [] [] []).
Proof.
  refine (proj2 (proj2 (proj2 (proj2 (recv_frame_decode
                          (sock_of_bytes (frame_bytes MSG_TYPE_RESPONSE "abc"))))))
            (frame_header 5 MSG_TYPE_RESPONSE 2)
            (mkSocket [Data (list_byte_of_string "abc")] [] [])
            (list_byte_of_string "abc") (mkSocket [] [] []) _ _ _);
    vm_compute; try reflexivity; split; discriminate.
Defined.

Example recv_frame_accepts_chunked :
  recv_frame (mkSocket [Data (frame_header 5 MSG_TYPE_RESPONSE 2); Intr;
                        Data (list_byte_of_string "ab"); Quiet;
                        Data (list_byte_of_string "cde")] [] [])
  = (FrameOk 2 (list_byte_of_string "abc"),
     mkSocket [Data (list_byte_of_string "de")] [] []).
Proof. vm_compute. reflexivity. Qed.

Lemma length_list_byte_of_string (s : string) :
  List.length (list_byte_of_string s) = String.length s.
Proof.
  induction s as [|a s IH]; [reflexivity|].
  cbn. f_equal. exact IH.
Qed.

(** C7, as amended.  For a payload of fewer than 2^32 - 2 bytes the
    frame [send_frame] builds is four bytes whose big-endian value is
    [2 + len(payload)], the type byte 1 (request), the encoding byte 2
    (JSON) and the payload bytes, [6 + len(payload)] bytes in all; a
    send that succeeds puts exactly these bytes on the wire. *)
Theorem frame_of_layout (json : string) :
  strlen json + 2 < 2 ^ 32 ->
  let payload := list_byte_of_string (c_str json) in
  (exists b0 b1 b2 b3,
     frame_of json = [b0; b1; b2; b3] ++ ["001"%byte; "002"%byte] ++ payload /\
     be32_value b0 b1 b2 b3 = 2 + Z.of_nat (List.length payload)) /\
  read_u32_be (frame_of json) = 2 + Z.of_nat (List.length payload) /\
  Z.of_nat (List.length (frame_of json)) = 6 + Z.of_nat (List.length payload) /\
  (forall s s', send_frame s json = (SQRL_OK, s') ->
     wire s' = wire s ++ frame_of json).
Proof.
  intros Hfit payload.
  assert (Hlen : Z.of_nat (List.length payload) = strlen json).
  { unfold payload, strlen. rewrite length_list_byte_of_string. reflexivity. }
  assert (Hpos : 0 <= strlen json) by (unfold strlen; lia).
  destruct (write_u32_be_bytes (strlen json + 2) ltac:(lia))
    as (b0 & b1 & b2 & b3 & E & V).
  assert (F : frame_of json =
              [b0; b1; b2; b3] ++ ["001"%byte; "002"%byte] ++ payload).
  { unfold frame_of. rewrite u32_small by lia. rewrite E. reflexivity. }
  split; [|split; [|split]].
  - exists b0, b1, b2, b3. split; [exact F|]. rewrite V. lia.
  - rewrite F. cbn [app]. rewrite read_u32_be_value. cbn [nth]. rewrite V. lia.
  - rewrite F. rewrite !length_app. cbn [List.length]. lia.
  - intros s s' H. unfold send_frame in H.
    destruct (sock_send_all s (frame_of json)) as [[|] s1] eqn:S;
      inversion H; subst.
    apply sock_send_all_ok in S. exact S.
Qed.

Lemma frame_of_layout_witness :
  strlen "abc" + 2 < 2 ^ 32 /\
  read_u32_be (frame_of "abc") = 2 + 3 /\
  Z.of_nat (List.length (frame_of "abc")) = 6 + 3.
Proof.
  assert (H : strlen "abc" + 2 < 2 ^ 32) by (vm_compute; reflexivity).
  split; [exact H|].
  destruct (frame_of_layout "abc" H) as (_ & R & L & _).
  split; [exact R | exact L].
Defined.

Lemma c_str_string_repeat (n : nat) :
  c_str (string_repeat "a" n) = string_repeat "a" n.
Proof. induction n as [|n IH]; [reflexivity|]. cbn. rewrite IH. reflexivity. Qed.

Lemma length_string_repeat (a : ascii) (n : nat) :
  String.length (string_repeat a n) = n.
Proof. induction n as [|n IH]; [reflexivity|]. cbn. rewrite IH. reflexivity. Qed.

Lemma frame_of_repeat_wraps (n : nat) :
  Z.of_nat n + 2 = 2 ^ 32 ->
  strlen (string_repeat "a" n) = Z.of_nat n /\
  read_u32_be (frame_of (string_repeat "a" n)) = 0.
Proof.
  intros H.
  assert (L : strlen (string_repeat "a" n) = Z.of_nat n).
  { unfold strlen. rewrite c_str_string_repeat, length_string_repeat. reflexivity. }
  split; [exact L|].
  unfold frame_of. rewrite L, H.
  change (u32 (2 ^ 32)) with 0.
  apply read_write_u32_be. lia.
Qed.

(** C7 as stated fails: for a payload of 2^32 - 2 bytes the length
    field holds 0, not [2 + len(payload)]. *)
Lemma frame_of_huge_json_length_field :
  strlen huge_json = 4294967294 /\
  read_u32_be (frame_of huge_json) = 0 /\
  read_u32_be (frame_of huge_json) <> 2 + strlen huge_json.
Proof.
  assert (N : Z.of_nat (Z.to_nat 4294967294) = 4294967294)
    by (apply Z2Nat.id; lia).
  assert (H : Z.of_nat (Z.to_nat 4294967294) + 2 = 2 ^ 32)
    by (rewrite N; reflexivity).
  destruct (frame_of_repeat_wraps _ H) as [L R].
  unfold huge_json. rewrite L, R, N. repeat split. lia.
Qed.

(** ** Handshake *)

Lemma fmt_02x_byte (b : byte) : fmt_02x (Zbyte b) = hex_pair b.
Proof. destruct b; vm_compute; reflexivity. Qed.

Lemma length_19 (resp : list byte) :
  List.length resp = 19%nat ->
  exists status version flags b0 b1 b2 b3 b4 b5 b6 b7 b8 b9 b10 b11 b12 b13 b14 b15,
    resp = [status; version; flags; b0; b1; b2; b3; b4; b5; b6; b7;
            b8; b9; b10; b11; b12; b13; b14; b15].
Proof.
  intros H.
  do 19 (destruct resp as [|? resp]; [discriminate|]).
  destruct resp; [|discriminate].
  repeat eexists.
Qed.

Lemma uuid_to_string_groups (resp : list byte) :
  List.length resp = 19%nat ->
  uuid_to_string (skipn 3 resp) = hex_groups_8_4_4_4_12 (firstn 16 (skipn 3 resp)) /\
  String.length (uuid_to_string (skipn 3 resp)) = 36%nat.
Proof.
  intros H. destruct (length_19 resp H)
    as (st & ve & fl & b0 & b1 & b2 & b3 & b4 & b5 & b6 & b7 & b8 & b9 & b10
        & b11 & b12 & b13 & b14 & b15 & ->).
  unfold uuid_to_string. cbn [skipn nth].
  rewrite !fmt_02x_byte. split; reflexivity.
Qed.

(** C6.  When the 19-byte response has status 0, [do_handshake] stores
    as session id the 16 bytes at offsets 3 to 18 in lowercase
    hexadecimal, grouped 8-4-4-4-12 with dashes: 36 characters. *)
Theorem handshake_session_id (c : sqrl_client_t) (opts : option sqrl_options_t)
  (s s1 s2 : socket) (resp : list byte) :
  sock_send_all s (handshake_packet opts) = (true, s1) ->
  sock_recv_all s1 19 (handshake_timeout opts) = (RxOk resp, s2) ->
  Zbyte (nth 0 resp "000"%byte) = HANDSHAKE_SUCCESS ->
  exists c' sid,
    do_handshake c opts s = (Some (SQRL_OK, c'), s2) /\
    session_id c' = Some sid /\
    sid = hex_groups_8_4_4_4_12 (firstn 16 (skipn 3 resp)) /\
    String.length sid = 36%nat.
Proof.
  intros Hs Hr Hst.
  destruct (sock_recv_all_ok _ _ _ _ _ Hr) as [Hlen _].
  destruct (uuid_to_string_groups resp Hlen) as [Hg Hl].
  unfold do_handshake. rewrite Hs, Hr, Hst. cbn [Z.eqb HANDSHAKE_SUCCESS
    HANDSHAKE_VERSION_MISMATCH HANDSHAKE_AUTH_FAILED negb].
  eexists. exists (uuid_to_string (skipn 3 resp)).
  split; [reflexivity|]. split; [reflexivity|]. split; assumption.
Qed.

Lemma handshake_session_id_witness :
  exists c' sid,
    do_handshake (fresh_client 3 30000) None
      (sock_of_bytes (handshake_response 0 1 1 sample_sid))
    = (Some (SQRL_OK, c'), mkSocket [] [] (handshake_packet None)) /\
    session_id c' = Some sid /\
    sid = hex_groups_8_4_4_4_12
            (firstn 16 (skipn 3 (handshake_response 0 1 1 sample_sid))) /\
    String.length sid = 36%nat.
Proof.
  apply (handshake_session_id (fresh_client 3 30000) None
           (sock_of_bytes (handshake_response 0 1 1 sample_sid))
           (mkSocket [Data (handshake_response 0 1 1 sample_sid)] []
              (handshake_packet None))
           (mkSocket [] [] (handshake_packet None))
           (handshake_response 0 1 1 sample_sid)).
  - vm_compute. reflexivity.
  - vm_compute. reflexivity.
  - vm_compute. reflexivity.
Defined.

Example session_id_rendering :
  hex_groups_8_4_4_4_12 sample_sid = "000102ff-10ab-cdef-0123-456789abcdef".
Proof. vm_compute. reflexivity. Qed.

Lemma land_1_odd (x : Z) : (Z.land x 1 =? 0) = negb (Z.odd x).
Proof.
  change 1 with (Z.ones 1) at 1. rewrite Z.land_ones by lia.
  change (2 ^ 1) with 2. rewrite Zmod_odd. destruct (Z.odd x); reflexivity.
Qed.

(** C4, as amended.  [do_handshake] fails with [SQRL_ERR_SEND] when the
    packet cannot be written and with [SQRL_ERR_RECV] when reading the
    19-byte response meets a socket error or the end of the stream.
    Once the response is read, status 0 gives [SQRL_OK] with the session
    id and the encoding of flag bit 0 (MessagePack if set, JSON if not),
    status 1 gives [SQRL_ERR_VERSION_MISMATCH], status 2
    [SQRL_ERR_AUTH_FAILED] and any other status [SQRL_ERR_HANDSHAKE],
    the client being left as it was in all failures. *)
Theorem do_handshake_outcomes (c : sqrl_client_t)
  (opts : option sqrl_options_t) (s : socket) :
  (forall s1,
     sock_send_all s (handshake_packet opts) = (false, s1) ->
     do_handshake c opts s = (Some (SQRL_ERR_SEND, c), s1)) /\
  (forall s1 s2 e,
     sock_send_all s (handshake_packet opts) = (true, s1) ->
     sock_recv_all s1 19 (handshake_timeout opts) = (RxFail e, s2) ->
     e = RxError \/ e = RxClosed ->
     do_handshake c opts s = (Some (SQRL_ERR_RECV, c), s2)) /\
  (forall s1 s2 resp,
     sock_send_all s (handshake_packet opts) = (true, s1) ->
     sock_recv_all s1 19 (handshake_timeout opts) = (RxOk resp, s2) ->
     let status := Zbyte (nth 0 resp "000"%byte) in
     let resp_flags := Zbyte (nth 2 resp "000"%byte) in
     (status = 0 ->
      do_handshake c opts s =
      (Some (SQRL_OK,
             set_session c (uuid_to_string (firstn 16 (skipn 3 resp)))
               (if Z.odd resp_flags then SQRL_ENCODING_MSGPACK
                else SQRL_ENCODING_JSON)), s2)) /\
     (status = 1 ->
      do_handshake c opts s = (Some (SQRL_ERR_VERSION_MISMATCH, c), s2)) /\
     (status = 2 ->
      do_handshake c opts s = (Some (SQRL_ERR_AUTH_FAILED, c), s2)) /\
     (status <> 0 -> status <> 1 -> status <> 2 ->
      do_handshake c opts s = (Some (SQRL_ERR_HANDSHAKE, c), s2))).
Proof.
  split; [|split].
  - intros s1 Hs. unfold do_handshake. rewrite Hs. reflexivity.
  - intros s1 s2 e Hs Hr _. unfold do_handshake. rewrite Hs, Hr. reflexivity.
  - intros s1 s2 resp Hs Hr status resp_flags.
    destruct (sock_recv_all_ok _ _ _ _ _ Hr) as [Hlen _].
    assert (Hsid : firstn 16 (skipn 3 resp) = skipn 3 resp).
    { apply firstn_all2. rewrite length_skipn, Hlen. cbn. lia. }
    unfold do_handshake. rewrite Hs, Hr. fold status. fold resp_flags.
    unfold HANDSHAKE_VERSION_MISMATCH, HANDSHAKE_AUTH_FAILED, HANDSHAKE_SUCCESS.
    rewrite land_1_odd, negb_involutive, Hsid.
    repeat split.
    + intros ->. reflexivity.
    + intros ->. reflexivity.
    + intros ->. reflexivity.
    + intros H0 H1 H2.
      destruct (Z.eqb_spec status 1); [contradiction|].
      destruct (Z.eqb_spec status 2); [contradiction|].
      destruct (Z.eqb_spec status 0); [contradiction|]. reflexivity.
Qed.

Lemma do_handshake_outcomes_witness :
  do_handshake (fresh_client 3 30000) None
    (sock_of_bytes (handshake_response 1 2 0 sample_sid))
  = (Some (SQRL_ERR_VERSION_MISMATCH, fresh_client 3 30000),
     mkSocket [] [] (handshake_packet None)).
Proof.
  destruct (do_handshake_outcomes (fresh_client 3 30000) None
              (sock_of_bytes (handshake_response 1 2 0 sample_sid)))
    as (_ & _ & H).
  refine (proj1 (proj2 (H (mkSocket [Data (handshake_response 1 2 0 sample_sid)] []
                             (handshake_packet None))
                          (mkSocket [] [] (handshake_packet None))
                          (handshake_response 1 2 0 sample_sid) _ _)) _);
    vm_compute; reflexivity.
Defined.

(** C4 as stated fails on three inputs: when nothing arrives within the
    connect timeout the handshake answers [SQRL_ERR_RECV], not
    [SQRL_ERR_TIMEOUT]; when the write fails it answers [SQRL_ERR_SEND]
    and when the peer closes [SQRL_ERR_RECV], neither being
    [SQRL_ERR_HANDSHAKE]. *)
Lemma do_handshake_timeout_and_io_errors :
  fst (do_handshake (fresh_client 3 30000) None (mkSocket [Quiet] [] []))
    = Some (SQRL_ERR_RECV, fresh_client 3 30000) /\
  fst (do_handshake (fresh_client 3 30000) None (mkSocket [] [TxFail] []))
    = Some (SQRL_ERR_SEND, fresh_client 3 30000) /\
  fst (do_handshake (fresh_client 3 30000) None (mkSocket [Eof] [] []))
    = Some (SQRL_ERR_RECV, fresh_client 3 30000) /\
  SQRL_ERR_RECV <> SQRL_ERR_TIMEOUT /\
  SQRL_ERR_SEND <> SQRL_ERR_HANDSHAKE /\
  SQRL_ERR_RECV <> SQRL_ERR_HANDSHAKE.
Proof.
  repeat split; try (vm_compute; reflexivity); discriminate.
Qed.

(** ** Routing of decoded messages *)

Lemma set_pending_same (c : sqrl_client_t) :
  set_pending c (pending_requests c) = c.
Proof. destruct c; reflexivity. Qed.

Lemma dispatch_response_from_miss (l : list pending_request_t) (id json : string) :
  (forall r, In r l -> req_id r <> id) ->
  dispatch_response_from l id json = l.
Proof.
  induction l as [|r l IH]; intros H; [reflexivity|].
  cbn [dispatch_response_from]. unfold streq.
  destruct (String.eqb_spec (req_id r) id) as [E|N].
  - exfalso. apply (H r); [left; reflexivity | exact E].
  - f_equal. apply IH. intros r' Hr'. apply H. right. exact Hr'.
Qed.

Lemma dispatch_change_from_miss (l : list subscription_entry_t) (id json : string) :
  (forall e, In e l -> sub_id e <> id) ->
  dispatch_change_from l id json = [].
Proof.
  induction l as [|e l IH]; intros H; [reflexivity|].
  cbn [dispatch_change_from]. unfold streq.
  destruct (String.eqb_spec (sub_id e) id) as [E|N].
  - exfalso. apply (H e); [left; reflexivity | exact E].
  - apply IH. intros e' He'. apply H. right. exact He'.
Qed.

Lemma dispatch_response_miss (c : sqrl_client_t) (id json : string) :
  (forall r, In r (pending_requests c) -> req_id r <> id) ->
  dispatch_response c id json = c.
Proof.
  intros H. unfold dispatch_response.
  rewrite dispatch_response_from_miss by exact H. apply set_pending_same.
Qed.

Lemma reader_iteration_frame (c : sqrl_client_t) (s s' : socket) (t : Z)
  (payload : list byte) :
  reader_running c = true ->
  recv_frame s = (FrameOk t payload, s') ->
  reader_iteration c s =
  mkReaderRun ReaderRunning
    (fst (reader_route c (c_str (string_of_list_byte payload)))) s'
    (snd (reader_route c (c_str (string_of_list_byte payload)))).
Proof.
  intros Hr Hf. unfold reader_iteration. rewrite Hr, Hf. cbn [negb].
  destruct (reader_route c (c_str (string_of_list_byte payload))); reflexivity.
Qed.

(** C3.  A decoded message whose id is that of no pending request and of
    no subscription changes nothing: routing it returns the client as it
    was and makes no callback call, whichever of [dispatch_response] and
    [dispatch_change] it reaches, and the reader goes on with the next
    frame. *)
Theorem unmatched_message_is_dropped (c : sqrl_client_t) (json msg_id : string) :
  json_get_string json "id" = Some msg_id ->
  (forall r, In r (pending_requests c) -> req_id r <> msg_id) ->
  (forall e, In e (subscriptions c) -> sub_id e <> msg_id) ->
  reader_route c json = (c, []) /\
  (forall text, dispatch_response c msg_id text = c) /\
  (forall text, dispatch_change c msg_id text = []) /\
  (forall s s' t payload,
     reader_running c = true ->
     recv_frame s = (FrameOk t payload, s') ->
     c_str (string_of_list_byte payload) = json ->
     reader_iteration c s = mkReaderRun ReaderRunning c s' []).
Proof.
  intros Hid Hp Hs.
  assert (R : forall text, dispatch_response c msg_id text = c)
    by (intros; apply dispatch_response_miss; exact Hp).
  assert (C : forall text, dispatch_change c msg_id text = [])
    by (intros; apply dispatch_change_from_miss; exact Hs).
  assert (Route : reader_route c json = (c, [])).
  { unfold reader_route. rewrite Hid.
    destruct (json_get_string json "type") as [ty|]; [|reflexivity].
    destruct (streq ty "change").
    - destruct (json_get_object json "change"); [rewrite C|]; reflexivity.
    - rewrite R. reflexivity. }
  repeat split; try assumption.
  intros s s' t payload Hr Hf Hj.
  rewrite (reader_iteration_frame c s s' t payload Hr Hf), Hj, Route.
  reflexivity.
Qed.

Lemma unmatched_message_is_dropped_witness :
  reader_route sample_client (js "{'type':'result','id':'9','data':{}}")
  = (sample_client, []).
Proof.
  refine (proj1 (unmatched_message_is_dropped sample_client
                   (js "{'type':'result','id':'9','data':{}}") "9" _ _ _)).
  - vm_compute. reflexivity.
  - intros r [<-|[]]. cbn. discriminate.
  - intros e [<-|[]]. cbn. discriminate.
Defined.

Lemma reader_thread_func_step (fuel : nat) (c c' : sqrl_client_t) (s s' : socket) :
  reader_iteration c s = mkReaderRun ReaderRunning c' s' [] ->
  reader_thread_func (S fuel) c s = reader_thread_func fuel c' s'.
Proof.
  intros H. cbn [reader_thread_func]. rewrite H. cbn.
  destruct (reader_thread_func fuel c' s'); reflexivity.
Qed.

(** C9.  A frame that was decoded but whose text lacks an extractable
    "id" or an extractable "type" is discarded: the client is unchanged,
    no callback is called, and the reader thread carries on with the
    rest of the stream. *)
Theorem frame_without_id_or_type_is_discarded (c : sqrl_client_t)
  (s s' : socket) (t : Z) (payload : list byte) :
  reader_running c = true ->
  recv_frame s = (FrameOk t payload, s') ->
  json_get_string (c_str (string_of_list_byte payload)) "id" = None \/
  json_get_string (c_str (string_of_list_byte payload)) "type" = None ->
  reader_route c (c_str (string_of_list_byte payload)) = (c, []) /\
  reader_iteration c s = mkReaderRun ReaderRunning c s' [] /\
  (forall fuel, reader_thread_func (S fuel) c s = reader_thread_func fuel c s').
Proof.
  intros Hr Hf Hmiss.
  assert (Route : reader_route c (c_str (string_of_list_byte payload)) = (c, [])).
  { unfold reader_route. destruct Hmiss as [E|E]; rewrite E.
    - reflexivity.
    - destruct (json_get_string _ "id"); reflexivity. }
  assert (It : reader_iteration c s = mkReaderRun ReaderRunning c s' []).
  { rewrite (reader_iteration_frame c s s' t payload Hr Hf), Route. reflexivity. }
  repeat split; try assumption.
  intros fuel. apply reader_thread_func_step. exact It.
Qed.

Lemma frame_without_id_or_type_is_discarded_witness :
  reader_thread_func 2 sample_client
    (sock_of_bytes (frame_bytes MSG_TYPE_RESPONSE (js "{'type':'result','id':2}")))
  = reader_thread_func 1 sample_client (mkSocket [] [] []).
Proof.
  refine (proj2 (proj2 (frame_without_id_or_type_is_discarded sample_client
            (sock_of_bytes (frame_bytes MSG_TYPE_RESPONSE (js "{'type':'result','id':2}")))
            (mkSocket [] [] []) MSG_TYPE_RESPONSE
            (list_byte_of_string (js "{'type':'result','id':2}")) _ _ _)) 1%nat).
  - reflexivity.
  - vm_compute. reflexivity.
  - left. vm_compute. reflexivity.
Defined.

(** ** Failure of the reader and timeouts of callers *)

Lemma reader_route_keeps_flag (c : sqrl_client_t) (json : string) :
  reader_running (fst (reader_route c json)) = reader_running c.
Proof.
  unfold reader_route.
  destruct (json_get_string json "id"); [|reflexivity].
  destruct (json_get_string json "type"); [|reflexivity].
  destruct (streq _ _).
  - destruct (json_get_object json "change"); reflexivity.
  - reflexivity.
Qed.

Lemma reader_runs_until_break (fuel : nat) :
  forall (c : sqrl_client_t) (s : socket),
    reader_running c = true ->
    run_status (reader_thread_func fuel c s) <> ReaderFlagCleared.
Proof.
  induction fuel as [|fuel IH]; intros c s Hr; [discriminate|].
  cbn [reader_thread_func]. unfold reader_iteration. rewrite Hr. cbn [negb].
  destruct (recv_frame s) as [[t payload | err |] s'].
  - pose proof (reader_route_keeps_flag c (c_str (string_of_list_byte payload))) as K.
    destruct (reader_route c (c_str (string_of_list_byte payload))) as [c' calls].
    cbn [fst] in K. cbn. apply IH. rewrite K. exact Hr.
  - discriminate.
  - discriminate.
Qed.

Lemma pending_set_connected (c : sqrl_client_t) (b : bool) :
  pending_requests (set_connected c b) = pending_requests c.
Proof. reflexivity. Qed.

(** ** The pending list *)

Lemma node_at_In (l : list pending_request_t) (addr : nat) (r : pending_request_t) :
  node_at l addr = Some r -> In r l /\ req_addr r = addr.
Proof.
  induction l as [|x l IH]; [discriminate|].
  cbn [node_at]. destruct (Nat.eqb_spec (req_addr x) addr) as [E|N].
  - intros H. inversion H; subst. split; [left; reflexivity | reflexivity].
  - intros H. destruct (IH H) as [Hin Ha]. split; [right; exact Hin | exact Ha].
Qed.

Lemma unlink_incl (l : list pending_request_t) (addr : nat) (r : pending_request_t) :
  In r (unlink l addr) -> In r l.
Proof.
  induction l as [|x l IH]; [intros []|].
  cbn [unlink]. destruct (Nat.eqb (req_addr x) addr).
  - intros H. right. exact H.
  - intros [H|H]; [left; exact H | right; apply IH; exact H].
Qed.

Lemma unlink_ids_NoDup (l : list pending_request_t) (addr : nat) :
  NoDup (map req_id l) -> NoDup (map req_id (unlink l addr)).
Proof.
  induction l as [|x l IH]; intros H; [constructor|].
  cbn [unlink]. inversion H as [|? ? Hx Hl]; subst.
  destruct (Nat.eqb (req_addr x) addr); [exact Hl|].
  cbn [map]. constructor; [|apply IH; exact Hl].
  intros Hin. apply Hx. apply in_map_iff in Hin. destruct Hin as (r & E & Hr).
  apply in_map_iff. exists r. split; [exact E | eapply unlink_incl; exact Hr].
Qed.

Lemma unlink_forgets_id (l : list pending_request_t) (addr : nat)
  (r : pending_request_t) :
  NoDup (map req_id l) ->
  node_at l addr = Some r ->
  ~ In (req_id r) (map req_id (unlink l addr)).
Proof.
  induction l as [|x l IH]; [discriminate|].
  intros Hnd Hnode. inversion Hnd as [|? ? Hx Hl]; subst.
  cbn [node_at] in Hnode. cbn [unlink].
  destruct (Nat.eqb (req_addr x) addr).
  - inversion Hnode; subst. exact Hx.
  - cbn [map]. intros [E|Hin].
    + apply Hx. rewrite E. apply in_map. apply (node_at_In _ _ _ Hnode).
    + exact (IH Hl Hnode Hin).
Qed.

Lemma not_in_ids (l : list pending_request_t) (id : string) :
  ~ In id (map req_id l) -> forall r, In r l -> req_id r <> id.
Proof.
  intros H r Hr E. apply H. rewrite <- E. apply in_map. exact Hr.
Qed.

(** A timeout when the ids in the pending list are pairwise distinct.
    A caller whose request has not been completed enters the timed
    wait; when the wait times out [send_request] returns
    [SQRL_ERR_TIMEOUT] and unlinks the node, after which no pending
    entry carries that id, so a late response with that id leaves the
    client exactly as it was and calls nothing. *)
Lemma timed_out_request_is_forgotten (c : sqrl_client_t) (addr : nat)
  (req : pending_request_t) :
  node_at (pending_requests c) addr = Some req ->
  req_completed req = false ->
  NoDup (map req_id (pending_requests c)) ->
  let c' := pending_remove c addr in
  send_request_test c addr = None /\
  send_request_wake c addr WaitTimedOut = Some ((SQRL_ERR_TIMEOUT, None), c') /\
  ~ In (req_id req) (map req_id (pending_requests c')) /\
  (forall json, dispatch_response c' (req_id req) json = c') /\
  (forall json ty,
     json_get_string json "id" = Some (req_id req) ->
     json_get_string json "type" = Some ty ->
     ty <> "change" ->
     reader_route c' json = (c', [])).
Proof.
  intros Hnode Hopen Hnd c'.
  assert (Gone : ~ In (req_id req) (map req_id (pending_requests c'))).
  { subst c'. unfold pending_remove. cbn [pending_requests set_pending].
    apply unlink_forgets_id; assumption. }
  assert (Late : forall json, dispatch_response c' (req_id req) json = c').
  { intros json. apply dispatch_response_miss. apply not_in_ids. exact Gone. }
  split; [|split; [|split; [|split]]].
  - unfold send_request_test. rewrite Hnode, Hopen. reflexivity.
  - reflexivity.
  - exact Gone.
  - exact Late.
  - intros json ty Hid Hty Hne. unfold reader_route. rewrite Hid, Hty.
    unfold streq. destruct (String.eqb_spec ty "change") as [E|_];
      [contradiction|].
    rewrite Late. reflexivity.
Qed.

Lemma timed_out_request_is_forgotten_witness :
  send_request_wake sample_client 100 WaitTimedOut
    = Some ((SQRL_ERR_TIMEOUT, None), pending_remove sample_client 100) /\
  reader_route (pending_remove sample_client 100)
    (js "{'type':'pong','id':'2'}")
    = (pending_remove sample_client 100, []).
Proof.
  destruct (timed_out_request_is_forgotten sample_client 100
              (mkPending 100 "2" None SQRL_OK false))
    as (_ & W & _ & _ & L).
  - reflexivity.
  - reflexivity.
  - cbn. constructor; [intros [] | constructor].
  - split; [exact W|].
    apply (L (js "{'type':'pong','id':'2'}") "pong").
    + vm_compute. reflexivity.
    + vm_compute. reflexivity.
    + discriminate.
Defined.

(** ** Correlation ids *)

Lemma dec_digit_value (n : Z) :
  0 <= n < 10 -> Z.of_N (N_of_ascii (dec_digit n)) - 48 = n.
Proof.
  intros H. unfold dec_digit.
  rewrite N_ascii_embedding by lia.
  rewrite Z2N.id by lia. lia.
Qed.

Lemma dec_value_app (x y : string) (acc : Z) :
  dec_value (x +++ y) acc = dec_value y (dec_value x acc).
Proof.
  revert acc. induction x as [|a x IH]; intros acc; [reflexivity|].
  cbn [String.append dec_value]. apply IH.
Qed.

Lemma append_assoc_one (x : string) (a : ascii) (y : string) :
  x +++ String a y = (x +++ String a "") +++ y.
Proof.
  induction x as [|b x IH]; [reflexivity|].
  cbn [String.append]. rewrite IH. reflexivity.
Qed.

Lemma length_append (x y : string) :
  String.length (x +++ y) = (String.length x + String.length y)%nat.
Proof.
  induction x as [|a x IH]; [reflexivity|].
  cbn [String.append String.length]. rewrite IH. reflexivity.
Qed.

Lemma append_empty_r (x : string) : x +++ "" = x.
Proof. induction x as [|a x IH]; [reflexivity|]. cbn. rewrite IH. reflexivity. Qed.

Lemma dec_digits_spec (fuel : nat) :
  forall (v : Z) (acc : string),
    0 <= v < 10 ^ Z.of_nat fuel ->
    exists ds,
      dec_digits fuel v acc = ds +++ acc /\
      dec_value ds 0 = v /\
      (String.length ds <= fuel)%nat.
Proof.
  induction fuel as [|f IH]; intros v acc Hv.
  - exists "". cbn in *. repeat split; lia.
  - cbn [dec_digits].
    assert (Hm : 0 <= v mod 10 < 10) by (apply Z.mod_pos_bound; lia).
    pose proof (Z.div_mod v 10 ltac:(lia)) as Hdm.
    destruct (Z.eqb_spec (v / 10) 0) as [E|N].
    + exists (String (dec_digit (v mod 10)) "").
      cbn [String.append dec_value String.length].
      rewrite dec_digit_value by exact Hm. repeat split; lia.
    + assert (Hq : 0 <= v / 10 < 10 ^ Z.of_nat f).
      { split; [apply Z.div_pos; lia|].
        apply Z.div_lt_upper_bound; [lia|].
        rewrite Nat2Z.inj_succ, Z.pow_succ_r in Hv by lia. lia. }
      destruct (IH (v / 10) (String (dec_digit (v mod 10)) acc) Hq)
        as (ds & E & V & L).
      exists (ds +++ String (dec_digit (v mod 10)) "").
      split; [|split].
      * rewrite E. apply append_assoc_one.
      * rewrite dec_value_app, V. cbn [dec_value].
        rewrite dec_digit_value by exact Hm. lia.
      * rewrite length_append. cbn [String.length]. lia.
Qed.

Lemma u64_range (v : Z) : 0 <= u64 v < 2 ^ 64.
Proof. apply Z.mod_pos_bound. lia. Qed.

Lemma u64_small (v : Z) : 0 <= v < 2 ^ 64 -> u64 v = v.
Proof. intros H. apply Z.mod_small. exact H. Qed.

Lemma fmt_llu_spec (v : Z) :
  dec_value (fmt_llu v) 0 = u64 v /\ (String.length (fmt_llu v) <= 20)%nat.
Proof.
  unfold fmt_llu.
  destruct (dec_digits_spec 20 (u64 v) "") as (ds & E & V & L).
  { pose proof (u64_range v). change (2 ^ 64) with 18446744073709551616 in *.
    change (10 ^ Z.of_nat 20) with 100000000000000000000. lia. }
  rewrite E, append_empty_r. split; assumption.
Qed.

Lemma fmt_llu_inj (a b : Z) :
  0 <= a < 2 ^ 64 -> 0 <= b < 2 ^ 64 -> fmt_llu a = fmt_llu b -> a = b.
Proof.
  intros Ha Hb E.
  pose proof (proj1 (fmt_llu_spec a)) as Va.
  pose proof (proj1 (fmt_llu_spec b)) as Vb.
  rewrite E, Vb in Va. rewrite !u64_small in Va by assumption. congruence.
Qed.

Lemma string_take_all (n : nat) (s : string) :
  (String.length s <= n)%nat -> string_take n s = s.
Proof.
  revert n. induction s as [|a s IH]; intros n H.
  - destruct n; reflexivity.
  - destruct n as [|n]; [cbn in H; lia|].
    cbn [string_take]. rewrite IH by (cbn in H; lia). reflexivity.
Qed.

Lemma next_request_id_spec (c : sqrl_client_t) :
  next_request_id c =
  (fmt_llu (request_id c + 1), set_request_id c (u64 (request_id c + 1))).
Proof.
  unfold next_request_id. cbn [request_id set_request_id]. f_equal.
  unfold snprintf. rewrite string_take_all.
  - unfold fmt_llu, u64. rewrite Z.mod_mod by lia. reflexivity.
  - pose proof (proj2 (fmt_llu_spec (u64 (request_id c + 1)))).
    change (32 - 1)%nat with 31%nat. lia.
Qed.

Lemma next_request_id_halves (c : sqrl_client_t) :
  next_request_id c = request_id_write c (request_id_read c).
Proof. reflexivity. Qed.

(** Two callers that both read the counter before either writes it are
    given the same id. *)
Example overlapping_increments_collide :
  fst (request_id_write (fresh_client 3 30000)
         (request_id_read (fresh_client 3 30000))) = "1" /\
  fst (request_id_write
         (snd (request_id_write (fresh_client 3 30000)
                 (request_id_read (fresh_client 3 30000))))
         (request_id_read (fresh_client 3 30000))) = "1".
Proof. split; vm_compute; reflexivity. Qed.

Lemma fmt_llu_u64_succ (n : nat) :
  fmt_llu (u64 (Z.of_nat n) + 1) = id_of (S n).
Proof.
  unfold id_of, fmt_llu, u64. rewrite Nat2Z.inj_succ.
  rewrite Zplus_mod_idemp_l. reflexivity.
Qed.

Lemma in_ids_upto (n : nat) (id : string) :
  In id (ids_upto n) -> exists k, (1 <= k <= n)%nat /\ id = id_of k.
Proof.
  induction n as [|n IH]; [intros []|].
  cbn [ids_upto]. intros [E|H].
  - exists (S n). split; [lia | symmetry; exact E].
  - destruct (IH H) as (k & Hk & E). exists k. split; [lia | exact E].
Qed.

Lemma id_of_fresh (n : nat) :
  Z.of_nat (S n) < 2 ^ 64 -> ~ In (id_of (S n)) (ids_upto n).
Proof.
  intros Hn Hin. destruct (in_ids_upto n _ Hin) as (k & Hk & E).
  unfold id_of in E. apply fmt_llu_inj in E; lia.
Qed.

Lemma ids_upto_NoDup (n : nat) :
  Z.of_nat n < 2 ^ 64 -> NoDup (ids_upto n).
Proof.
  induction n as [|n IH]; intros Hn; [constructor|].
  cbn [ids_upto]. constructor.
  - apply id_of_fresh. exact Hn.
  - apply IH. lia.
Qed.

(** *** Bookkeeping lemmas on callers, nodes and the log *)

Lemma issued_app_called (calls : list callback_call) (log : list log_entry) :
  issued (map Called calls ++ log) = issued log.
Proof. induction calls as [|x calls IH]; [reflexivity | exact IH]. Qed.

Lemma in_returned_app_called (calls : list callback_call) (log : list log_entry)
  (id : string) (res : request_result) :
  In (Returned id res) (map Called calls ++ log) -> In (Returned id res) log.
Proof.
  induction calls as [|x calls IH]; [trivial|].
  cbn. intros [H|H]; [discriminate | apply IH; exact H].
Qed.

Lemma caller_at_In (l : list caller) (addr : nat) (k : caller) :
  caller_at l addr = Some k -> In k l /\ caller_req k = addr.
Proof.
  induction l as [|x l IH]; [discriminate|].
  cbn [caller_at]. destruct (Nat.eqb_spec (caller_req x) addr) as [E|N].
  - intros H. inversion H; subst. split; [left|]; reflexivity.
  - intros H. destruct (IH H). split; [right|]; assumption.
Qed.

Lemma drop_caller_incl (l : list caller) (addr : nat) (k : caller) :
  In k (drop_caller l addr) -> In k l.
Proof.
  induction l as [|x l IH]; [intros []|].
  cbn [drop_caller]. destruct (Nat.eqb (caller_req x) addr).
  - intros H. right. exact H.
  - intros [H|H]; [left; exact H | right; apply IH; exact H].
Qed.

Lemma drop_caller_NoDup (l : list caller) (addr : nat) :
  NoDup (map caller_req l) ->
  NoDup (map caller_req (drop_caller l addr)) /\
  (forall k, In k (drop_caller l addr) -> caller_req k <> addr).
Proof.
  induction l as [|x l IH]; intros H.
  - split; [constructor | intros k []].
  - inversion H as [|? ? Hx Hl]; subst. cbn [drop_caller].
    destruct (Nat.eqb_spec (caller_req x) addr) as [E|N].
    + split; [exact Hl|]. intros k Hk Ek. apply Hx. rewrite E, <- Ek.
      apply in_map. exact Hk.
    + destruct (IH Hl) as [Hnd Hne]. split.
      * cbn [map]. constructor; [|exact Hnd].
        intros Hin. apply Hx. apply in_map_iff in Hin.
        destruct Hin as (k & Ek & Hk). apply in_map_iff. exists k.
        split; [exact Ek | eapply drop_caller_incl; exact Hk].
      * intros k [<-|Hk]; [exact N | apply Hne; exact Hk].
Qed.

Lemma move_caller_reqs (l : list caller) (addr : nat) (pc : wait_pc) :
  map caller_req (move_caller l addr pc) = map caller_req l.
Proof.
  induction l as [|x l IH]; [reflexivity|].
  cbn [move_caller]. destruct (Nat.eqb (caller_req x) addr); cbn [map caller_req].
  - reflexivity.
  - rewrite IH. reflexivity.
Qed.

Lemma move_caller_In (l : list caller) (addr : nat) (pc : wait_pc) (k : caller) :
  In k (move_caller l addr pc) ->
  exists k0, In k0 l /\ caller_req k0 = caller_req k /\ caller_id k0 = caller_id k.
Proof.
  induction l as [|x l IH]; [intros []|].
  cbn [move_caller]. destruct (Nat.eqb (caller_req x) addr).
  - intros [<-|H].
    + exists x. repeat split. left. reflexivity.
    + exists k. repeat split. right. exact H.
  - intros [<-|H].
    + exists x. repeat split. left. reflexivity.
    + destruct (IH H) as (k0 & H0 & E). exists k0. split; [right; exact H0 | exact E].
Qed.

Lemma node_at_unlink_other (l : list pending_request_t) (a b : nat) :
  a <> b -> node_at (unlink l a) b = node_at l b.
Proof.
  intros Hab. induction l as [|x l IH]; [reflexivity|].
  cbn [unlink node_at].
  destruct (Nat.eqb_spec (req_addr x) a) as [Ea|Na].
  - destruct (Nat.eqb_spec (req_addr x) b) as [Eb|Nb]; [congruence | reflexivity].
  - cbn [node_at]. rewrite IH. reflexivity.
Qed.

Lemma dispatch_response_from_node (l : list pending_request_t)
  (id json : string) (a : nat) (r : pending_request_t) :
  node_at l a = Some r ->
  exists r', node_at (dispatch_response_from l id json) a = Some r'
             /\ req_id r' = req_id r.
Proof.
  induction l as [|x l IH]; [discriminate|].
  cbn [node_at dispatch_response_from].
  destruct (streq (req_id x) id); cbn [node_at req_addr];
    destruct (Nat.eqb (req_addr x) a).
  - intros H. inversion H; subst. eexists. split; reflexivity.
  - intros H. exists r. split; [exact H | reflexivity].
  - intros H. inversion H; subst. exists r. split; reflexivity.
  - exact IH.
Qed.

Lemma dispatch_response_from_ids (l : list pending_request_t) (id json : string) :
  map req_id (dispatch_response_from l id json) = map req_id l.
Proof.
  induction l as [|x l IH]; [reflexivity|].
  cbn [dispatch_response_from]. destruct (streq (req_id x) id); cbn [map req_id].
  - reflexivity.
  - rewrite IH. reflexivity.
Qed.

Lemma dispatch_response_from_In (l : list pending_request_t) (id json : string)
  (r' : pending_request_t) :
  In r' (dispatch_response_from l id json) ->
  exists r, In r l /\ req_id r' = req_id r /\
            (req_response r' = req_response r \/
             (req_response r' = Some json /\ req_id r = id)).
Proof.
  induction l as [|x l IH]; [intros []|].
  cbn [dispatch_response_from]. unfold streq.
  destruct (String.eqb_spec (req_id x) id) as [E|N].
  - intros [<-|H].
    + exists x. split; [left; reflexivity|]. split; [reflexivity|].
      right. split; [reflexivity | exact E].
    + exists r'. split; [right; exact H|]. split; [reflexivity | left; reflexivity].
  - intros [<-|H].
    + exists x. split; [left; reflexivity|]. split; [reflexivity | left; reflexivity].
    + destruct (IH H) as (r & Hr & E). exists r. split; [right; exact Hr | exact E].
Qed.

Lemma reader_route_effect (c : sqrl_client_t) (json : string) :
  fst (reader_route c json) = c \/
  exists id, json_get_string json "id" = Some id /\
             fst (reader_route c json) = dispatch_response c id json.
Proof.
  unfold reader_route.
  destruct (json_get_string json "id") as [id|]; [|left; reflexivity].
  destruct (json_get_string json "type") as [ty|]; [|left; reflexivity].
  destruct (streq ty "change").
  - destruct (json_get_object json "change"); left; reflexivity.
  - right. exists id. split; reflexivity.
Qed.

Lemma reader_iteration_effect (c : sqrl_client_t) (s : socket) :
  request_id (run_client (reader_iteration c s)) = request_id c /\
  (pending_requests (run_client (reader_iteration c s)) = pending_requests c \/
   exists id json,
     json_get_string json "id" = Some id /\
     pending_requests (run_client (reader_iteration c s))
     = dispatch_response_from (pending_requests c) id json).
Proof.
  unfold reader_iteration.
  destruct (reader_running c); cbn [negb]; [|split; [|left]; reflexivity].
  destruct (recv_frame s) as [[t payload | err |] s'].
  - set (json := c_str (string_of_list_byte payload)).
    pose proof (reader_route_effect c json) as E.
    destruct (reader_route c json) as [c' calls]. cbn [fst run_client] in *.
    destruct E as [->|(id & Hid & ->)].
    + split; [|left]; reflexivity.
    + split; [reflexivity|]. right. exists id, json. split; [exact Hid|reflexivity].
  - split; [|left]; reflexivity.
  - split; [|left]; reflexivity.
Qed.

(** *** The invariant *)

(** Name the parts of a system and reduce the projections on it. *)
Ltac open_system sys :=
  destruct sys as [c s d callers log];
  cbn [sys_client sys_socket sys_reader_done sys_callers sys_log] in *.


Lemma pending_remove_add (c : sqrl_client_t) (addr : nat) (id : string) :
  pending_remove (pending_add c addr id) addr = c.
Proof.
  unfold pending_remove, pending_add. destruct c. cbn.
  rewrite Nat.eqb_refl. reflexivity.
Qed.

Lemma send_request_begin_cases (c : sqrl_client_t) (s : socket)
  (json id : string) (addr : nat) :
  exists s',
    send_request_begin c s json id addr = (None, pending_add c addr id, s') \/
    send_request_begin c s json id addr = (Some (SQRL_ERR_SEND, None), c, s').
Proof.
  unfold send_request_begin, send_frame.
  destruct (sock_send_all s (frame_of json)) as [[|] s'];
    exists s'; [left | right; rewrite pending_remove_add]; reflexivity.
Qed.

Lemma addr_not_in_use (c : sqrl_client_t) (addr : nat) (r : pending_request_t) :
  addr_in_use c addr = false -> In r (pending_requests c) -> req_addr r <> addr.
Proof.
  unfold addr_in_use. intros H Hr E.
  assert (T : existsb (fun r => Nat.eqb (req_addr r) addr) (pending_requests c) = true).
  { apply existsb_exists. exists r. split; [exact Hr | apply Nat.eqb_eq; exact E]. }
  congruence.
Qed.

Lemma boot_inv (c : sqrl_client_t) (s : socket) :
  request_id c = 0 -> pending_requests c = [] -> sys_inv (boot c s).
Proof.
  intros Hid Hp. constructor; cbn.
  - exact Hid.
  - reflexivity.
  - intros k [].
  - constructor.
  - rewrite Hp. intros r [].
  - rewrite Hp. intros r json [].
  - intros id json [].
  - intros _. rewrite Hp. constructor.
Qed.

Lemma submit_inv (sys : system) (addr : nat) (build : string -> string) :
  sys_inv sys ->
  addr_in_use (sys_client sys) addr = false ->
  sys_inv (submit sys addr build).
Proof.
  intros [Hc Hi Hk Hkn Hp Hr Hret Hnd] Hfree.
  open_system sys.
  unfold submit. cbn [sys_client sys_socket sys_reader_done sys_callers sys_log].
  destruct (connected c); cbn [negb].
  2: { constructor; cbn [sys_client sys_socket sys_reader_done sys_callers
         sys_log issued]; try assumption.
       intros id json [H|H]; [discriminate | apply Hret; exact H]. }
  rewrite next_request_id_spec.
  set (n := List.length (issued log)) in *.
  assert (Eid : fmt_llu (request_id c + 1) = id_of (S n))
    by (rewrite Hc; apply fmt_llu_u64_succ).
  assert (Ecnt : u64 (request_id c + 1) = u64 (Z.of_nat (S n))).
  { rewrite Hc. unfold u64. rewrite Zplus_mod_idemp_l, Nat2Z.inj_succ. reflexivity. }
  rewrite Eid.
  set (c1 := set_request_id c (u64 (request_id c + 1))).
  assert (Hp1 : pending_requests c1 = pending_requests c) by reflexivity.
  destruct (send_request_begin_cases c1 s (build (id_of (S n))) (id_of (S n)) addr)
    as (s' & [E|E]); rewrite E.
  - (* the frame went out: the caller waits *)
    constructor; cbn [sys_client sys_socket sys_reader_done sys_callers sys_log
      issued List.length pending_add pending_requests set_pending c1
      set_request_id request_id].
    + exact Ecnt.
    + cbn [ids_upto]. f_equal. exact Hi.
    + intros k [<-|Hin].
      * cbn [caller_req caller_id node_at req_addr]. rewrite Nat.eqb_refl.
        eexists. split; reflexivity.
      * destruct (Hk k Hin) as (r & Hnode & Hrid).
        exists r. split; [|exact Hrid]. cbn [node_at req_addr].
        destruct (node_at_In _ _ _ Hnode) as [Hrin Hra].
        destruct (Nat.eqb_spec addr (caller_req k)) as [Ea|_]; [|exact Hnode].
        exfalso. apply (addr_not_in_use c addr r Hfree Hrin). congruence.
    + cbn [map caller_req]. constructor; [|exact Hkn].
      intros Hin. apply in_map_iff in Hin. destruct Hin as (k & Ek & Hin).
      destruct (Hk k Hin) as (r & Hnode & _).
      destruct (node_at_In _ _ _ Hnode) as [Hrin Hra].
      apply (addr_not_in_use c addr r Hfree Hrin). congruence.
    + intros r [<-|Hin]; [left; reflexivity | right; apply Hp; exact Hin].
    + intros r json [<-|Hin]; [discriminate | apply Hr; exact Hin].
    + intros id json [H|H]; [discriminate|].
      destruct (Hret id json H) as [Hin Hj]. split; [right; exact Hin | exact Hj].
    + intros Hn. cbn [map req_id]. constructor.
      * intros Hin. apply in_map_iff in Hin. destruct Hin as (r & Er & Hin).
        apply Hp in Hin. rewrite Hi, Er in Hin.
        exact (id_of_fresh n Hn Hin).
      * apply Hnd. lia.
  - (* the send failed: the node is unlinked again *)
    constructor; cbn [sys_client sys_socket sys_reader_done sys_callers sys_log
      issued List.length pending_requests c1 set_request_id request_id].
    + exact Ecnt.
    + cbn [ids_upto]. f_equal. exact Hi.
    + exact Hk.
    + exact Hkn.
    + intros r Hin. right. apply Hp. exact Hin.
    + exact Hr.
    + intros id json [H|[H|H]]; [discriminate | discriminate |].
      destruct (Hret id json H) as [Hin Hj]. split; [right; exact Hin | exact Hj].
    + intros Hn. apply Hnd. lia.
Qed.

Lemma send_request_test_result (c : sqrl_client_t) (addr : nat)
  (res : request_result) (c' : sqrl_client_t) :
  send_request_test c addr = Some (res, c') ->
  c' = pending_remove c addr /\
  (forall json, res = (SQRL_OK, Some json) ->
     exists r, node_at (pending_requests c) addr = Some r
               /\ req_response r = Some json).
Proof.
  unfold send_request_test, send_request_cleanup.
  destruct (node_at (pending_requests c) addr) as [r|] eqn:Hn; [|discriminate].
  destruct (req_completed r); [|discriminate].
  intros H. inversion H; subst. split; [reflexivity|].
  intros json Hj. exists r. split; [reflexivity|].
  destruct (req_response r); inversion Hj; reflexivity.
Qed.

Lemma send_request_wake_result (c : sqrl_client_t) (addr : nat) (ret : wait_ret)
  (res : request_result) (c' : sqrl_client_t) :
  send_request_wake c addr ret = Some (res, c') ->
  c' = pending_remove c addr /\ res = (SQRL_ERR_TIMEOUT, None).
Proof.
  unfold send_request_wake, send_request_cleanup.
  destruct ret; [discriminate|].
  intros H. inversion H; subst. split; reflexivity.
Qed.

Lemma caller_moves_inv (sys : system) (k : caller)
  (out : option (request_result * sqrl_client_t)) (pc : wait_pc) :
  sys_inv sys ->
  In k (sys_callers sys) ->
  (forall res c', out = Some (res, c') ->
     c' = pending_remove (sys_client sys) (caller_req k) /\
     (forall json, res = (SQRL_OK, Some json) ->
        exists r, node_at (pending_requests (sys_client sys)) (caller_req k) = Some r
                  /\ req_response r = Some json)) ->
  sys_inv (caller_moves sys k out pc).
Proof.
  intros [Hc Hi Hk Hkn Hp Hr Hret Hnd] Hin Hout.
  open_system sys.
  unfold caller_moves. cbn [sys_client sys_socket sys_reader_done sys_callers sys_log].
  destruct out as [[res c']|].
  - destruct (Hout res c' eq_refl) as [-> Hres].
    destruct (drop_caller_NoDup callers (caller_req k) Hkn) as [Hnd' Hother].
    constructor; cbn [sys_client sys_socket sys_reader_done sys_callers sys_log
      issued pending_remove pending_requests set_pending request_id].
    + exact Hc.
    + exact Hi.
    + intros k' Hk'. rewrite node_at_unlink_other by (apply not_eq_sym, Hother, Hk').
      apply Hk. eapply drop_caller_incl. exact Hk'.
    + exact Hnd'.
    + intros r Hrin. apply Hp. eapply unlink_incl. exact Hrin.
    + intros r json Hrin. apply Hr. eapply unlink_incl. exact Hrin.
    + intros id json [H|H].
      * inversion H; subst.
        destruct (Hres json eq_refl) as (r & Hnode & Hresp).
        destruct (Hk k Hin) as (r0 & Hnode0 & Hid0).
        rewrite Hnode in Hnode0. inversion Hnode0; subst r0.
        destruct (node_at_In _ _ _ Hnode) as [Hrin _].
        rewrite <- Hid0. split; [apply Hp; exact Hrin | apply Hr; assumption].
      * apply Hret. exact H.
    + intros Hn. apply unlink_ids_NoDup. apply Hnd. exact Hn.
  - constructor; cbn [sys_client sys_socket sys_reader_done sys_callers sys_log];
      try assumption.
    + intros k' Hk'. destruct (move_caller_In _ _ _ _ Hk') as (k0 & H0 & Ereq & Eid).
      rewrite <- Ereq, <- Eid. apply Hk. exact H0.
    + rewrite move_caller_reqs. exact Hkn.
Qed.

Lemma reader_step_inv (sys : system) (done : bool) (log' : list log_entry) :
  sys_inv sys ->
  issued log' = issued (sys_log sys) ->
  (forall id res, In (Returned id res) log' -> In (Returned id res) (sys_log sys)) ->
  sys_inv (mkSystem (run_client (reader_iteration (sys_client sys) (sys_socket sys)))
             (run_socket (reader_iteration (sys_client sys) (sys_socket sys)))
             done (sys_callers sys) log').
Proof.
  intros [Hc Hi Hk Hkn Hp Hr Hret Hnd] Hiss Hlog.
  open_system sys.
  destruct (reader_iteration_effect c s) as [Hrid Hpend].
  set (c' := run_client (reader_iteration c s)) in *.
  constructor; cbn [sys_client sys_socket sys_reader_done sys_callers sys_log];
    rewrite ?Hiss, ?Hrid; try assumption.
  - intros k Hin. destruct (Hk k Hin) as (r & Hnode & Hid).
    destruct Hpend as [->|(id & json & _ & ->)]; [exists r; split; assumption|].
    destruct (dispatch_response_from_node _ id json _ _ Hnode) as (r' & Hn' & Hid').
    exists r'. split; [exact Hn' | congruence].
  - intros r Hin. destruct Hpend as [E|(id & json & _ & E)]; rewrite E in Hin.
    + apply Hp. exact Hin.
    + destruct (dispatch_response_from_In _ _ _ _ Hin) as (r0 & Hin0 & Eid & _).
      rewrite Eid. apply Hp. exact Hin0.
  - intros r json0 Hin Hresp.
    destruct Hpend as [E|(id & json & Hid & E)]; rewrite E in Hin.
    + apply Hr; assumption.
    + destruct (dispatch_response_from_In _ _ _ _ Hin)
        as (r0 & Hin0 & Eid & [Esame|[Enew Ematch]]).
      * rewrite Eid. apply Hr; [exact Hin0 | congruence].
      * rewrite Enew in Hresp. inversion Hresp; subst json0.
        rewrite Eid, Ematch. exact Hid.
  - intros id json H. apply Hret. apply Hlog. exact H.
  - intros Hn. destruct Hpend as [->|(id & json & _ & ->)].
    + apply Hnd. exact Hn.
    + rewrite dispatch_response_from_ids. apply Hnd. exact Hn.
Qed.

Lemma step_inv (sys sys' : system) (ev : event) :
  sys_inv sys -> step sys ev = Some sys' -> sys_inv sys'.
Proof.
  intros Hinv. destruct ev as [addr build | addr | addr ret |]; cbn [step].
  - destruct (addr_in_use (sys_client sys) addr) eqn:U; [discriminate|].
    intros H. inversion H; subst. apply submit_inv; assumption.
  - destruct (caller_at (sys_callers sys) addr) as [k|] eqn:K; [|discriminate].
    destruct (caller_at_In _ _ _ K) as [Hin <-].
    destruct (caller_pc k); [|discriminate].
    intros H. inversion H; subst. apply caller_moves_inv; [assumption..|].
    intros res c' E. apply send_request_test_result. exact E.
  - destruct (caller_at (sys_callers sys) addr) as [k|] eqn:K; [|discriminate].
    destruct (caller_at_In _ _ _ K) as [Hin <-].
    destruct (caller_pc k); [discriminate|].
    intros H. inversion H; subst. apply caller_moves_inv; [assumption..|].
    intros res c' E. destruct (send_request_wake_result _ _ _ _ _ E) as [-> ->].
    split; [reflexivity | intros json Hj; discriminate].
  - destruct (sys_reader_done sys); [discriminate|].
    destruct (run_status (reader_iteration (sys_client sys) (sys_socket sys)));
      intros H; inversion H; subst; apply reader_step_inv; try assumption;
      try reflexivity; try (intros id res Hin; exact Hin).
    + apply issued_app_called.
    + intros id res. apply in_returned_app_called.
Qed.

Lemma run_inv (trace : list event) :
  forall sys sys', sys_inv sys -> run sys trace = Some sys' -> sys_inv sys'.
Proof.
  induction trace as [|ev trace IH]; intros sys sys' Hinv H; cbn [run] in H.
  - inversion H; subst. exact Hinv.
  - destruct (step sys ev) as [sys1|] eqn:S; [|discriminate].
    eapply IH; [eapply step_inv; eassumption | exact H].
Qed.

(** ** Failure of the reader thread *)

Lemma step_no_completion (sys sys' : system) (ev : event) :
  sys_reader_done sys = true ->
  step sys ev = Some sys' ->
  sys_reader_done sys' = true /\
  (forall r, In r (pending_requests (sys_client sys')) ->
             req_completed r = true ->
             In r (pending_requests (sys_client sys))).
Proof.
  intros Hdone. destruct sys as [c s d callers log].
  cbn [sys_reader_done] in Hdone. subst d.
  destruct ev as [addr build | addr | addr ret |];
    cbn [step sys_client sys_socket sys_callers sys_reader_done sys_log].
  - destruct (addr_in_use c addr); [discriminate|].
    intros H. inversion H; subst. clear H. unfold submit.
    cbn [sys_client sys_socket sys_callers sys_reader_done sys_log].
    destruct (connected c); cbn [negb]; [|split; [reflexivity | auto]].
    rewrite next_request_id_spec.
    destruct (send_request_begin_cases (set_request_id c (u64 (request_id c + 1))) s
                (build (fmt_llu (request_id c + 1))) (fmt_llu (request_id c + 1)) addr)
      as (s' & [E|E]); rewrite E; split; try reflexivity;
      cbn [sys_client pending_add pending_requests set_pending set_request_id].
    + intros r [<-|Hin]; [discriminate | auto].
    + auto.
  - destruct (caller_at callers addr) as [k|]; [|discriminate].
    destruct (caller_pc k); [|discriminate].
    intros H. inversion H; subst. clear H. unfold caller_moves.
    cbn [sys_client sys_socket sys_callers sys_reader_done sys_log].
    destruct (send_request_test c addr) as [[res c']|] eqn:T;
      [|split; [reflexivity | auto]].
    destruct (send_request_test_result _ _ _ _ T) as [-> _].
    split; [reflexivity|]. intros r Hin _. eapply unlink_incl. exact Hin.
  - destruct (caller_at callers addr) as [k|]; [|discriminate].
    destruct (caller_pc k); [discriminate|].
    intros H. inversion H; subst. clear H. unfold caller_moves.
    cbn [sys_client sys_socket sys_callers sys_reader_done sys_log].
    destruct (send_request_wake c addr ret) as [[res c']|] eqn:T;
      [|split; [reflexivity | auto]].
    destruct (send_request_wake_result _ _ _ _ _ T) as [-> _].
    split; [reflexivity|]. intros r Hin _. eapply unlink_incl. exact Hin.
  - discriminate.
Qed.

Lemma run_no_completion (trace : list event) :
  forall sys sys',
    sys_reader_done sys = true ->
    run sys trace = Some sys' ->
    sys_reader_done sys' = true /\
    (forall r, In r (pending_requests (sys_client sys')) ->
               req_completed r = true ->
               In r (pending_requests (sys_client sys))).
Proof.
  induction trace as [|ev trace IH]; intros sys sys' Hdone H; cbn [run] in H.
  - inversion H; subst. split; [exact Hdone | auto].
  - destruct (step sys ev) as [sys1|] eqn:S; [|discriminate].
    destruct (step_no_completion _ _ _ Hdone S) as [Hdone1 Hkeep].
    destruct (IH sys1 sys' Hdone1 H) as [Hdone' Hkeep'].
    split; [exact Hdone'|].
    intros r Hin Hc. apply Hkeep; [|exact Hc]. apply Hkeep'; assumption.
Qed.

Lemma reader_step_failure (sys : system) (err : sqrl_error_t) (s' : socket) :
  sys_reader_done sys = false ->
  reader_running (sys_client sys) = true ->
  recv_frame (sys_socket sys) = (FrameErr err, s') ->
  step sys EvReader
  = Some (mkSystem (set_connected (sys_client sys) false) s' true
            (sys_callers sys) (sys_log sys)).
Proof.
  intros Hd Hr Hf. cbn [step]. rewrite Hd. unfold reader_iteration.
  rewrite Hr, Hf. reflexivity.
Qed.

(** C1, as amended.  When [recv_frame] fails in the reader thread while
    [reader_running] is set, the client is marked not connected and the
    thread returns.  The pending list is left as it was: a request that
    was not completed stays so, its caller finds [completed] unset at the
    loop test, is sent back to it by any wake-up other than a timeout,
    and returns [SQRL_ERR_TIMEOUT] when its own timed wait expires; and
    whatever the callers do afterwards, no request is completed once the
    reader thread has ended.  As long as [reader_running] is set the
    loop ends in no other way. *)
Theorem reader_failure_leaves_requests_waiting (c : sqrl_client_t)
  (s s' : socket) (err : sqrl_error_t) :
  reader_running c = true ->
  recv_frame s = (FrameErr err, s') ->
  let c' := set_connected c false in
  (forall fuel,
     reader_thread_func (S fuel) c s = mkReaderRun (ReaderBroke err) c' s' []) /\
  connected c' = false /\
  pending_requests c' = pending_requests c /\
  (forall addr req,
     node_at (pending_requests c) addr = Some req ->
     req_completed req = false ->
     send_request_test c' addr = None /\
     send_request_wake c' addr WaitWoken = None /\
     send_request_wake c' addr WaitTimedOut =
       Some ((SQRL_ERR_TIMEOUT, None), pending_remove c' addr)) /\
  (forall callers log trace sys,
     run (mkSystem c s false callers log) (EvReader :: trace) = Some sys ->
     sys_reader_done sys = true /\
     forall r, In r (pending_requests (sys_client sys)) ->
               req_completed r = true -> In r (pending_requests c)) /\
  (forall fuel c0 s0,
     reader_running c0 = true ->
     run_status (reader_thread_func fuel c0 s0) <> ReaderFlagCleared).
Proof.
  intros Hr Hf c'. split; [|split; [|split; [|split; [|split]]]].
  - intros fuel. cbn [reader_thread_func]. unfold reader_iteration.
    rewrite Hr, Hf. reflexivity.
  - reflexivity.
  - reflexivity.
  - intros addr req Hnode Hopen. split; [|split]; try reflexivity.
    unfold send_request_test. subst c'.
    rewrite pending_set_connected, Hnode, Hopen. reflexivity.
  - intros callers log trace sys Hrun. cbn [run] in Hrun.
    rewrite (reader_step_failure (mkSystem c s false callers log) err s'
               eq_refl Hr Hf) in Hrun.
    cbn [sys_client sys_callers sys_log] in Hrun.
    apply run_no_completion in Hrun; [exact Hrun | reflexivity].
  - intros fuel c0 s0 H0. apply reader_runs_until_break. exact H0.
Qed.

Lemma reader_failure_leaves_requests_waiting_witness :
  reader_thread_func 1 sample_client closing_socket
  = mkReaderRun (ReaderBroke SQRL_ERR_RECV) (set_connected sample_client false)
      closing_socket [].
Proof.
  refine (proj1 (reader_failure_leaves_requests_waiting sample_client
                   closing_socket closing_socket SQRL_ERR_RECV _ _) O).
  - reflexivity.
  - vm_compute. reflexivity.
Defined.

(** C1 as stated fails.  A ping is sent and its caller waits; then the
    peer closes.  The reader thread ends and the client is marked not
    connected, but the request is not completed and its caller is still
    in the timed wait; woken, it finds [completed] unset and waits
    again; it returns only when the wait times out, with
    [SQRL_ERR_TIMEOUT], not [SQRL_ERR_RECV] or [SQRL_ERR_CLOSED]. *)
Lemma reader_failure_completes_nothing :
  option_map
    (fun sys => (sys_reader_done sys, connected (sys_client sys),
                 map req_completed (pending_requests (sys_client sys)),
                 map caller_pc (sys_callers sys), sys_log sys))
    (run (boot (fresh_client 3 30000) closing_socket)
       [EvSubmit 100 ping_json; EvTest 100; EvReader])
  = Some (true, false, [false], [InTimedWait], [Issued "1"]) /\
  option_map sys_log
    (run (boot (fresh_client 3 30000) closing_socket)
       [EvSubmit 100 ping_json; EvTest 100; EvReader;
        EvWake 100 WaitWoken; EvTest 100; EvWake 100 WaitTimedOut])
  = Some [Returned "1" (SQRL_ERR_TIMEOUT, None); Issued "1"].
Proof. split; vm_compute; reflexivity. Qed.

Lemma sqrl_connect_boots (host : option string) (port : Z)
  (options : option sqrl_options_t) (env : connect_env)
  (c : sqrl_client_t) (s : socket) :
  sqrl_connect true host port options env = (Some SQRL_OK, Some (c, s)) ->
  request_id c = 0 /\ pending_requests c = [] /\
  connected c = true /\ reader_running c = true.
Proof.
  unfold sqrl_connect. destruct host as [h|]; [|discriminate].
  destruct (negb (env_resolves env)); [discriminate|].
  destruct (env_fd env <? 0); [discriminate|].
  destruct (negb (env_connects env)); [discriminate|].
  unfold do_handshake.
  destruct (sock_send_all (env_peer env) (handshake_packet options)) as [[|] s1];
    [|cbn; discriminate].
  destruct (sock_recv_all s1 19 (handshake_timeout options)) as [[resp | e |] s2];
    [|cbn; discriminate|discriminate].
  repeat match goal with
         | |- context [if ?b then _ else _] => destruct b
         end; cbn; intros H; inversion H; subst; repeat split.
Qed.

(** ** Overlapping calls *)

(** C8.  The claim does not hold of the code.  Two threads call
    [sqrl_ping] on one connection and both read [request_id] before
    either writes it, which nothing prevents since the increment in
    [next_request_id] is made outside every lock.  Both calls are given
    the id "1": two requests with one id are outstanding at once, the
    pending list holds two nodes with that id and the same frame goes
    out twice.  When the server then answers both, the reader thread
    hands both answers to the node at the head of the list: its caller
    returns with [SQRL_OK], and the other call, though answered, runs
    into its timeout. *)
Theorem overlapping_calls_share_an_id :
  increments_whole racing_pings = false /\
  option_map seen_of
    (fine_run (fine_boot (fresh_client 3 30000) (mkSocket [] [] [])) racing_pings)
  = Some (1, ["1"; "1"],
          [(200%nat, "1", false); (100%nat, "1", false)],
          [(200%nat, "1"); (100%nat, "1")],
          [Issued "1"; Issued "1"]) /\
  option_map (fun f => wire (sys_socket (fine_sys f)))
    (fine_run (fine_boot (fresh_client 3 30000) (mkSocket [] [] [])) racing_pings)
  = Some (frame_of (ping_json "1") ++ frame_of (ping_json "1")) /\
  option_map seen_of
    (fine_run (fine_boot (fresh_client 3 30000) two_pongs_socket)
       racing_pings_answered)
  = Some (1, ["1"; "1"], [], [],
          [Returned "1" (SQRL_ERR_TIMEOUT, None);
           Returned "1" (SQRL_OK, Some (js "{'type':'pong','id':'1'}"));
           Issued "1"; Issued "1"]).
Proof. repeat split; vm_compute; reflexivity. Qed.

(** C2.  The claim does not hold of the code.  After the two
    overlapping calls of [racing_pings], both waiting under the id "1",
    the first runs into its timeout: it returns [SQRL_ERR_TIMEOUT] and
    unlinks its node, but the pending list still holds the id, on the
    node of the other call.  A response with that id that arrives now
    is not dropped: the reader thread completes the other node with
    it, and the other call returns it with [SQRL_OK]. *)
Theorem timeout_leaves_shared_id_pending :
  option_map seen_of
    (fine_run (fine_boot (fresh_client 3 30000) pong_socket) racing_pings_timeout)
  = Some (1, ["1"; "1"], [(200%nat, "1", false)], [(200%nat, "1")],
          [Returned "1" (SQRL_ERR_TIMEOUT, None); Issued "1"; Issued "1"]) /\
  option_map seen_of
    (fine_run (fine_boot (fresh_client 3 30000) pong_socket)
       (racing_pings_timeout ++ [FeReader]))
  = Some (1, ["1"; "1"], [(200%nat, "1", true)], [(200%nat, "1")],
          [Returned "1" (SQRL_ERR_TIMEOUT, None); Issued "1"; Issued "1"]) /\
  option_map seen_of
    (fine_run (fine_boot (fresh_client 3 30000) pong_socket)
       (racing_pings_timeout ++ [FeReader; FeWake 200 WaitWoken; FeTest 200]))
  = Some (1, ["1"; "1"], [], [],
          [Returned "1" (SQRL_OK, Some (js "{'type':'pong','id':'1'}"));
           Returned "1" (SQRL_ERR_TIMEOUT, None); Issued "1"; Issued "1"]).
Proof. repeat split; vm_compute; reflexivity. Qed.

(** The reader thread takes the id of a message from the first "id"
    field in its text, wherever that stands: a response to request "2"
    whose data mentions the id "1" before is handed to request "1". *)
Example reader_routes_by_first_id :
  map (fun r => (req_id r, req_response r))
    (pending_requests (fst (reader_route two_pending nested_id_response)))
  = [("2", None); ("1", Some nested_id_response)].
Proof. vm_compute. reflexivity. Qed.

(** *** The counter wraps *)

Lemma run_app (a b : list event) :
  forall sys,
    run sys (a ++ b) = match run sys a with
                       | Some sys' => run sys' b
                       | None => None
                       end.
Proof.
  induction a as [|ev a IH]; intros sys; [reflexivity|].
  cbn [app run]. destruct (step sys ev); [apply IH | reflexivity].
Qed.

Lemma send_all_nil (buf : list byte) : send_all [] buf = (true, buf, []).
Proof. destruct buf; reflexivity. Qed.

Lemma send_request_begin_idle (c : sqrl_client_t) (s : socket)
  (json id : string) (addr : nat) :
  net_out s = [] ->
  send_request_begin c s json id addr
  = (None, pending_add c addr id,
     mkSocket (net_in s) [] (wire s ++ frame_of json)).
Proof.
  intros H. unfold send_request_begin, send_frame, sock_send_all.
  rewrite H, send_all_nil. reflexivity.
Qed.

Lemma submit_idle (sys : system) (addr : nat) (build : string -> string) :
  idle sys ->
  exists id c1 s1,
    step sys (EvSubmit addr build)
    = Some (mkSystem c1 s1 (sys_reader_done sys)
              [mkCaller addr id AtLoopTest] (Issued id :: sys_log sys)) /\
    connected c1 = true /\
    pending_requests c1 = [mkPending addr id None SQRL_OK false] /\
    net_out s1 = [].
Proof.
  intros (Hc & Hp & Hk & Ho).
  cbn [step]. unfold addr_in_use. rewrite Hp. cbn [existsb].
  unfold submit. rewrite Hc. cbn [negb].
  rewrite next_request_id_spec.
  rewrite send_request_begin_idle by exact Ho. rewrite Hk.
  do 3 eexists. split; [reflexivity|].
  cbn [pending_add connected set_pending set_request_id pending_requests net_out].
  rewrite Hc, Hp. repeat split.
Qed.

Lemma timeout_round_idle (sys : system) :
  idle sys ->
  exists sys',
    run sys timeout_round = Some sys' /\
    idle sys' /\
    List.length (issued (sys_log sys')) = S (List.length (issued (sys_log sys))).
Proof.
  intros Hidle.
  destruct (submit_idle sys 0 ping_json Hidle) as (id & c1 & s1 & E & Hc & Hp & Ho).
  unfold timeout_round. cbn [run]. rewrite E.
  cbn [step sys_callers caller_at caller_req Nat.eqb caller_pc sys_client].
  unfold send_request_test. rewrite Hp.
  cbn [node_at req_addr Nat.eqb req_completed caller_moves sys_callers move_caller
       caller_req caller_id sys_client sys_socket sys_reader_done sys_log
       step caller_at caller_pc send_request_wake send_request_cleanup
       drop_caller].
  eexists. split; [reflexivity|]. split.
  - unfold idle, pending_remove.
    cbn [sys_client sys_callers sys_socket connected pending_requests set_pending].
    rewrite Hp. cbn [unlink req_addr Nat.eqb].
    repeat split; (assumption || reflexivity).
  - reflexivity.
Qed.

Lemma rounds_idle (n : nat) :
  forall sys,
    idle sys ->
    exists sys',
      run sys (rounds n) = Some sys' /\
      idle sys' /\
      List.length (issued (sys_log sys')) = (n + List.length (issued (sys_log sys)))%nat.
Proof.
  induction n as [|n IH]; intros sys Hidle.
  - exists sys. split; [reflexivity|]. split; [exact Hidle | reflexivity].
  - destruct (timeout_round_idle sys Hidle) as (sys1 & R1 & I1 & L1).
    destruct (IH sys1 I1) as (sys2 & R2 & I2 & L2).
    exists sys2. cbn [rounds]. rewrite run_app, R1.
    split; [exact R2|]. split; [exact I2|]. rewrite L2, L1. lia.
Qed.

Lemma last_ids_upto (n : nat) (d : string) :
  last (ids_upto (S n)) d = id_of 1 /\ In (id_of 1) (ids_upto (S n)).
Proof.
  induction n as [|n [IHl IHi]]; [split; [reflexivity | left; reflexivity]|].
  split.
  - change (ids_upto (S (S n))) with (id_of (S (S n)) :: ids_upto (S n)).
    change (ids_upto (S n)) with (id_of (S n) :: ids_upto n) in *.
    exact IHl.
  - right. exact IHi.
Qed.

Lemma wrap_trace_issued (n : nat) :
  exists sys,
    run (boot (fresh_client 3 30000) (mkSocket [] [] []))
        (rounds n ++ [EvSubmit 0 ping_json]) = Some sys /\
    issued (sys_log sys) = ids_upto (S n).
Proof.
  assert (I0 : idle (boot (fresh_client 3 30000) (mkSocket [] [] [])))
    by (repeat split).
  destruct (rounds_idle n _ I0) as (sys1 & R1 & I1 & L1).
  destruct (submit_idle sys1 0 ping_json I1) as (id & c2 & s2 & E & _).
  eexists. split.
  - rewrite run_app, R1. cbn [run]. rewrite E. reflexivity.
  - assert (Hinv : sys_inv (mkSystem c2 s2 (sys_reader_done sys1)
                              [mkCaller 0 id AtLoopTest] (Issued id :: sys_log sys1))).
    { eapply step_inv; [|exact E].
      eapply run_inv; [|exact R1]. apply boot_inv; reflexivity. }
    destruct Hinv as [_ Hi _ _ _ _ _ _]. cbn [sys_log] in Hi |- *.
    rewrite Hi. cbn [issued List.length]. rewrite L1.
    cbn [boot sys_log issued List.length]. rewrite Nat.add_0_r. reflexivity.
Qed.

Lemma ids_upto_wraps (n : nat) :
  Z.of_nat n = 2 ^ 64 ->
  hd "" (ids_upto (S n)) = "1" /\
  last (ids_upto (S n)) "" = "1" /\
  ~ NoDup (ids_upto (S n)).
Proof.
  intros Hn.
  assert (Hhd : id_of (S n) = "1").
  { unfold id_of. rewrite Nat2Z.inj_succ, Hn. vm_compute. reflexivity. }
  assert (H1 : id_of 1 = "1") by (vm_compute; reflexivity).
  destruct n as [|m]; [discriminate|].
  destruct (last_ids_upto (S m) "") as [Hl _].
  destruct (last_ids_upto m "") as [_ Hin].
  split; [exact Hhd|]. split; [rewrite Hl; exact H1|].
  intros Hnd. cbn [ids_upto] in Hnd, Hin.
  inversion Hnd as [|x l Hx Hl']; subst.
  apply Hx. rewrite Hhd, <- H1. exact Hin.
Qed.

(** The counter has 64 bits.  After 2^64 requests on one connection,
    each sent and timed out, the next request is given the id "1"
    again, the id of the very first request. *)
Lemma correlation_id_reused_after_wrap :
  exists sys,
    run (boot (fresh_client 3 30000) (mkSocket [] [] [])) wrap_trace = Some sys /\
    hd "" (issued (sys_log sys)) = "1" /\
    last (issued (sys_log sys)) "" = "1" /\
    ~ NoDup (issued (sys_log sys)).
Proof.
  unfold wrap_trace.
  generalize (Z2Nat.id 18446744073709551616 ltac:(lia)).
  generalize (Z.to_nat 18446744073709551616). intros n Hn.
  destruct (wrap_trace_issued n) as (sys & R & I).
  exists sys. split; [exact R|].
  rewrite I. apply ids_upto_wraps. exact Hn.
Qed.

(** ** The global flag *)

Lemma sqrl_init_ok (g : bool) : fst (sqrl_init g) = SQRL_OK.
Proof. destruct g; reflexivity. Qed.

Lemma set_flag_step (p : process) (call : api_call) (b : bool) :
  is_lifecycle call = true ->
  set_flag (fst (api_step p call)) b = set_flag p b.
Proof.
  destruct call; try discriminate; intros _; destruct p as [g c s].
  - cbn. destruct g; reflexivity.
  - reflexivity.
Qed.

(** A call that goes through [settle]: both runs take the same branch
    of the operation's reply. *)
Ltac settle_cases reply :=
  unfold settle; destruct reply as [[[[? | ] ?] ?] ?]; reflexivity.

Lemma api_step_ignores_flag (p : process) (call : api_call) (b : bool) :
  is_lifecycle call = false ->
  api_step (set_flag p b) call
  = (set_flag (fst (api_step p call)) b, snd (api_step p call)).
Proof.
  destruct p as [g c s]. unfold set_flag.
  destruct call; try discriminate; intros _;
    cbn [api_step proc_client proc_socket g_initialized fst snd];
    try reflexivity.
  - destruct (sqrl_connect client_out host port options env) as [[e|] [[c' s']|]];
      reflexivity.
  - settle_cases (sqrl_ping c s env).
  - settle_cases (sqrl_query c s query result_out env).
  - settle_cases (sqrl_insert c s collection data doc_out env).
  - settle_cases (sqrl_update c s collection document_id data doc_out env).
  - settle_cases (sqrl_delete c s collection document_id doc_out env).
  - settle_cases (sqrl_list_collections c s names_out count_out env).
  - settle_cases (sqrl_subscribe c s query callback user_data sub_out env).
  - destruct (sqrl_unsubscribe c s sub) as [[e c'] s']. reflexivity.
  - destruct c; reflexivity.
Qed.

Lemma api_run_ignores_flag (calls : list api_call) :
  forall (p : process) (b : bool),
    filter (fun seen => negb (is_lifecycle (fst seen))) (snd (api_run p calls))
    = snd (api_run (set_flag p b)
             (filter (fun call => negb (is_lifecycle call)) calls)) /\
    set_flag (fst (api_run p calls)) b
    = fst (api_run (set_flag p b)
             (filter (fun call => negb (is_lifecycle call)) calls)).
Proof.
  induction calls as [|call rest IH]; intros p b.
  - split; reflexivity.
  - cbn [api_run filter].
    destruct (api_step p call) as [p1 obs] eqn:S.
    destruct (api_run p1 rest) as [p2 seen] eqn:R.
    destruct (IH p1 b) as [IHs IHp]. rewrite R in IHs, IHp. cbn [fst snd] in *.
    destruct (is_lifecycle call) eqn:L; cbn [negb filter fst snd];
      rewrite ?L; cbn [negb].
    + pose proof (set_flag_step p call b L) as F. rewrite S in F. cbn [fst] in F.
      rewrite <- F. split; assumption.
    + cbn [api_run]. rewrite (api_step_ignores_flag p call b L), S. cbn [fst snd].
      destruct (api_run (set_flag p1 b)
                  (filter (fun call => negb (is_lifecycle call)) rest))
        as [q2 seen'] eqn:R'.
      cbn [fst snd] in *. subst. split; reflexivity.
Qed.

Lemma api_run_init_ok (calls : list api_call) :
  forall (p : process) (obs : observation),
    In (CallInit, obs) (snd (api_run p calls)) -> obs = (RetError SQRL_OK, []).
Proof.
  induction calls as [|call rest IH]; intros p obs; [intros []|].
  cbn [api_run]. destruct (api_step p call) as [p1 o] eqn:S.
  destruct (api_run p1 rest) as [p2 seen] eqn:R. cbn [snd].
  intros [E|Hin].
  - inversion E; subst. cbn [api_step] in S.
    pose proof (sqrl_init_ok (g_initialized p)) as K.
    destruct (sqrl_init (g_initialized p)) as [err g]. cbn [fst] in K. subst err.
    inversion S; reflexivity.
  - apply (IH p1). rewrite R. exact Hin.
Qed.

(** C10.  [sqrl_init] returns [SQRL_OK] whatever the flag holds, so
    every call of it in any program does.  The flag is read by no other
    operation: take any program (a sequence of calls of the public
    functions with their arguments and environment), strike out its
    calls of [sqrl_init] and [sqrl_cleanup] and start it with the flag
    set either way; every remaining call observes the same result and
    callbacks as in the original run, and the runs end with the same
    client and socket. *)
Theorem init_flag_is_never_consulted (p : process) (b : bool)
  (calls : list api_call) :
  (forall g, fst (sqrl_init g) = SQRL_OK) /\
  (forall obs, In (CallInit, obs) (snd (api_run p calls)) ->
               obs = (RetError SQRL_OK, [])) /\
  filter (fun seen => negb (is_lifecycle (fst seen))) (snd (api_run p calls))
  = snd (api_run (set_flag p b)
           (filter (fun call => negb (is_lifecycle call)) calls)) /\
  same_but_flag (fst (api_run p calls))
    (fst (api_run (set_flag p b)
            (filter (fun call => negb (is_lifecycle call)) calls))).
Proof.
  split; [exact sqrl_init_ok|]. split; [apply api_run_init_ok|].
  destruct (api_run_ignores_flag calls p b) as [Hs Hp].
  split; [exact Hs|].
  rewrite <- Hp. split; reflexivity.
Qed.

Lemma init_flag_is_never_consulted_witness :
  map snd
    (filter (fun seen => negb (is_lifecycle (fst seen)))
       (snd (api_run no_connection small_program)))
  = [(RetBool false, []); (RetString (Some "Timeout"), [])].
Proof.
  rewrite (proj1 (proj2 (proj2
             (init_flag_is_never_consulted no_connection true small_program)))).
  vm_compute. reflexivity.
Defined.

(* ================================================================== *)
(** * Further properties of the code                                   *)
(* ================================================================== *)

(** ** Reading and writing the socket *)

Lemma rx_prepend_fst (bs : list byte) (r : rx_result * list net_event) :
  fst (rx_prepend bs r)
  = match fst r with
    | RxOk rest => RxOk (bs ++ rest)
    | other => other
    end.
Proof. destruct r as [[rest | e |] net]; reflexivity. Qed.

Lemma rx_prepend_snd (bs : list byte) (r : rx_result * list net_event) :
  snd (rx_prepend bs r) = snd r.
Proof. destruct r as [[rest | e |] net]; reflexivity. Qed.

Lemma recv_all_zero (net : list net_event) (timeout_ms : Z) :
  recv_all net 0 timeout_ms = (RxOk [], net).
Proof. destruct net; reflexivity. Qed.

Lemma recv_all_without_pauses (net : list net_event) :
  forall len : nat,
    fst (recv_all net len 0) = fst (recv_all (without_pauses net) len 0) /\
    without_pauses (snd (recv_all net len 0))
    = snd (recv_all (without_pauses net) len 0).
Proof.
  induction net as [|ev net IH]; intros len.
  - destruct len; split; reflexivity.
  - destruct len as [|n].
    { rewrite !recv_all_zero. split; reflexivity. }
    destruct ev as [chunk| | | |]; cbn [recv_all without_pauses].
    + destruct (List.length chunk <=? S n)%nat.
      * rewrite !rx_prepend_fst, !rx_prepend_snd.
        destruct (IH (S n - List.length chunk)%nat) as [-> ->].
        split; reflexivity.
      * split; reflexivity.
    + split; reflexivity.
    + split; reflexivity.
    + apply IH.
    + change (0 <? 0) with false. cbn iota. apply IH.
Qed.

Lemma recv_all_healthy (net : list net_event) :
  forall (len : nat) (timeout_ms : Z),
    healthy net = true -> timeout_ms <= 0 ->
    (len <= List.length (net_bytes net))%nat ->
    fst (recv_all net len timeout_ms) = RxOk (firstn len (net_bytes net)) /\
    net_bytes (snd (recv_all net len timeout_ms)) = skipn len (net_bytes net) /\
    healthy (snd (recv_all net len timeout_ms)) = true.
Proof.
  induction net as [|ev net IH]; intros len t Hh Ht Hlen.
  - cbn [net_bytes List.length] in Hlen.
    assert (len = 0%nat) by lia. subst len. repeat split; reflexivity.
  - destruct len as [|n].
    { rewrite recv_all_zero. cbn [fst snd firstn skipn]. auto. }
    assert (Hq : (0 <? t) = false) by (apply Z.ltb_ge; exact Ht).
    destruct ev as [chunk| | | |]; cbn [healthy] in Hh; try discriminate;
      cbn [recv_all net_bytes]; cbn [net_bytes] in Hlen; rewrite ?Hq.
    + destruct (List.length chunk <=? S n)%nat eqn:L.
      * apply Nat.leb_le in L.
        rewrite rx_prepend_fst, rx_prepend_snd.
        rewrite length_app in Hlen.
        destruct (IH (S n - List.length chunk)%nat t Hh Ht ltac:(lia))
          as (-> & -> & ->).
        rewrite firstn_app, skipn_app.
        rewrite (firstn_all2 (n := S n) chunk) by lia.
        rewrite (skipn_all2 (n := S n) chunk) by lia.
        repeat split; reflexivity.
      * apply Nat.leb_gt in L. cbn [fst snd net_bytes healthy].
        rewrite firstn_app, skipn_app.
        replace (S n - List.length chunk)%nat with 0%nat by lia.
        cbn [firstn skipn]. rewrite app_nil_r. auto.
    + apply IH; assumption.
    + apply IH; assumption.
Qed.

Lemma recv_all_healthy_short (net : list net_event) :
  forall (len : nat) (timeout_ms : Z),
    healthy net = true -> timeout_ms <= 0 ->
    (List.length (net_bytes net) < len)%nat ->
    recv_all net len timeout_ms = (RxBlocked, []).
Proof.
  induction net as [|ev net IH]; intros len t Hh Ht Hlen.
  - destruct len; [cbn in Hlen; lia | reflexivity].
  - destruct len as [|n]; [lia|].
    assert (Hq : (0 <? t) = false) by (apply Z.ltb_ge; exact Ht).
    destruct ev as [chunk| | | |]; cbn [healthy] in Hh; try discriminate;
      cbn [recv_all]; cbn [net_bytes] in Hlen; rewrite ?Hq.
    + rewrite length_app in Hlen.
      replace (List.length chunk <=? S n)%nat with true
        by (symmetry; apply Nat.leb_le; lia).
      rewrite (IH (S n - List.length chunk)%nat t Hh Ht) by lia. reflexivity.
    + apply IH; assumption.
    + apply IH; assumption.
Qed.

(** X1.  On a connection that neither closes nor fails, a read without
    timeout assembles exactly the next [len] bytes of the stream however
    they are cut into chunks and whatever signals or idle periods come
    in between; the bytes after them stay for the next read.  When the
    stream holds fewer than [len] bytes the read blocks; it never
    fails. *)
Theorem recv_all_assembles_stream (net : list net_event) (len : nat)
  (timeout_ms : Z) :
  healthy net = true -> timeout_ms <= 0 ->
  if (len <=? List.length (net_bytes net))%nat
  then fst (recv_all net len timeout_ms) = RxOk (firstn len (net_bytes net)) /\
       net_bytes (snd (recv_all net len timeout_ms)) = skipn len (net_bytes net)
  else fst (recv_all net len timeout_ms) = RxBlocked.
Proof.
  intros Hh Ht. destruct (len <=? List.length (net_bytes net))%nat eqn:L.
  - apply Nat.leb_le in L.
    destruct (recv_all_healthy net len timeout_ms Hh Ht L) as (A & B & _).
    split; assumption.
  - apply Nat.leb_gt in L.
    rewrite (recv_all_healthy_short net len timeout_ms Hh Ht L). reflexivity.
Qed.

Lemma recv_all_assembles_stream_witness :
  fst (recv_all [Data ["a"%byte]; Intr; Quiet; Data ["b"%byte; "c"%byte]] 2 0)
  = RxOk ["a"%byte; "b"%byte] /\
  net_bytes (snd (recv_all [Data ["a"%byte]; Intr; Quiet;
                            Data ["b"%byte; "c"%byte]] 2 0))
  = ["c"%byte].
Proof.
  exact (recv_all_assembles_stream
           [Data ["a"%byte]; Intr; Quiet; Data ["b"%byte; "c"%byte]] 2 0
           eq_refl ltac:(lia)).
Defined.

Lemma sock_recv_all_without_pauses (s : socket) (len : nat) :
  fst (sock_recv_all s len 0)
  = fst (sock_recv_all (with_net_in s (without_pauses (net_in s))) len 0) /\
  with_net_in (snd (sock_recv_all s len 0))
    (without_pauses (net_in (snd (sock_recv_all s len 0))))
  = snd (sock_recv_all (with_net_in s (without_pauses (net_in s))) len 0).
Proof.
  unfold sock_recv_all, with_net_in. cbn [net_in net_out wire].
  destruct (recv_all_without_pauses (net_in s) len) as [A B].
  destruct (recv_all (net_in s) len 0) as [r net].
  destruct (recv_all (without_pauses (net_in s)) len 0) as [r' net'].
  cbn [fst snd] in *. cbn [net_in net_out wire]. subst. split; reflexivity.
Qed.

(** X2.  Signals that interrupt [recv] and periods in which nothing
    arrives are invisible to [recv_frame]: with those events removed
    from the connection it returns the same frame, the same error or
    blocks all the same, and leaves the same rest of the stream. *)
Theorem recv_frame_ignores_pauses (s : socket) :
  fst (recv_frame s)
  = fst (recv_frame (with_net_in s (without_pauses (net_in s)))) /\
  with_net_in (snd (recv_frame s)) (without_pauses (net_in (snd (recv_frame s))))
  = snd (recv_frame (with_net_in s (without_pauses (net_in s)))).
Proof.
  unfold recv_frame.
  destruct (sock_recv_all_without_pauses s 6) as [A B].
  destruct (sock_recv_all s 6 0) as [r s1].
  destruct (sock_recv_all (with_net_in s (without_pauses (net_in s))) 6 0)
    as [r' s1'].
  cbn [fst snd] in A, B. subst r' s1'.
  destruct r as [header | e |]; cbn [fst snd]; try (split; reflexivity).
  destruct ((read_u32_be header <? 2)
            || (SQRL_MAX_MESSAGE_SIZE <? read_u32_be header))%bool;
    cbn [fst snd]; [split; reflexivity|].
  destruct (sock_recv_all_without_pauses s1
              (Z.to_nat (u32 (read_u32_be header - 2)))) as [A B].
  destruct (sock_recv_all s1 (Z.to_nat (u32 (read_u32_be header - 2))) 0)
    as [r s2].
  destruct (sock_recv_all (with_net_in s1 (without_pauses (net_in s1)))
              (Z.to_nat (u32 (read_u32_be header - 2))) 0) as [r' s2'].
  cbn [fst snd] in A, B. subst r' s2'.
  destruct r; cbn [fst snd]; split; reflexivity.
Qed.

Lemma send_all_prefix (out : list tx_event) :
  forall (buf : list byte) (ok : bool) (w : list byte) (out' : list tx_event),
    send_all out buf = (ok, w, out') ->
    (exists rest, buf = w ++ rest) /\
    (ok = false -> In TxFail out /\ exists tl, out' = TxFail :: tl).
Proof.
  induction out as [|ev out IH]; intros buf ok w out' H.
  - rewrite send_all_nil in H. inversion H; subst. split.
    + exists []. symmetry. apply app_nil_r.
    + discriminate.
  - destruct buf as [|b buf].
    { cbn in H. inversion H; subst. split; [exists []; reflexivity | discriminate]. }
    destruct ev as [n| |]; cbn [send_all] in H.
    + destruct (send_all out (skipn n (b :: buf))) as [[ok1 w1] out1] eqn:R.
      inversion H; subst. destruct (IH _ _ _ _ R) as [[rest E] F]. split.
      * exists rest. rewrite <- app_assoc, <- E. symmetry. apply firstn_skipn.
      * intros K. destruct (F K) as [I T]. split; [right; exact I | exact T].
    + destruct (IH _ _ _ _ H) as [P F]. split; [exact P|].
      intros K. destruct (F K) as [I T]. split; [right; exact I | exact T].
    + inversion H; subst. split.
      * exists (b :: buf). reflexivity.
      * intros _. split; [left; reflexivity | exists out; reflexivity].
Qed.

Lemma send_all_short (out : list tx_event) :
  forall (buf w : list byte) (out' : list tx_event),
    send_all out buf = (false, w, out') ->
    (List.length w < List.length buf)%nat.
Proof.
  induction out as [|ev out IH]; intros buf w out' H.
  - rewrite send_all_nil in H. discriminate.
  - destruct buf as [|b buf]; [cbn in H; discriminate|].
    destruct ev as [n| |]; cbn [send_all] in H.
    + destruct (send_all out (skipn n (b :: buf))) as [[ok1 w1] out1] eqn:R.
      inversion H; subst. apply IH in R.
      pose proof (f_equal (@List.length byte) (firstn_skipn n (b :: buf))) as L.
      rewrite length_app in *. lia.
    + exact (IH _ _ _ H).
    + inversion H; subst. cbn. lia.
Qed.

(** X3.  [send_all] puts on the wire an initial part of the buffer, in
    order, and nothing else, and it does not touch the read side.  It
    reports success exactly when the whole buffer is out: after a
    failure the part on the wire is shorter than the buffer.  Short
    writes and interrupting signals are retried, and only a [send] that
    fails with another error makes it give up. *)
Theorem sock_send_all_writes_prefix (s s' : socket) (buf : list byte) (ok : bool) :
  sock_send_all s buf = (ok, s') ->
  net_in s' = net_in s /\
  exists w, wire s' = wire s ++ w /\ prefix_of w buf /\
            (ok = true <-> w = buf) /\
            (ok = false -> In TxFail (net_out s)).
Proof.
  unfold sock_send_all.
  destruct (send_all (net_out s) buf) as [[ok1 w] out] eqn:R.
  intros H. inversion H; subst. cbn [net_in wire]. split; [reflexivity|].
  exists w. destruct (send_all_prefix _ _ _ _ _ R) as [P F].
  split; [reflexivity|]. split; [exact P|]. split; [split|].
  - intros K. subst. eapply send_all_ok; eassumption.
  - intros K. destruct ok; [reflexivity|].
    apply send_all_short in R. subst w. lia.
  - intros K. apply F, K.
Qed.

Lemma sock_send_all_writes_prefix_witness :
  net_in (snd (sock_send_all (mkSocket [] [TxAccept 1; TxIntr; TxFail] [])
                 ["a"%byte; "b"%byte]))
  = [] /\
  exists w,
    wire (snd (sock_send_all (mkSocket [] [TxAccept 1; TxIntr; TxFail] [])
                 ["a"%byte; "b"%byte])) = [] ++ w /\
    prefix_of w ["a"%byte; "b"%byte] /\
    (false = true <-> w = ["a"%byte; "b"%byte]) /\
    (false = false -> In TxFail [TxAccept 1; TxIntr; TxFail]).
Proof.
  exact (sock_send_all_writes_prefix
           (mkSocket [] [TxAccept 1; TxIntr; TxFail] []) _
           ["a"%byte; "b"%byte] false eq_refl).
Defined.

Lemma frame_of_small (json : string) :
  strlen json + 2 < 2 ^ 32 ->
  frame_of json
  = write_u32_be (strlen json + 2)
      ++ [byte_of_Z MSG_TYPE_REQUEST; byte_of_Z 2]
      ++ list_byte_of_string (c_str json).
Proof.
  intros H. unfold frame_of. cbv zeta.
  rewrite u32_small; [reflexivity|]. unfold strlen in *. lia.
Qed.

Lemma recv_frame_of_stream (s : socket) (len msg_type enc : Z)
  (payload rest : list byte) :
  healthy (net_in s) = true ->
  2 <= len <= SQRL_MAX_MESSAGE_SIZE ->
  Z.of_nat (List.length payload) = len - 2 ->
  net_bytes (net_in s)
  = write_u32_be len ++ [byte_of_Z msg_type; byte_of_Z enc] ++ payload ++ rest ->
  fst (recv_frame s) = FrameOk (u8 msg_type) payload /\
  net_bytes (net_in (snd (recv_frame s))) = rest /\
  healthy (net_in (snd (recv_frame s))) = true /\
  net_out (snd (recv_frame s)) = net_out s /\
  wire (snd (recv_frame s)) = wire s.
Proof.
  intros Hh Hlen Hp Hb.
  assert (Hm : SQRL_MAX_MESSAGE_SIZE = 16777216) by reflexivity.
  assert (Hr : 0 <= len < 2 ^ 32)
    by (change (2 ^ 32) with 4294967296; lia).
  unfold recv_frame, sock_recv_all.
  assert (L6 : (6 <= List.length (net_bytes (net_in s)))%nat).
  { rewrite Hb. rewrite length_app. cbn [List.length write_u32_be app]. lia. }
  destruct (recv_all_healthy (net_in s) 6 0 Hh ltac:(lia) L6) as (A & B & C).
  destruct (recv_all (net_in s) 6 0) as [r net1]. cbn [fst snd] in A, B, C.
  subst r. cbn [net_in net_out wire].
  assert (Hhd : firstn 6 (net_bytes (net_in s))
                = write_u32_be len ++ [byte_of_Z msg_type; byte_of_Z enc]).
  { rewrite Hb. reflexivity. }
  rewrite Hhd.
  rewrite read_write_u32_be by exact Hr.
  replace ((len <? 2) || (SQRL_MAX_MESSAGE_SIZE <? len))%bool with false
    by (symmetry; apply orb_false_iff; split; apply Z.ltb_ge; lia).
  rewrite u32_small by lia.
  assert (Hn : Z.to_nat (len - 2) = List.length payload) by lia.
  rewrite Hn.
  assert (B' : net_bytes net1 = payload ++ rest).
  { rewrite B, Hb. reflexivity. }
  assert (Lp : (List.length payload <= List.length (net_bytes net1))%nat).
  { rewrite B', length_app. lia. }
  destruct (recv_all_healthy net1 (List.length payload) 0 C ltac:(lia) Lp)
    as (A2 & B2 & C2).
  destruct (recv_all net1 (List.length payload) 0) as [r2 net2].
  cbn [fst snd] in A2, B2, C2. subst r2. cbn [fst snd net_in net_out wire].
  rewrite B' in *.
  rewrite firstn_app, Nat.sub_diag, firstn_all in *. cbn [firstn].
  rewrite app_nil_r.
  rewrite skipn_app, Nat.sub_diag, skipn_all in B2. cbn [skipn app] in B2.
  repeat split; try assumption.
  f_equal. cbn [write_u32_be app nth]. apply Zbyte_byte_of_Z.
Qed.

(** X4.  Frame round trip.  Whatever [send_frame] has put on the wire
    for a request text of at most 16 MiB - 2 bytes, [recv_frame] at the
    other end of a connection that neither closes nor fails decodes as
    one frame of type 1 (request) whose payload is that text, however
    the bytes are cut into chunks; the bytes behind the frame are left
    on the stream. *)
Theorem send_frame_recv_frame_round_trip (sa sa' sb : socket) (json : string)
  (rest : list byte) :
  send_frame sa json = (SQRL_OK, sa') ->
  strlen json + 2 <= SQRL_MAX_MESSAGE_SIZE ->
  healthy (net_in sb) = true ->
  wire sa ++ net_bytes (net_in sb) = wire sa' ++ rest ->
  exists payload,
    fst (recv_frame sb) = FrameOk MSG_TYPE_REQUEST payload /\
    string_of_list_byte payload = c_str json /\
    net_bytes (net_in (snd (recv_frame sb))) = rest.
Proof.
  intros Hs Hlen Hh Hw.
  assert (Hm : SQRL_MAX_MESSAGE_SIZE = 16777216) by reflexivity.
  unfold send_frame in Hs.
  destruct (sock_send_all sa (frame_of json)) as [[|] s1] eqn:S;
    inversion Hs; subst s1.
  apply sock_send_all_ok in S. rewrite S, <- app_assoc in Hw.
  apply app_inv_head in Hw.
  assert (Hpos : 0 <= strlen json) by (unfold strlen; lia).
  rewrite frame_of_small in Hw
    by (change (2 ^ 32) with 4294967296; lia).
  rewrite <- !app_assoc in Hw.
  destruct (recv_frame_of_stream sb (strlen json + 2) MSG_TYPE_REQUEST 2
              (list_byte_of_string (c_str json)) rest Hh ltac:(lia))
    as (A & B & _).
  - rewrite length_list_byte_of_string. unfold strlen. lia.
  - exact Hw.
  - exists (list_byte_of_string (c_str json)). repeat split.
    + exact A.
    + apply string_of_list_byte_of_string.
    + exact B.
Qed.

Lemma send_frame_recv_frame_round_trip_witness :
  exists payload,
    fst (recv_frame (mkSocket
           [Data (firstn 4 (frame_of "ping")); Intr;
            Data (skipn 4 (frame_of "ping") ++ ["z"%byte])] [] []))
    = FrameOk MSG_TYPE_REQUEST payload /\
    string_of_list_byte payload = c_str "ping" /\
    net_bytes (net_in (snd (recv_frame (mkSocket
           [Data (firstn 4 (frame_of "ping")); Intr;
            Data (skipn 4 (frame_of "ping") ++ ["z"%byte])] [] []))))
    = ["z"%byte].
Proof.
  exact (send_frame_recv_frame_round_trip
           (mkSocket [] [TxAccept 3] [])
           (mkSocket [] [] (frame_of "ping"))
           (mkSocket
              [Data (firstn 4 (frame_of "ping")); Intr;
               Data (skipn 4 (frame_of "ping") ++ ["z"%byte])] [] [])
           "ping" ["z"%byte] eq_refl ltac:(apply Z.leb_le; reflexivity) eq_refl eq_refl).
Defined.

(** ** The handshake on the wire *)

Lemma write_u16_be_value (v : Z) :
  0 <= v < 2 ^ 16 ->
  exists hi lo, write_u16_be v = [hi; lo] /\ Zbyte hi * 256 + Zbyte lo = v.
Proof.
  intros Hv. unfold write_u16_be. do 2 eexists. split; [reflexivity|].
  rewrite !Zbyte_byte_of_Z.
  change 255 with (Z.ones 8).
  rewrite !Z.land_ones, Z.shiftr_div_pow2 by lia.
  change (2 ^ 8) with 256. change (2 ^ 16) with 65536 in Hv.
  rewrite !u8_small by (apply Z.mod_pos_bound; lia).
  rewrite (Z.mod_small (v / 256))
    by (split; [apply Z.div_pos; lia | apply Z.div_lt_upper_bound; lia]).
  pose proof (Z.div_mod v 256 ltac:(lia)). lia.
Qed.

Lemma c_str_idem (s : string) : c_str (c_str s) = c_str s.
Proof.
  induction s as [|a t IH]; [reflexivity|].
  cbn [c_str]. destruct (Ascii.eqb a NUL) eqn:E; [reflexivity|].
  cbn [c_str]. rewrite E, IH. reflexivity.
Qed.

(** X5.  The packet [do_handshake] sends is, for every choice of
    options: the four bytes SQRL, the version byte 1, a flags byte that
    is 3 when MessagePack is asked for or no options are given and 2
    otherwise (the JSON bit is always set), the length of the token as
    a big-endian 16-bit number, and the token.  The whole token is sent
    even when it has 65536 bytes or more, in which case the length
    field holds its length modulo 65536. *)
Theorem handshake_packet_layout (opts : option sqrl_options_t) :
  exists hi lo,
    handshake_packet opts
    = ["S"%byte; "Q"%byte; "R"%byte; "L"%byte; "001"%byte;
       (match opts with
        | None => "003"%byte
        | Some o => if use_msgpack o then "003"%byte else "002"%byte
        end); hi; lo]
      ++ list_byte_of_string (handshake_token opts) /\
    Zbyte hi * 256 + Zbyte lo
    = Z.of_nat (String.length (handshake_token opts)) mod 65536 /\
    List.length (handshake_packet opts)
    = (8 + String.length (handshake_token opts))%nat.
Proof.
  unfold handshake_packet. fold (handshake_token opts). cbv zeta.
  set (token := handshake_token opts).
  assert (Ht : strlen token = Z.of_nat (String.length token)).
  { unfold strlen. f_equal. f_equal. unfold token, handshake_token.
    destruct opts as [o|]; [|reflexivity].
    destruct (auth_token o); [apply c_str_idem | reflexivity]. }
  rewrite Ht.
  destruct (write_u16_be_value (u16 (Z.of_nat (String.length token))))
    as (hi & lo & E & V).
  { unfold u16. apply Z.mod_pos_bound. lia. }
  exists hi, lo. rewrite E. repeat split.
  - destruct opts as [o|]; [destruct (use_msgpack o)|]; reflexivity.
  - exact V.
  - cbn [MAGIC app List.length]. rewrite length_list_byte_of_string. lia.
Qed.

(** X6.  Whenever [do_handshake] gets as far as a response (any result
    but a send or receive failure), it has written exactly the
    handshake packet and consumed exactly the next 19 bytes of the
    stream, so that the first frame begins right after them; and with
    any result other than success the client structure is as it was. *)
Theorem do_handshake_exchange (c c' : sqrl_client_t)
  (opts : option sqrl_options_t) (s s' : socket) (err : sqrl_error_t) :
  do_handshake c opts s = (Some (err, c'), s') ->
  (err <> SQRL_ERR_SEND -> wire s' = wire s ++ handshake_packet opts) /\
  (err <> SQRL_ERR_SEND -> err <> SQRL_ERR_RECV ->
   exists resp, List.length resp = 19%nat /\
                net_bytes (net_in s) = resp ++ net_bytes (net_in s')) /\
  (err <> SQRL_OK -> c' = c).
Proof.
  unfold do_handshake.
  destruct (sock_send_all s (handshake_packet opts)) as [[|] s1] eqn:S.
  2:{ intros H. inversion H; subst.
      repeat split; try congruence. }
  pose proof (sock_send_all_ok _ _ _ S) as W.
  assert (N : net_in s1 = net_in s).
  { unfold sock_send_all in S.
    destruct (send_all (net_out s) (handshake_packet opts)) as [[ok w] out].
    inversion S; reflexivity. }
  destruct (sock_recv_all s1 19 (handshake_timeout opts)) as [[resp|e|] s2] eqn:R.
  - pose proof (sock_recv_all_ok _ _ _ _ _ R) as [L B]. rewrite N in B.
    assert (W2 : wire s2 = wire s1).
    { unfold sock_recv_all in R.
      destruct (recv_all (net_in s1) 19 (handshake_timeout opts)).
      inversion R; reflexivity. }
    cbv zeta.
    destruct (Zbyte (nth 0 resp "000"%byte) =? HANDSHAKE_VERSION_MISMATCH);
      [|destruct (Zbyte (nth 0 resp "000"%byte) =? HANDSHAKE_AUTH_FAILED);
        [|destruct (negb (Zbyte (nth 0 resp "000"%byte) =? HANDSHAKE_SUCCESS))]];
      intros H; inversion H; subst; rewrite <- W, <- W2;
      (repeat split; try congruence; intros; exists resp; split; assumption).
  - intros H. inversion H; subst.
    assert (W2 : wire s' = wire s1).
    { unfold sock_recv_all in R.
      destruct (recv_all (net_in s1) 19 (handshake_timeout opts)).
      inversion R; reflexivity. }
    rewrite W2, W. repeat split; congruence.
  - discriminate.
Qed.

Lemma do_handshake_exchange_witness :
  (SQRL_ERR_AUTH_FAILED <> SQRL_ERR_SEND ->
   wire (snd (do_handshake (fresh_client 3 30000) None
                (sock_of_bytes (handshake_response 2 1 0 sample_sid))))
   = [] ++ handshake_packet None) /\
  (SQRL_ERR_AUTH_FAILED <> SQRL_ERR_SEND ->
   SQRL_ERR_AUTH_FAILED <> SQRL_ERR_RECV ->
   exists resp, List.length resp = 19%nat /\
     net_bytes (net_in (sock_of_bytes (handshake_response 2 1 0 sample_sid)))
     = resp ++ net_bytes (net_in (snd (do_handshake (fresh_client 3 30000) None
                (sock_of_bytes (handshake_response 2 1 0 sample_sid)))))) /\
  (SQRL_ERR_AUTH_FAILED <> SQRL_OK -> fresh_client 3 30000 = fresh_client 3 30000).
Proof.
  exact (do_handshake_exchange (fresh_client 3 30000) _ None
           (sock_of_bytes (handshake_response 2 1 0 sample_sid)) _
           SQRL_ERR_AUTH_FAILED eq_refl).
Defined.

(** ** The JSON extractors *)

Lemma prefix_split (n r : string) :
  String.prefix n r = true -> r = n +++ string_drop (String.length n) r.
Proof.
  revert r. induction n as [|a n IH]; intros r H; [reflexivity|].
  destruct r as [|b r]; [discriminate|]. cbn [String.prefix] in H.
  destruct (ascii_dec a b) as [->|]; [|discriminate].
  cbn [String.append String.length string_drop]. f_equal. apply IH, H.
Qed.

Lemma prefix_append (n r : string) : String.prefix n (n +++ r) = true.
Proof.
  induction n as [|a n IH]; [destruct r; reflexivity|].
  cbn [String.append String.prefix].
  destruct (ascii_dec a a); [exact IH | congruence].
Qed.

Lemma string_drop_append (n r : string) :
  string_drop (String.length n) (n +++ r) = r.
Proof. induction n as [|a n IH]; [reflexivity | exact IH]. Qed.

Lemma strstr_Some (hay needle r : string) :
  strstr hay needle = Some r ->
  exists pre, hay = pre +++ r /\ String.prefix needle r = true.
Proof.
  induction hay as [|a hay IH]; cbn [strstr].
  - destruct (String.prefix needle "") eqn:P; [|discriminate].
    intros H; inversion H; subst. exists "". split; [reflexivity | exact P].
  - destruct (String.prefix needle (String a hay)) eqn:P.
    + intros H; inversion H; subst. exists "". split; [reflexivity | exact P].
    + intros H. destruct (IH H) as (pre & E & Q).
      exists (String a pre). split; [cbn; rewrite <- E; reflexivity | exact Q].
Qed.

Lemma strchr_Some (s : string) (c : ascii) :
  forall pre suf,
    strchr s c = Some (pre, suf) ->
    s = pre +++ suf /\ occurs c pre = false /\ exists t, suf = String c t.
Proof.
  induction s as [|a s IH]; intros pre suf H; [discriminate|].
  cbn [strchr] in H. destruct (Ascii.eqb a c) eqn:E.
  - inversion H; subst. apply Ascii.eqb_eq in E. subst.
    repeat split. exists s. reflexivity.
  - destruct (strchr s c) as [[p q]|] eqn:R; [|discriminate].
    inversion H; subst. destruct (IH _ _ eq_refl) as (E1 & E2 & E3).
    cbn [String.append occurs]. rewrite E, E2. repeat split; [|exact E3].
    f_equal. exact E1.
Qed.

Lemma strchr_append (pre : string) (c : ascii) (t : string) :
  occurs c pre = false ->
  strchr (pre +++ String c t) c = Some (pre, String c t).
Proof.
  induction pre as [|a pre IH]; intros H.
  - cbn [String.append strchr]. rewrite Ascii.eqb_refl. reflexivity.
  - cbn [occurs] in H. apply orb_false_iff in H. destruct H as [E O].
    cbn [String.append strchr]. rewrite E, (IH O). reflexivity.
Qed.

Lemma copy_to_quote_Some (start v : string) :
  copy_to_quote start = Some v ->
  occurs dquote v = false /\ exists suf, start = v +++ String dquote suf.
Proof.
  unfold copy_to_quote. destruct (strchr start dquote) as [[pre suf]|] eqn:R;
    [|discriminate].
  intros H; inversion H; subst.
  destruct (strchr_Some _ _ _ _ R) as (E & O & t & ->).
  split; [exact O | exists t; exact E].
Qed.

Lemma copy_to_quote_append (v suf : string) :
  occurs dquote v = false ->
  copy_to_quote (v +++ String dquote suf) = Some v.
Proof.
  intros H. unfold copy_to_quote. rewrite strchr_append by exact H. reflexivity.
Qed.

Lemma skip_blanks_split (s : string) :
  exists blanks, s = blanks +++ skip_blanks s /\ blank_only blanks = true.
Proof.
  induction s as [|a s (b & E & B)].
  - exists "". split; reflexivity.
  - cbn [skip_blanks].
    destruct (Ascii.eqb a " " || Ascii.eqb a "009")%bool eqn:K.
    + exists (String a b). cbn [String.append blank_only]. rewrite K, B.
      split; [f_equal; exact E | reflexivity].
    + exists "". split; reflexivity.
Qed.

Lemma append_assoc (x y z : string) : (x +++ y) +++ z = x +++ (y +++ z).
Proof.
  induction x as [|a x IH]; [reflexivity|].
  cbn [String.append]. rewrite IH. reflexivity.
Qed.

Lemma length_quoted_key (key : string) :
  String.length (quoted_key key) = (String.length key + 3)%nat.
Proof.
  unfold quoted_key. cbn [String.length]. rewrite length_append.
  cbn [String.length]. lia.
Qed.

(** X7.  What [json_get_string] returns is always taken from the text
    itself: for a key of at most 251 characters, a result [v] stands in
    the text right behind the quoted key, a colon, spaces or tabs (if
    any) and an opening double quote, and ends before the next double
    quote; [v] itself therefore never holds a double quote (escaped
    quotes are not understood).  In particular a text in which the
    quoted key followed by a colon does not occur gives NULL. *)
Theorem json_get_string_sound (json key v : string) :
  (String.length key <= 251)%nat ->
  json_get_string json key = Some v ->
  occurs dquote v = false /\
  exists pre blanks suf,
    json = pre +++ quoted_key key +++ blanks
               +++ String dquote (v +++ String dquote suf) /\
    blank_only blanks = true.
Proof.
  intros Hk. unfold json_get_string, snprintf. cbv zeta.
  rewrite (string_take_all _ (quoted_key key +++ String dquote ""))
    by (rewrite length_append, length_quoted_key; cbn [String.length]; lia).
  rewrite (string_take_all _ (quoted_key key))
    by (rewrite length_quoted_key; lia).
  destruct (strstr json (quoted_key key +++ String dquote "")) as [start|] eqn:S1.
  - intros H. destruct (strstr_Some _ _ _ S1) as (pre & E & P).
    apply prefix_split in P.
    destruct (copy_to_quote_Some _ _ H) as (O & suf & C).
    split; [exact O|]. exists pre, "", suf. split; [|reflexivity].
    rewrite E, P, C. cbn [String.append].
    rewrite append_assoc. reflexivity.
  - destruct (strstr json (quoted_key key)) as [start|] eqn:S2; [|discriminate].
    destruct (strstr_Some _ _ _ S2) as (pre & E & P).
    apply prefix_split in P.
    destruct (skip_blanks_split (string_drop (String.length (quoted_key key)) start))
      as (blanks & B & Bo).
    destruct (skip_blanks (string_drop (String.length (quoted_key key)) start))
      as [|a rest]; [discriminate|].
    destruct (Ascii.eqb a dquote) eqn:Q; [|discriminate].
    apply Ascii.eqb_eq in Q. subst a.
    intros H. destruct (copy_to_quote_Some _ _ H) as (O & suf & C).
    split; [exact O|]. exists pre, blanks, suf. split; [|exact Bo].
    rewrite E, P, B, C. reflexivity.
Qed.

Lemma json_get_string_sound_witness :
  occurs dquote "pong" = false /\
  exists pre blanks suf,
    js "{'id':'7', 'type': 'pong'}"
    = pre +++ quoted_key "type" +++ blanks
          +++ String dquote ("pong" +++ String dquote suf) /\
    blank_only blanks = true.
Proof.
  exact (json_get_string_sound (js "{'id':'7', 'type': 'pong'}") "type" "pong"
           ltac:(cbn; lia) eq_refl).
Defined.

Lemma skip_blanks_nl_split (s : string) :
  exists blanks, s = blanks +++ skip_blanks_nl s /\ blank_nl_only blanks = true.
Proof.
  induction s as [|a s (b & E & B)].
  - exists "". split; reflexivity.
  - cbn [skip_blanks_nl].
    destruct (Ascii.eqb a " " || Ascii.eqb a "009" || Ascii.eqb a "010")%bool eqn:K.
    + exists (String a b). cbn [String.append blank_nl_only]. rewrite K, B.
      split; [f_equal; exact E | reflexivity].
    + exists "". split; reflexivity.
Qed.

Lemma match_braces_Some (s : string) :
  forall (depth : nat) (r : string),
    match_braces s depth = Some r ->
    (exists suf, s = r +++ suf) /\
    (count_char "{" r + depth = count_char "}" r)%nat /\
    (0 < depth -> exists body, r = body +++ "}")%nat.
Proof.
  induction s as [|a s IH]; intros depth r H.
  - destruct depth; cbn in H; [|discriminate]. inversion H; subst.
    repeat split; [exists ""; reflexivity | lia].
  - destruct depth as [|d].
    { cbn in H. inversion H; subst.
      repeat split; [exists (String a s); reflexivity | lia]. }
    cbn [match_braces] in H. cbv zeta in H.
    destruct (match_braces s
                (if Ascii.eqb a "{" then S (S d)
                 else if Ascii.eqb a "}" then d else S d)) as [r'|] eqn:R;
      [|discriminate].
    cbn [option_map] in H. inversion H; subst.
    destruct (IH _ _ R) as ((suf & E) & C & T).
    split; [exists suf; cbn; rewrite <- E; reflexivity|].
    cbn [count_char].
    destruct (Ascii.eqb a "{") eqn:Ko.
    + apply Ascii.eqb_eq in Ko. subst a. cbn [Ascii.eqb Bool.eqb].
      split; [lia|]. intros _. destruct (T ltac:(lia)) as (body & ->).
      exists (String "{" body). reflexivity.
    + destruct (Ascii.eqb a "}") eqn:Kc.
      * split; [lia|]. intros _. destruct d as [|d'].
        -- destruct s; cbn in R; inversion R; subst.
           ++ exists "". apply Ascii.eqb_eq in Kc. subst. reflexivity.
           ++ exists "". apply Ascii.eqb_eq in Kc. subst. reflexivity.
        -- destruct (T ltac:(lia)) as (body & ->).
           exists (String a body). reflexivity.
      * split; [lia|]. intros _. destruct (T ltac:(lia)) as (body & ->).
        exists (String a body). reflexivity.
Qed.

(** X8.  What [json_get_object] returns for a key of at most 252
    characters is a piece of the text itself: it stands behind the
    quoted key, a colon and spaces, tabs or newlines (if any), begins
    with an opening brace, ends with a closing brace and holds as many
    opening as closing braces.  Braces are counted wherever they stand,
    also inside string values. *)
Theorem json_get_object_sound (json key obj : string) :
  (String.length key <= 252)%nat ->
  json_get_object json key = Some obj ->
  (exists pre blanks suf,
     json = pre +++ quoted_key key +++ blanks +++ obj +++ suf /\
     blank_nl_only blanks = true) /\
  (exists body, obj = String "{" (body +++ "}")) /\
  count_char "{" obj = count_char "}" obj.
Proof.
  intros Hk. unfold json_get_object, snprintf. cbv zeta.
  rewrite (string_take_all _ (quoted_key key))
    by (rewrite length_quoted_key; lia).
  destruct (strstr json (quoted_key key)) as [start|] eqn:S; [|discriminate].
  destruct (strstr_Some _ _ _ S) as (pre & E & P). apply prefix_split in P.
  destruct (skip_blanks_nl_split
              (string_drop (String.length (quoted_key key)) start))
    as (blanks & B & Bo).
  destruct (skip_blanks_nl (string_drop (String.length (quoted_key key)) start))
    as [|a rest]; [discriminate|].
  destruct (Ascii.eqb a "{") eqn:Q; [|discriminate].
  apply Ascii.eqb_eq in Q. subst a.
  destruct (match_braces rest 1) as [r|] eqn:M; [|discriminate].
  cbn [option_map]. intros H; inversion H; subst obj.
  destruct (match_braces_Some _ _ _ M) as ((suf & Es) & C & T).
  split; [|split].
  - exists pre, blanks, suf. split; [|exact Bo].
    rewrite E, P, B, Es. reflexivity.
  - destruct (T ltac:(lia)) as (body & ->). exists body. reflexivity.
  - cbn [count_char Ascii.eqb Bool.eqb]. cbn [andb]. cbn. lia.
Qed.

Lemma json_get_object_sound_witness :
  (exists pre blanks suf,
     js "{'type':'change','data': {'a':{'b':1}},'id':'3'}"
     = pre +++ quoted_key "data" +++ blanks +++ js "{'a':{'b':1}}" +++ suf /\
     blank_nl_only blanks = true) /\
  (exists body, js "{'a':{'b':1}}" = String "{" (body +++ "}")) /\
  count_char "{" (js "{'a':{'b':1}}") = count_char "}" (js "{'a':{'b':1}}").
Proof.
  exact (json_get_object_sound
           (js "{'type':'change','data': {'a':{'b':1}},'id':'3'}") "data"
           (js "{'a':{'b':1}}") ltac:(cbn; lia) eq_refl).
Defined.

(** ** The request texts *)

Lemma prefix_nil (r : string) : String.prefix "" r = true.
Proof. destruct r; reflexivity. Qed.

Lemma strstr_here (hay needle : string) :
  String.prefix needle hay = true -> strstr hay needle = Some hay.
Proof. intros H. destruct hay; cbn [strstr]; rewrite H; reflexivity. Qed.

Lemma strstr_skip (a : ascii) (t needle : string) :
  String.prefix needle (String a t) = false ->
  strstr (String a t) needle = strstr t needle.
Proof. intros H. cbn [strstr]. rewrite H. reflexivity. Qed.

Lemma dec_digit_no_quote (n : Z) :
  0 <= n < 10 -> Ascii.eqb (dec_digit n) dquote = false.
Proof.
  intros H. destruct (Ascii.eqb_spec (dec_digit n) dquote) as [E|]; [|reflexivity].
  pose proof (dec_digit_value n H) as V. rewrite E in V.
  change (Z.of_N (N_of_ascii dquote)) with 34 in V. lia.
Qed.

Lemma dec_digits_no_quote (fuel : nat) :
  forall (v : Z) (acc : string),
    occurs dquote (dec_digits fuel v acc) = occurs dquote acc.
Proof.
  induction fuel as [|f IH]; intros v acc; [reflexivity|].
  cbn [dec_digits]. cbv zeta.
  assert (K : occurs dquote (String (dec_digit (v mod 10)) acc)
              = occurs dquote acc).
  { cbn [occurs]. rewrite dec_digit_no_quote; [reflexivity|].
    apply Z.mod_pos_bound. lia. }
  destruct (v / 10 =? 0); [exact K|]. rewrite IH. exact K.
Qed.

Lemma next_request_id_text (c : sqrl_client_t) :
  (String.length (fst (next_request_id c)) <= 20)%nat /\
  occurs dquote (fst (next_request_id c)) = false.
Proof.
  rewrite next_request_id_spec. cbn [fst]. split.
  - apply fmt_llu_spec.
  - unfold fmt_llu. apply dec_digits_no_quote.
Qed.

Lemma ping_json_full (id : string) :
  (String.length id <= 20)%nat ->
  ping_json id = js "{'type':'ping','id':'" +++ id +++ js "'}".
Proof.
  intros H. unfold ping_json, snprintf. apply string_take_all.
  rewrite !length_append. simpl String.length. lia.
Qed.

Lemma query_json_full (query id : string) :
  (String.length id <= 20)%nat ->
  query_json query id
  = js "{'type':'query','id':'" +++ id +++ js "','query':'" +++ c_str query
       +++ js "'}".
Proof.
  intros H. unfold query_json, snprintf, strlen. apply string_take_all.
  rewrite !length_append. simpl String.length. lia.
Qed.

Lemma insert_json_full (collection data id : string) :
  (String.length id <= 20)%nat ->
  insert_json collection data id
  = js "{'type':'insert','id':'" +++ id +++ js "','collection':'"
       +++ c_str collection +++ js "','data':" +++ c_str data +++ "}".
Proof.
  intros H. unfold insert_json, snprintf, strlen. apply string_take_all.
  rewrite !length_append. simpl String.length. lia.
Qed.

Lemma update_json_full (collection document_id data id : string) :
  (String.length id <= 20)%nat ->
  update_json collection document_id data id
  = js "{'type':'update','id':'" +++ id +++ js "','collection':'"
       +++ c_str collection +++ js "','document_id':'" +++ c_str document_id
       +++ js "','data':" +++ c_str data +++ "}".
Proof.
  intros H. unfold update_json, snprintf, strlen. apply string_take_all.
  rewrite !length_append. simpl String.length. lia.
Qed.

Lemma delete_json_full (collection document_id id : string) :
  (String.length id <= 20)%nat ->
  delete_json collection document_id id
  = js "{'type':'delete','id':'" +++ id +++ js "','collection':'"
       +++ c_str collection +++ js "','document_id':'" +++ c_str document_id
       +++ js "'}".
Proof.
  intros H. unfold delete_json, snprintf, strlen. apply string_take_all.
  rewrite !length_append. simpl String.length. lia.
Qed.

Lemma list_collections_json_full (id : string) :
  (String.length id <= 20)%nat ->
  list_collections_json id
  = js "{'type':'listcollections','id':'" +++ id +++ js "'}".
Proof.
  intros H. unfold list_collections_json, snprintf. apply string_take_all.
  rewrite !length_append. simpl String.length. lia.
Qed.

Lemma subscribe_json_full (query id : string) :
  (String.length id <= 20)%nat ->
  subscribe_json query id
  = js "{'type':'subscribe','id':'" +++ id +++ js "','query':'" +++ c_str query
       +++ js "'}".
Proof.
  intros H. unfold subscribe_json, snprintf, strlen. apply string_take_all.
  rewrite !length_append. simpl String.length. lia.
Qed.

Lemma unsubscribe_json_full (id : string) :
  (String.length id <= 20)%nat ->
  unsubscribe_json id = js "{'type':'unsubscribe','id':'" +++ id +++ js "'}".
Proof.
  intros H. unfold unsubscribe_json, snprintf. apply string_take_all.
  rewrite !length_append. simpl String.length. lia.
Qed.

(** X9.  The buffers the request operations format their texts into
    are always large enough: with an id from [next_request_id], the
    text of every request is the complete text, whatever the length and
    content of the query, collection, document id and data given.  The
    arguments go into the text as they are; nothing in them is
    escaped. *)
Theorem request_texts_are_complete (c : sqrl_client_t)
  (query collection document_id data : string) :
  let id := fst (next_request_id c) in
  ping_json id = js "{'type':'ping','id':'" +++ id +++ js "'}" /\
  query_json query id
  = js "{'type':'query','id':'" +++ id +++ js "','query':'" +++ c_str query
       +++ js "'}" /\
  insert_json collection data id
  = js "{'type':'insert','id':'" +++ id +++ js "','collection':'"
       +++ c_str collection +++ js "','data':" +++ c_str data +++ "}" /\
  update_json collection document_id data id
  = js "{'type':'update','id':'" +++ id +++ js "','collection':'"
       +++ c_str collection +++ js "','document_id':'" +++ c_str document_id
       +++ js "','data':" +++ c_str data +++ "}" /\
  delete_json collection document_id id
  = js "{'type':'delete','id':'" +++ id +++ js "','collection':'"
       +++ c_str collection +++ js "','document_id':'" +++ c_str document_id
       +++ js "'}" /\
  list_collections_json id
  = js "{'type':'listcollections','id':'" +++ id +++ js "'}" /\
  subscribe_json query id
  = js "{'type':'subscribe','id':'" +++ id +++ js "','query':'" +++ c_str query
       +++ js "'}" /\
  unsubscribe_json id = js "{'type':'unsubscribe','id':'" +++ id +++ js "'}".
Proof.
  intros id. pose proof (proj1 (next_request_id_text c)) as L. fold id in L.
  repeat split.
  - apply ping_json_full, L.
  - apply query_json_full, L.
  - apply insert_json_full, L.
  - apply update_json_full, L.
  - apply delete_json_full, L.
  - apply list_collections_json_full, L.
  - apply subscribe_json_full, L.
  - apply unsubscribe_json_full, L.
Qed.

Ltac normal_text :=
  match goal with
  | |- context [json_get_string ?t _] =>
      let t' := eval cbn in t in change t with t'
  end.

Ltac find_field :=
  unfold json_get_string, snprintf; cbv zeta;
  repeat match goal with
  | |- context [string_take ?n ?s] =>
      let r := eval vm_compute in (string_take n s) in
      change (string_take n s) with r
  end;
  repeat (rewrite strstr_skip by reflexivity);
  rewrite strstr_here by (cbn; first [reflexivity | apply prefix_nil]);
  cbn [String.length string_drop].

Ltac id_field H := normal_text; find_field; apply copy_to_quote_append; exact H.

Ltac type_field ty :=
  normal_text; find_field; exact (copy_to_quote_append ty _ eq_refl).

(** X10.  Every request text carries the request's own id and type
    where [json_get_string] finds them: whatever the query, collection,
    document id and data hold (double quotes and texts that look like
    an id field included), the id extracted from the text is the id
    [next_request_id] gave, and the type extracted is the operation's
    name. *)
Theorem request_text_carries_id_and_type (c : sqrl_client_t)
  (query collection document_id data : string) :
  let id := fst (next_request_id c) in
  Forall (fun p : string * string =>
            json_get_string (fst p) "id" = Some id /\
            json_get_string (fst p) "type" = Some (snd p))
    [ (ping_json id, "ping");
      (query_json query id, "query");
      (insert_json collection data id, "insert");
      (update_json collection document_id data id, "update");
      (delete_json collection document_id id, "delete");
      (list_collections_json id, "listcollections");
      (subscribe_json query id, "subscribe");
      (unsubscribe_json id, "unsubscribe") ].
Proof.
  intros id. destruct (next_request_id_text c) as [L Q]. fold id in L, Q.
  repeat (apply Forall_cons; [split; cbn [fst snd]|]); [..|apply Forall_nil].
  - rewrite ping_json_full by exact L. id_field Q.
  - rewrite ping_json_full by exact L. type_field "ping".
  - rewrite query_json_full by exact L. id_field Q.
  - rewrite query_json_full by exact L. type_field "query".
  - rewrite insert_json_full by exact L. id_field Q.
  - rewrite insert_json_full by exact L. type_field "insert".
  - rewrite update_json_full by exact L. id_field Q.
  - rewrite update_json_full by exact L. type_field "update".
  - rewrite delete_json_full by exact L. id_field Q.
  - rewrite delete_json_full by exact L. type_field "delete".
  - rewrite list_collections_json_full by exact L. id_field Q.
  - rewrite list_collections_json_full by exact L. type_field "listcollections".
  - rewrite subscribe_json_full by exact L. id_field Q.
  - rewrite subscribe_json_full by exact L. type_field "subscribe".
  - rewrite unsubscribe_json_full by exact L. id_field Q.
  - rewrite unsubscribe_json_full by exact L. type_field "unsubscribe".
Qed.

(** ** Responses and the pending list *)

Lemma dispatch_response_from_at (l : list pending_request_t) (addr : nat)
  (r : pending_request_t) (json : string) :
  NoDup (map req_id l) ->
  node_at l addr = Some r ->
  node_at (dispatch_response_from l (req_id r) json) addr
  = Some (mkPending (req_addr r) (req_id r) (Some json) (req_error r) true) /\
  unlink (dispatch_response_from l (req_id r) json) addr = unlink l addr.
Proof.
  induction l as [|x l IH]; [discriminate|].
  intros Hnd Hn. inversion Hnd as [|? ? Hx Hl]; subst.
  cbn [node_at] in Hn. cbn [dispatch_response_from]. unfold streq.
  destruct (Nat.eqb (req_addr x) addr) eqn:A.
  - inversion Hn; subst. rewrite String.eqb_refl.
    cbn [node_at unlink req_addr]. rewrite A. split; reflexivity.
  - destruct (String.eqb_spec (req_id x) (req_id r)) as [E|N].
    + exfalso. apply Hx. rewrite E. apply in_map.
      apply (node_at_In _ _ _ Hn).
    + cbn [node_at unlink]. rewrite A.
      destruct (IH Hl Hn) as [I1 I2]. split; [exact I1|].
      fold (streq (req_id r)). unfold streq in I2. rewrite I2. reflexivity.
Qed.

(** X11.  Delivery.  With pairwise distinct ids in the pending list, a
    response dispatched under the id of a waiting request reaches
    exactly that request: its caller finds it completed at the loop
    test and returns [SQRL_OK] with that very text, and the pending list
    it leaves behind is the list as it was without its own node; no
    other request has been touched. *)
Theorem response_reaches_its_caller (c : sqrl_client_t) (addr : nat)
  (r : pending_request_t) (json : string) :
  NoDup (map req_id (pending_requests c)) ->
  node_at (pending_requests c) addr = Some r ->
  send_request_test (dispatch_response c (req_id r) json) addr
  = Some ((SQRL_OK, Some json), pending_remove c addr).
Proof.
  intros Hnd Hn.
  destruct (dispatch_response_from_at _ addr r json Hnd Hn) as [A B].
  unfold send_request_test, dispatch_response, send_request_cleanup.
  destruct c; cbn [pending_requests set_pending] in *.
  rewrite A. cbn [req_completed req_response].
  unfold pending_remove. cbn [pending_requests set_pending].
  rewrite B. reflexivity.
Qed.

Lemma response_reaches_its_caller_witness :
  send_request_test
    (dispatch_response sample_client "2" (js "{'type':'result','id':'2'}")) 100
  = Some ((SQRL_OK, Some (js "{'type':'result','id':'2'}")),
          pending_remove sample_client 100).
Proof.
  apply (response_reaches_its_caller sample_client 100
           (mkPending 100 "2" None SQRL_OK false)).
  - repeat constructor. simpl. tauto.
  - reflexivity.
Defined.

Lemma dispatch_response_from_twice (l : list pending_request_t)
  (id first second : string) :
  dispatch_response_from (dispatch_response_from l id first) id second
  = dispatch_response_from l id second.
Proof.
  induction l as [|x l IH]; [reflexivity|].
  cbn [dispatch_response_from]. destruct (streq (req_id x) id) eqn:E.
  - cbn [dispatch_response_from req_id]. rewrite E. reflexivity.
  - cbn [dispatch_response_from]. rewrite E, IH. reflexivity.
Qed.

Lemma dispatch_response_from_swap (l : list pending_request_t)
  (id1 id2 json1 json2 : string) :
  id1 <> id2 ->
  dispatch_response_from (dispatch_response_from l id1 json1) id2 json2
  = dispatch_response_from (dispatch_response_from l id2 json2) id1 json1.
Proof.
  intros Hne. induction l as [|x l IH]; [reflexivity|].
  cbn [dispatch_response_from]. unfold streq.
  destruct (String.eqb_spec (req_id x) id1) as [E1|N1];
    destruct (String.eqb_spec (req_id x) id2) as [E2|N2];
    cbn [dispatch_response_from req_id]; unfold streq.
  - congruence.
  - destruct (String.eqb_spec (req_id x) id2); [congruence|].
    destruct (String.eqb_spec (req_id x) id1); [reflexivity | congruence].
  - destruct (String.eqb_spec (req_id x) id2); [|congruence].
    destruct (String.eqb_spec (req_id x) id1); [congruence | reflexivity].
  - destruct (String.eqb_spec (req_id x) id2); [congruence|].
    destruct (String.eqb_spec (req_id x) id1); [congruence|].
    fold (streq (req_id x)). unfold streq in IH. rewrite IH. reflexivity.
Qed.

(** X12.  How responses compose.  Of two responses with the same id
    that are dispatched before the caller has looked, the later one
    replaces the earlier: the caller is handed the second text.
    Responses with different ids do not interfere: dispatched in either
    order they leave the same pending list. *)
Theorem dispatch_response_composition (c : sqrl_client_t)
  (id1 id2 json1 json2 : string) :
  dispatch_response (dispatch_response c id1 json1) id1 json2
  = dispatch_response c id1 json2 /\
  (id1 <> id2 ->
   dispatch_response (dispatch_response c id1 json1) id2 json2
   = dispatch_response (dispatch_response c id2 json2) id1 json1).
Proof.
  unfold dispatch_response. destruct c; cbn [pending_requests set_pending].
  split.
  - rewrite dispatch_response_from_twice. reflexivity.
  - intros Hne. rewrite (dispatch_response_from_swap _ id1 id2) by exact Hne.
    reflexivity.
Qed.

Lemma dispatch_response_composition_witness :
  dispatch_response (dispatch_response two_pending "1" "a") "1" "b"
  = dispatch_response two_pending "1" "b" /\
  dispatch_response (dispatch_response two_pending "1" "a") "2" "b"
  = dispatch_response (dispatch_response two_pending "2" "b") "1" "a".
Proof.
  split.
  - exact (proj1 (dispatch_response_composition two_pending "1" "2" "a" "b")).
  - apply (proj2 (dispatch_response_composition two_pending "1" "2" "a" "b")).
    discriminate.
Defined.

(** ** What the reader thread does and does not do *)

Lemma kept_or_completed_refl (l : list pending_request_t) :
  Forall2 kept_or_completed l l.
Proof.
  induction l as [|x l IH]; constructor; [|exact IH].
  unfold kept_or_completed. auto.
Qed.

Lemma kept_or_completed_trans (l1 : list pending_request_t) :
  forall l2 l3,
    Forall2 kept_or_completed l1 l2 -> Forall2 kept_or_completed l2 l3 ->
    Forall2 kept_or_completed l1 l3.
Proof.
  induction l1 as [|x l1 IH]; intros l2 l3 H12 H23.
  - inversion H12; subst. inversion H23; subst. constructor.
  - inversion H12 as [|? y ? l2' Pxy F12]; subst.
    inversion H23 as [|? z ? l3' Pyz F23]; subst.
    constructor; [|eapply IH; eassumption].
    destruct Pxy as (A1 & I1 & E1 & K1). destruct Pyz as (A2 & I2 & E2 & K2).
    unfold kept_or_completed. repeat split; try congruence.
    destruct K2 as [->|K2]; [exact K1 | right; exact K2].
Qed.

Lemma dispatch_response_from_effect (l : list pending_request_t)
  (id json : string) :
  Forall2 kept_or_completed l (dispatch_response_from l id json).
Proof.
  induction l as [|x l IH]; [constructor|].
  cbn [dispatch_response_from]. destruct (streq (req_id x) id).
  - constructor; [|apply kept_or_completed_refl].
    unfold kept_or_completed. cbn. auto.
  - constructor; [|exact IH]. unfold kept_or_completed. auto.
Qed.

Lemma reader_effect_refl (c : sqrl_client_t) : reader_effect c c.
Proof.
  unfold reader_effect. repeat split; auto using kept_or_completed_refl.
Qed.

Lemma reader_effect_trans (c1 c2 c3 : sqrl_client_t) :
  reader_effect c1 c2 -> reader_effect c2 c3 -> reader_effect c1 c3.
Proof.
  intros (A1 & A2 & A3 & A4 & A5 & A6 & A7 & A8 & A9)
         (B1 & B2 & B3 & B4 & B5 & B6 & B7 & B8 & B9).
  unfold reader_effect. repeat split; try congruence.
  - eapply kept_or_completed_trans; eassumption.
  - destruct B9 as [B9|B9]; [rewrite B9; exact A9 | right; exact B9].
Qed.

Lemma reader_route_reader_effect (c : sqrl_client_t) (json : string) :
  reader_effect c (fst (reader_route c json)).
Proof.
  destruct (reader_route_effect c json) as [->|(id & _ & ->)].
  - apply reader_effect_refl.
  - unfold reader_effect, dispatch_response. destruct c.
    cbn [fd session_id encoding request_id request_timeout_ms reader_running
         subscriptions pending_requests connected set_pending].
    repeat split; auto using dispatch_response_from_effect.
Qed.

Lemma sock_recv_all_reads_only (s : socket) (len : nat) (t : Z) :
  net_out (snd (sock_recv_all s len t)) = net_out s /\
  wire (snd (sock_recv_all s len t)) = wire s.
Proof.
  unfold sock_recv_all. destruct (recv_all (net_in s) len t). split; reflexivity.
Qed.

Lemma recv_frame_reads_only (s : socket) :
  net_out (snd (recv_frame s)) = net_out s /\ wire (snd (recv_frame s)) = wire s.
Proof.
  unfold recv_frame.
  pose proof (sock_recv_all_reads_only s 6 0) as [A B].
  destruct (sock_recv_all s 6 0) as [[header|e|] s1]; cbn [snd] in *;
    try (split; assumption).
  destruct ((read_u32_be header <? 2)
            || (SQRL_MAX_MESSAGE_SIZE <? read_u32_be header))%bool;
    cbn [snd]; [split; assumption|].
  pose proof (sock_recv_all_reads_only s1
                (Z.to_nat (u32 (read_u32_be header - 2))) 0) as [A2 B2].
  destruct (sock_recv_all s1 (Z.to_nat (u32 (read_u32_be header - 2))) 0)
    as [[payload|e|] s2]; cbn [snd] in *; split; congruence.
Qed.

Lemma reader_iteration_reader_effect (c : sqrl_client_t) (s : socket) :
  reader_effect c (run_client (reader_iteration c s)) /\
  net_out (run_socket (reader_iteration c s)) = net_out s /\
  wire (run_socket (reader_iteration c s)) = wire s.
Proof.
  unfold reader_iteration.
  destruct (reader_running c) eqn:Hr; cbn [negb];
    [|split; [apply reader_effect_refl | split; reflexivity]].
  pose proof (recv_frame_reads_only s) as W.
  destruct (recv_frame s) as [[t payload | err |] s']; cbn [snd] in W.
  - pose proof (reader_route_reader_effect c
                  (c_str (string_of_list_byte payload))) as E.
    destruct (reader_route c (c_str (string_of_list_byte payload))) as [c' calls].
    cbn [fst run_client run_socket] in *. split; [exact E | exact W].
  - cbn [run_client run_socket]. split; [|exact W].
    unfold reader_effect, set_connected. destruct c.
    cbn [fd session_id encoding request_id request_timeout_ms reader_running
         subscriptions pending_requests connected].
    repeat split; auto using kept_or_completed_refl.
  - cbn [run_client run_socket]. split; [apply reader_effect_refl | exact W].
Qed.

(** X13.  However many frames the reader thread processes and whatever
    they hold, all it does to the client is complete pending requests
    and, on a failure, clear [connected].  It never adds, removes or
    reorders a pending request, never un-completes one, never touches
    the subscription list, the request counter, the session id or the
    timeout, never sets [connected], and never writes to the socket. *)
Theorem reader_thread_only_completes_requests (fuel : nat) :
  forall (c : sqrl_client_t) (s : socket),
    reader_effect c (run_client (reader_thread_func fuel c s)) /\
    net_out (run_socket (reader_thread_func fuel c s)) = net_out s /\
    wire (run_socket (reader_thread_func fuel c s)) = wire s.
Proof.
  induction fuel as [|fuel IH]; intros c s.
  - cbn. split; [apply reader_effect_refl | split; reflexivity].
  - cbn [reader_thread_func]. cbv zeta.
    pose proof (reader_iteration_reader_effect c s) as (E & O & W).
    destruct (run_status (reader_iteration c s)); try (split; [exact E | split; assumption]).
    cbn [run_client run_socket].
    destruct (IH (run_client (reader_iteration c s))
                 (run_socket (reader_iteration c s))) as (E' & O' & W').
    split; [eapply reader_effect_trans; eassumption | split; congruence].
Qed.

Lemma dispatch_change_from_calls (l : list subscription_entry_t)
  (id json : string) (call : callback_call) :
  In call (dispatch_change_from l id json) ->
  exists e, In e l /\ sub_id e = id /\
            call = Invoke (sub_callback e) (change_event_of json) (sub_user_data e).
Proof.
  induction l as [|e l IH]; [intros []|].
  cbn [dispatch_change_from]. unfold streq.
  destruct (String.eqb_spec (sub_id e) id) as [E|N].
  - intros [<-|[]]. exists e. repeat split; [left; reflexivity | exact E].
  - intros H. destruct (IH H) as (e' & I & K). exists e'.
    split; [right; exact I | exact K].
Qed.

Lemma reader_route_calls (c : sqrl_client_t) (json : string)
  (call : callback_call) :
  In call (snd (reader_route c json)) ->
  exists e change,
    In e (subscriptions c) /\ json_get_string json "id" = Some (sub_id e) /\
    call = Invoke (sub_callback e) (change_event_of change) (sub_user_data e).
Proof.
  unfold reader_route.
  destruct (json_get_string json "id") as [id|]; [|intros []].
  destruct (json_get_string json "type") as [ty|]; [|intros []].
  destruct (streq ty "change"); [|intros []].
  destruct (json_get_object json "change") as [change|]; [|intros []].
  cbn [snd]. unfold dispatch_change. intros H.
  destruct (dispatch_change_from_calls _ _ _ _ H) as (e & I & E & K).
  exists e, change. subst id. repeat split; assumption.
Qed.

Lemma reader_iteration_calls (c : sqrl_client_t) (s : socket)
  (call : callback_call) :
  In call (run_calls (reader_iteration c s)) ->
  exists e change,
    In e (subscriptions c) /\
    call = Invoke (sub_callback e) (change_event_of change) (sub_user_data e).
Proof.
  unfold reader_iteration.
  destruct (reader_running c); cbn [negb]; [|intros []].
  destruct (recv_frame s) as [[t payload | err |] s']; try (intros []).
  pose proof (reader_route_calls c (c_str (string_of_list_byte payload)) call) as K.
  destruct (reader_route c (c_str (string_of_list_byte payload))) as [c' calls].
  cbn [snd run_calls] in *. intros H.
  destruct (K H) as (e & change & I & _ & E). exists e, change. split; assumption.
Qed.

Lemma reader_thread_func_calls (fuel : nat) :
  forall (c : sqrl_client_t) (s : socket) (call : callback_call),
    In call (run_calls (reader_thread_func fuel c s)) ->
    exists e change,
      In e (subscriptions c) /\
      call = Invoke (sub_callback e) (change_event_of change) (sub_user_data e).
Proof.
  induction fuel as [|fuel IH]; intros c s call; [intros []|].
  cbn [reader_thread_func]. cbv zeta.
  pose proof (reader_iteration_calls c s call) as K.
  pose proof (reader_iteration_reader_effect c s) as (E & _).
  destruct (run_status (reader_iteration c s)); try exact K.
  cbn [run_calls]. intros H. apply in_app_or in H. destruct H as [H|H].
  - exact (K H).
  - destruct (IH _ _ _ H) as (e & change & I & C).
    exists e, change. split; [|exact C].
    destruct E as (_ & _ & _ & _ & _ & _ & S & _). rewrite <- S. exact I.
Qed.

(** X14.  Every call the reader thread makes is the call of a callback
    registered in the subscription list, with the user data registered
    along with it.  The event it passes holds a change type and nothing
    else: its document, its new document and its old data are always
    NULL, whatever the notification carried. *)
Theorem reader_calls_registered_callbacks (fuel : nat) (c : sqrl_client_t)
  (s : socket) (callback user_data : nat) (event : sqrl_change_event_t) :
  In (Invoke callback event user_data) (run_calls (reader_thread_func fuel c s)) ->
  (exists e, In e (subscriptions c) /\
             sub_callback e = callback /\ sub_user_data e = user_data) /\
  ev_document event = None /\ ev_new_doc event = None /\ ev_old_data event = None.
Proof.
  intros H. destruct (reader_thread_func_calls _ _ _ _ H) as (e & change & I & E).
  inversion E; subst. split; [exists e; auto|]. repeat split; reflexivity.
Qed.

Lemma reader_calls_registered_callbacks_witness :
  (exists e, In e (subscriptions sample_client) /\
             sub_callback e = 7%nat /\ sub_user_data e = 0%nat) /\
  ev_document (mkEvent SQRL_CHANGE_INSERT None None None) = None /\
  ev_new_doc (mkEvent SQRL_CHANGE_INSERT None None None) = None /\
  ev_old_data (mkEvent SQRL_CHANGE_INSERT None None None) = None.
Proof.
  apply (reader_calls_registered_callbacks 1 sample_client
           (sock_of_bytes
              (frame_bytes MSG_TYPE_NOTIFICATION
                 (js "{'type':'change','id':'1','change':{'type':'insert','new':{'a':1}}}")))).
  vm_compute. left. reflexivity.
Defined.

(** ** A request and its answer *)

Lemma sock_send_all_net_in (s : socket) (buf : list byte) :
  net_in (snd (sock_send_all s buf)) = net_in s.
Proof.
  unfold sock_send_all. destruct (send_all (net_out s) buf) as [[ok w] out].
  reflexivity.
Qed.

Lemma send_frame_ok (s s' : socket) (json : string) :
  send_frame s json = (SQRL_OK, s') ->
  net_in s' = net_in s /\ wire s' = wire s ++ frame_of json.
Proof.
  unfold send_frame. pose proof (sock_send_all_net_in s (frame_of json)) as N.
  destruct (sock_send_all s (frame_of json)) as [[|] s1] eqn:S;
    intros H; inversion H; subst. cbn [snd] in N.
  split; [exact N | apply sock_send_all_ok; exact S].
Qed.


Lemma reader_thread_func_idle (fuel : nat) (c : sqrl_client_t) (s : socket) :
  healthy (net_in s) = true -> net_bytes (net_in s) = [] ->
  run_client (reader_thread_func fuel c s) = c /\
  run_calls (reader_thread_func fuel c s) = [] /\
  wire (run_socket (reader_thread_func fuel c s)) = wire s.
Proof.
  intros Hh Hb. destruct fuel as [|fuel]; [repeat split|].
  cbn [reader_thread_func]. cbv zeta. unfold reader_iteration.
  destruct (reader_running c); cbn [negb]; [|repeat split].
  unfold recv_frame, sock_recv_all.
  rewrite (recv_all_healthy_short (net_in s) 6 0 Hh ltac:(lia))
    by (rewrite Hb; cbn; lia).
  cbn. repeat split.
Qed.



Lemma set_subscriptions_same (c : sqrl_client_t) :
  set_subscriptions c (subscriptions c) = c.
Proof. destruct c; reflexivity. Qed.





(** ** After the reader thread has failed *)

Lemma reader_broke_disconnects (fuel : nat) :
  forall (c : sqrl_client_t) (s : socket) (err : sqrl_error_t),
    run_status (reader_thread_func fuel c s) = ReaderBroke err ->
    connected (run_client (reader_thread_func fuel c s)) = false.
Proof.
  induction fuel as [|fuel IH]; intros c s err; [discriminate|].
  cbn [reader_thread_func]. cbv zeta. unfold reader_iteration.
  destruct (reader_running c) eqn:Hr; cbn [negb]; [|discriminate].
  destruct (recv_frame s) as [[t payload | e |] s'].
  - destruct (reader_route c (c_str (string_of_list_byte payload))) as [c' calls].
    cbn [run_status run_client run_socket]. apply IH.
  - cbn [run_status run_client]. intros _. reflexivity.
  - discriminate.
Qed.

(** X17.  Once the reader thread has stopped on a failed [recv_frame],
    the client counts as disconnected and every request operation fails
    fast: [sqrl_ping], [sqrl_query], [sqrl_insert], [sqrl_update],
    [sqrl_delete], [sqrl_list_collections] and [sqrl_subscribe] return
    [SQRL_ERR_CLOSED] at once, without taking a request id, without
    writing to the socket and without any result. *)
Theorem requests_fail_fast_after_reader_failure (fuel : nat) (c : sqrl_client_t)
  (s : socket) (err : sqrl_error_t) (env : wait_env)
  (query collection document_id data : string) (callback user_data : nat)
  (doc_out : bool) :
  run_status (reader_thread_func fuel c s) = ReaderBroke err ->
  let c' := run_client (reader_thread_func fuel c s) in
  let s' := run_socket (reader_thread_func fuel c s) in
  sqrl_is_connected (Some c') = false /\
  sqrl_ping (Some c') s' env = (Some SQRL_ERR_CLOSED, Some c', s', []) /\
  sqrl_query (Some c') s' (Some query) true env
  = (Some (SQRL_ERR_CLOSED, None), Some c', s', []) /\
  sqrl_insert (Some c') s' (Some collection) (Some data) true env
  = (Some (SQRL_ERR_CLOSED, None), Some c', s', []) /\
  sqrl_update (Some c') s' (Some collection) (Some document_id) (Some data) true env
  = (Some (SQRL_ERR_CLOSED, None), Some c', s', []) /\
  sqrl_delete (Some c') s' (Some collection) (Some document_id) doc_out env
  = (Some (SQRL_ERR_CLOSED, None), Some c', s', []) /\
  sqrl_list_collections (Some c') s' true true env
  = (Some (SQRL_ERR_CLOSED, []), Some c', s', []) /\
  sqrl_subscribe (Some c') s' (Some query) (Some callback) user_data true env
  = (Some (SQRL_ERR_CLOSED, None), Some c', s', []).
Proof.
  intros H. cbv zeta. pose proof (reader_broke_disconnects _ _ _ _ H) as K.
  unfold sqrl_is_connected, sqrl_ping, sqrl_query, sqrl_insert, sqrl_update,
    sqrl_delete, sqrl_list_collections, sqrl_subscribe, returns.
  rewrite K. cbn [negb]. repeat split.
Qed.

Lemma requests_fail_fast_after_reader_failure_witness :
  sqrl_is_connected
    (Some (run_client (reader_thread_func 3 sample_client
                         (mkSocket [Data ["000"%byte]; Eof] [] [])))) = false /\
  sqrl_ping
    (Some (run_client (reader_thread_func 3 sample_client
                         (mkSocket [Data ["000"%byte]; Eof] [] []))))
    (run_socket (reader_thread_func 3 sample_client
                   (mkSocket [Data ["000"%byte]; Eof] [] [])))
    (mkWaitEnv 200 1 WaitWoken)
  = (Some SQRL_ERR_CLOSED,
     Some (run_client (reader_thread_func 3 sample_client
                         (mkSocket [Data ["000"%byte]; Eof] [] []))),
     run_socket (reader_thread_func 3 sample_client
                   (mkSocket [Data ["000"%byte]; Eof] [] [])), []).
Proof.
  pose proof (requests_fail_fast_after_reader_failure 3 sample_client
                (mkSocket [Data ["000"%byte]; Eof] [] []) SQRL_ERR_RECV
                (mkWaitEnv 200 1 WaitWoken) "q" "c" "d" "{}" 7 9 true eq_refl)
    as (A & B & _).
  split; [exact A | exact B].
Defined.

(** ** Connecting *)

(** X18.  What [sqrl_connect] can return.  A client is handed out
    exactly when the result is [SQRL_OK]; every failure, at whatever
    stage, leaves nothing behind.  The result is never
    [SQRL_ERR_TIMEOUT] (a handshake that times out is reported as
    [SQRL_ERR_RECV]) and never [SQRL_ERR_CLOSED].  A client handed out
    is connected with its reader thread running, has made no request,
    has no pending request and no subscription, carries the request
    timeout of the options (30000 ms without options) and a session id
    of 36 characters, and all that was written to its socket is the
    handshake packet. *)
Theorem sqrl_connect_outcomes (client_out : bool) (host : option string)
  (port : Z) (options : option sqrl_options_t) (env : connect_env)
  (err : sqrl_error_t) (res : option (sqrl_client_t * socket)) :
  sqrl_connect client_out host port options env = (Some err, res) ->
  (res = None <-> err <> SQRL_OK) /\
  err <> SQRL_ERR_TIMEOUT /\ err <> SQRL_ERR_CLOSED /\
  (forall c s, res = Some (c, s) ->
     connected c = true /\ reader_running c = true /\
     request_id c = 0 /\ pending_requests c = [] /\ subscriptions c = [] /\
     fd c = env_fd env /\
     request_timeout_ms c
     = match options with
       | Some o => opt_request_timeout_ms o
       | None => 30000
       end /\
     (exists sid, session_id c = Some sid /\ String.length sid = 36%nat) /\
     wire s = wire (env_peer env) ++ handshake_packet options).
Proof.
  unfold sqrl_connect.
  destruct client_out;
    [|intros H; inversion H; subst; repeat split; try discriminate; auto].
  destruct host as [h|];
    [|intros H; inversion H; subst; repeat split; try discriminate; auto].
  destruct (negb (env_resolves env));
    [intros H; inversion H; subst; repeat split; try discriminate; auto|].
  destruct (env_fd env <? 0);
    [intros H; inversion H; subst; repeat split; try discriminate; auto|].
  destruct (negb (env_connects env));
    [intros H; inversion H; subst; repeat split; try discriminate; auto|].
  cbv zeta. unfold do_handshake.
  destruct (sock_send_all (env_peer env) (handshake_packet options))
    as [[|] s1] eqn:S;
    [|cbn; intros H; inversion H; subst; repeat split; try discriminate; auto].
  destruct (sock_recv_all s1 19 (handshake_timeout options))
    as [[resp | e |] s2] eqn:R;
    [|cbn; intros H; inversion H; subst; repeat split; try discriminate; auto
     |discriminate].
  destruct (sock_recv_all_ok _ _ _ _ _ R) as [Hlen _].
  destruct (uuid_to_string_groups resp Hlen) as [_ Hl].
  assert (W2 : wire s2 = wire s1).
  { unfold sock_recv_all in R.
    destruct (recv_all (net_in s1) 19 (handshake_timeout options)).
    inversion R; reflexivity. }
  apply sock_send_all_ok in S.
  cbv zeta.
  destruct (Zbyte (nth 0 resp "000"%byte) =? HANDSHAKE_VERSION_MISMATCH);
    [cbn; intros H; inversion H; subst; repeat split; try discriminate; auto|].
  destruct (Zbyte (nth 0 resp "000"%byte) =? HANDSHAKE_AUTH_FAILED);
    [cbn; intros H; inversion H; subst; repeat split; try discriminate; auto|].
  destruct (negb (Zbyte (nth 0 resp "000"%byte) =? HANDSHAKE_SUCCESS));
    [cbn; intros H; inversion H; subst; repeat split; try discriminate; auto|].
  cbn [is_ok error_code Z.eqb negb].
  destruct (env_thread_starts env);
    [|intros H; inversion H; subst; repeat split; try discriminate; auto].
  intros H; inversion H; subst.
  split; [split; [discriminate | congruence]|].
  split; [discriminate|]. split; [discriminate|].
  intros c s E. inversion E; subst.
  repeat split; try reflexivity.
  - exists (uuid_to_string (skipn 3 resp)). split; [reflexivity | exact Hl].
  - congruence.
Qed.

Lemma sqrl_connect_outcomes_witness :
  fst (sqrl_connect true (Some "localhost") 8082 None welcoming) = Some SQRL_OK /\
  forall c s,
    snd (sqrl_connect true (Some "localhost") 8082 None welcoming) = Some (c, s) ->
    connected c = true /\ reader_running c = true /\
    request_id c = 0 /\ pending_requests c = [] /\ subscriptions c = [] /\
    fd c = env_fd welcoming /\
    request_timeout_ms c = 30000 /\
    (exists sid, session_id c = Some sid /\ String.length sid = 36%nat) /\
    wire s = wire (env_peer welcoming) ++ handshake_packet None.
Proof.
  split; [reflexivity|].
  exact (proj2 (proj2 (proj2
           (sqrl_connect_outcomes true (Some "localhost") 8082 None welcoming
              SQRL_OK _ eq_refl)))).
Defined.

(** ** Error texts *)

(** X19.  [sqrl_error_string] gives each of the fifteen error codes a
    text of its own, none of them empty and none of them the text for
    unknown codes, which is what every number outside 0..14 gets. *)
Theorem sqrl_error_string_distinct (a b : sqrl_error_t) (z : Z) :
  (sqrl_error_string (error_code a) = sqrl_error_string (error_code b) -> a = b) /\
  sqrl_error_string (error_code a) <> "" /\
  sqrl_error_string (error_code a) <> "Unknown error" /\
  (z < 0 \/ 14 < z -> sqrl_error_string z = "Unknown error").
Proof.
  repeat split.
  - destruct a, b; cbn; intros H; first [reflexivity | discriminate H].
  - destruct a; discriminate.
  - destruct a; discriminate.
  - intros H. unfold sqrl_error_string.
    repeat match goal with
           | |- context [z =? ?k] =>
               destruct (Z.eqb_spec z k); [lia|]
           end.
    reflexivity.
Qed.

Lemma sqrl_error_string_distinct_witness :
  sqrl_error_string 99 = "Unknown error".
Proof.
  apply (proj2 (proj2 (proj2
           (sqrl_error_string_distinct SQRL_OK SQRL_OK 99)))).
  right. lia.
Defined.

(** ** Requests that get no answer *)

(** X20.  A ping that gets no answer.  On a connected client, when the
    frame cannot be sent [sqrl_ping] returns [SQRL_ERR_SEND]; when it
    is sent, nothing arrives and the timed wait runs out, it returns
    [SQRL_ERR_TIMEOUT].  Either way the node it had linked into the
    pending list is unlinked again: the client is left as it was but
    for the advanced request counter, and no callback has been made. *)
Theorem sqrl_ping_unanswered (c : sqrl_client_t) (s : socket) (env : wait_env) :
  connected c = true ->
  reader_running c = true ->
  let id := fst (next_request_id c) in
  let c1 := snd (next_request_id c) in
  (fst (send_frame s (ping_json id)) <> SQRL_OK ->
   sqrl_ping (Some c) s env
   = (Some SQRL_ERR_SEND, Some c1, snd (send_frame s (ping_json id)), [])) /\
  (fst (send_frame s (ping_json id)) = SQRL_OK ->
   healthy (net_in s) = true -> net_bytes (net_in s) = [] ->
   env_wake env = WaitTimedOut ->
   exists s',
     sqrl_ping (Some c) s env = (Some SQRL_ERR_TIMEOUT, Some c1, s', []) /\
     wire s' = wire s ++ frame_of (ping_json id)).
Proof.
  intros Hc Hr. cbv zeta.
  unfold sqrl_ping, after_request, request. rewrite Hc. cbn [negb].
  destruct (next_request_id c) as [id c1] eqn:N. cbn [fst snd].
  unfold send_request, send_request_begin. cbv zeta.
  destruct (send_frame s (ping_json id)) as [e s1] eqn:S. cbn [fst snd].
  assert (Es : e = SQRL_OK \/ e = SQRL_ERR_SEND).
  { unfold send_frame in S.
    destruct (sock_send_all s (frame_of (ping_json id))) as [[|] ?];
      inversion S; auto. }
  split.
  - intros Hne. destruct Es as [->| ->]; [congruence|].
    rewrite pending_remove_add. reflexivity.
  - intros -> Hh Hb Hw.
    destruct (send_frame_ok _ _ _ S) as [Nn W].
    destruct (reader_thread_func_idle (env_reader_passes env)
                (pending_add c1 (env_addr env) id) s1) as (Rc & Rk & Rw);
      [rewrite Nn; exact Hh | rewrite Nn; exact Hb |].
    rewrite Rc, Rk.
    assert (T : send_request_test (pending_add c1 (env_addr env) id) (env_addr env)
                = None).
    { unfold send_request_test, pending_add. destruct c1.
      cbn [pending_requests set_pending node_at req_addr].
      rewrite Nat.eqb_refl. reflexivity. }
    rewrite T, Hw. cbn [send_request_wake send_request_cleanup].
    rewrite pending_remove_add. cbn [is_ok error_code Z.eqb].
    eexists. split; [reflexivity|]. congruence.
Qed.

Lemma sqrl_ping_unanswered_witness :
  exists s',
    sqrl_ping (Some sample_client) (mkSocket [Quiet] [] [])
      (mkWaitEnv 200 2 WaitTimedOut)
    = (Some SQRL_ERR_TIMEOUT, Some (snd (next_request_id sample_client)), s', []) /\
    wire s' = [] ++ frame_of (ping_json (fst (next_request_id sample_client))).
Proof.
  apply (proj2 (sqrl_ping_unanswered sample_client (mkSocket [Quiet] [] [])
                  (mkWaitEnv 200 2 WaitTimedOut) eq_refl eq_refl));
    reflexivity.
Defined.

(** ** Unsubscribing *)





(** ** The 32-bit length field *)

(** X22.  [write_u32_be] and [read_u32_be] are inverse to each other:
    reading back what was written for a value below 2^32 gives the
    value, whatever follows in the buffer, and writing what was read
    from a buffer of at least four bytes gives its first four bytes.
    What [read_u32_be] returns is always below 2^32. *)
Theorem u32_be_round_trip (v : Z) (buf : list byte) :
  (0 <= v < 2 ^ 32 -> read_u32_be (write_u32_be v ++ buf) = v) /\
  ((4 <= List.length buf)%nat -> write_u32_be (read_u32_be buf) = firstn 4 buf) /\
  0 <= read_u32_be buf < 2 ^ 32.
Proof.
  split; [apply read_write_u32_be|]. split; [|apply read_u32_be_range].
  intros Hl.
  destruct buf as [|b0 [|b1 [|b2 [|b3 rest]]]]; cbn [List.length] in Hl; try lia.
  cbn [firstn].
  destruct (write_u32_be_bytes (read_u32_be (b0 :: b1 :: b2 :: b3 :: rest))
              (read_u32_be_range _)) as (a0 & a1 & a2 & a3 & E & V).
  rewrite E. rewrite read_u32_be_value in V. cbn [nth] in V.
  unfold be32_value in V.
  pose proof (Zbyte_range a0). pose proof (Zbyte_range a1).
  pose proof (Zbyte_range a2). pose proof (Zbyte_range a3).
  pose proof (Zbyte_range b0). pose proof (Zbyte_range b1).
  pose proof (Zbyte_range b2). pose proof (Zbyte_range b3).
  change (2 ^ 24) with 16777216 in V. change (2 ^ 16) with 65536 in V.
  change (2 ^ 8) with 256 in V.
  assert (Zbyte a0 = Zbyte b0 /\ Zbyte a1 = Zbyte b1 /\
          Zbyte a2 = Zbyte b2 /\ Zbyte a3 = Zbyte b3) as (E0 & E1 & E2 & E3) by lia.
  rewrite <- (byte_of_Z_Zbyte a0), <- (byte_of_Z_Zbyte a1),
          <- (byte_of_Z_Zbyte a2), <- (byte_of_Z_Zbyte a3).
  rewrite E0, E1, E2, E3, !byte_of_Z_Zbyte. reflexivity.
Qed.

Lemma u32_be_round_trip_witness :
  read_u32_be (write_u32_be 16777218 ++ ["002"%byte]) = 16777218 /\
  write_u32_be (read_u32_be ["001"%byte; "000"%byte; "000"%byte; "002"%byte; "007"%byte])
  = ["001"%byte; "000"%byte; "000"%byte; "002"%byte].
Proof.
  split.
  - apply (proj1 (u32_be_round_trip 16777218 ["002"%byte])). lia.
  - apply (proj1 (proj2 (u32_be_round_trip 0
             ["001"%byte; "000"%byte; "000"%byte; "002"%byte; "007"%byte]))).
    simpl. lia.
Defined.

(** ** Reading the data of a response *)

Lemma count_entries_quote (f count : nat) (n t : string) :
  occurs dquote n = false ->
  count_entries (S f) (String dquote (n +++ String dquote t)) count
  = count_entries f t (S count).
Proof.
  intros H. cbn [count_entries].
  change (Ascii.eqb dquote "]") with false.
  change (Ascii.eqb dquote dquote) with true. cbn iota.
  rewrite strchr_append by exact H. reflexivity.
Qed.

Lemma copy_entries_quote (f room : nat) (n t : string) :
  occurs dquote n = false ->
  copy_entries (S f) (String dquote (n +++ String dquote t)) (S room)
  = n :: copy_entries f t room.
Proof.
  intros H. cbn [copy_entries].
  change (Ascii.eqb dquote "]") with false.
  change (Ascii.eqb dquote dquote) with true. cbn iota.
  rewrite strchr_append by exact H. reflexivity.
Qed.

Lemma count_entries_tail (names : list string) :
  forall (fuel count : nat) (rest : string),
    Forall (fun n => occurs dquote n = false) names ->
    (2 * List.length names < fuel)%nat ->
    count_entries fuel (entries_tail names +++ String "]" rest) count
    = (count + List.length names)%nat.
Proof.
  induction names as [|n names IH]; intros fuel count rest Hq Hf.
  - destruct fuel as [|f]; [cbn in Hf; lia|]. cbn. lia.
  - inversion Hq as [|? ? Hn Hq']; subst. cbn [List.length] in Hf.
    destruct fuel as [|[|f]]; try lia.
    cbn [entries_tail]. rewrite !append_assoc.
    change ("," +++ String dquote n +++ String dquote (entries_tail names)
                +++ String "]" rest)
      with (String "," (String dquote
              (n +++ String dquote (entries_tail names +++ String "]" rest)))).
    change (count_entries (S (S f))
              (String "," (String dquote
                 (n +++ String dquote (entries_tail names +++ String "]" rest))))
              count)
      with (count_entries (S f)
              (String dquote
                 (n +++ String dquote (entries_tail names +++ String "]" rest)))
              count).
    rewrite count_entries_quote by exact Hn.
    rewrite IH by (try assumption; lia). cbn [List.length]. lia.
Qed.

Lemma copy_entries_tail (names : list string) :
  forall (fuel room : nat) (rest : string),
    Forall (fun n => occurs dquote n = false) names ->
    (2 * List.length names < fuel)%nat ->
    (List.length names <= room)%nat ->
    copy_entries fuel (entries_tail names +++ String "]" rest) room = names.
Proof.
  induction names as [|n names IH]; intros fuel room rest Hq Hf Hr.
  - destruct fuel as [|f]; [cbn in Hf; lia|]. destruct room; reflexivity.
  - inversion Hq as [|? ? Hn Hq']; subst. cbn [List.length] in Hf, Hr.
    destruct fuel as [|[|f]]; try lia. destruct room as [|room]; [lia|].
    cbn [entries_tail]. rewrite !append_assoc.
    change ("," +++ String dquote n +++ String dquote (entries_tail names)
                +++ String "]" rest)
      with (String "," (String dquote
              (n +++ String dquote (entries_tail names +++ String "]" rest)))).
    change (copy_entries (S (S f))
              (String "," (String dquote
                 (n +++ String dquote (entries_tail names +++ String "]" rest))))
              (S room))
      with (copy_entries (S f)
              (String dquote
                 (n +++ String dquote (entries_tail names +++ String "]" rest)))
              (S room)).
    rewrite copy_entries_quote by exact Hn.
    rewrite IH by (try assumption; lia). reflexivity.
Qed.

Lemma length_entries_tail (names : list string) :
  (2 * List.length names <= String.length (entries_tail names))%nat.
Proof.
  induction names as [|n names IH]; [cbn; lia|].
  cbn [entries_tail List.length String.append String.length].
  rewrite length_append. cbn [String.length]. lia.
Qed.

(** X23.  Reading the collection names.  When the data of the response
    is a compact array of strings (each name between double quotes,
    commas in between, no name holding a double quote), what
    [sqrl_list_collections] hands out is exactly these names, in order
    and as many as there are; the name may hold any other character,
    brackets and commas included. *)
Theorem collection_names_of_array (response rest : string) (names : list string) :
  Forall (fun n => occurs dquote n = false) names ->
  strstr response (quoted_key "data")
  = Some (quoted_key "data" +++ "[" +++ entries_text names +++ String "]" rest) ->
  collection_names response = names.
Proof.
  intros Hq Hs. unfold collection_names. rewrite Hs. cbv zeta.
  change (string_drop 7 (quoted_key "data" +++ "["
                           +++ entries_text names +++ String "]" rest))
    with (String "[" (entries_text names +++ String "]" rest)).
  destruct names as [|n names].
  - reflexivity.
  - inversion Hq as [|? ? Hn Hq']; subst.
    cbn [entries_text]. rewrite append_assoc.
    change (skip_to_entries
              (String "[" (String dquote n
                 +++ String dquote (entries_tail names) +++ String "]" rest)))
      with (String dquote
              (n +++ String dquote (entries_tail names +++ String "]" rest))).
    assert (Hl : (2 * List.length names + 2
                  <= String.length
                       (String dquote
                          (n +++ String dquote
                             (entries_tail names +++ String "]" rest))))%nat).
    { cbn [String.length]. rewrite !length_append.
      cbn [String.length]. rewrite length_append.
      pose proof (length_entries_tail names). lia. }
    destruct (String.length
                (String dquote
                   (n +++ String dquote (entries_tail names +++ String "]" rest))))
      as [|len]; [lia|].
    rewrite count_entries_quote by exact Hn.
    rewrite count_entries_tail by (try assumption; lia).
    cbn [Nat.add].
    rewrite copy_entries_quote by exact Hn.
    rewrite copy_entries_tail by (try assumption; lia). reflexivity.
Qed.

Lemma collection_names_of_array_witness :
  collection_names (js "{'type':'result','id':'4','data':['users','a]b','']}")
  = ["users"; "a]b"; ""].
Proof.
  apply (collection_names_of_array
           (js "{'type':'result','id':'4','data':['users','a]b','']}") "}"
           ["users"; "a]b"; ""]).
  - repeat constructor.
  - reflexivity.
Defined.

Lemma strip_trailing_closers (cl : string) :
  closers_only cl = true -> strip_trailing cl = "".
Proof.
  induction cl as [|a cl IH]; [reflexivity|].
  cbn [closers_only]. intros H. apply andb_true_iff in H. destruct H as [A B].
  cbn [strip_trailing]. rewrite (IH B), A. reflexivity.
Qed.

Lemma strip_trailing_append (v cl : string) :
  ends_with_closer v = false -> closers_only cl = true ->
  strip_trailing (v +++ cl) = v.
Proof.
  intros Hv Hc. induction v as [|a v IH]; [apply strip_trailing_closers, Hc|].
  cbn [String.append strip_trailing]. destruct v as [|b v].
  - cbn [String.append]. rewrite (strip_trailing_closers cl Hc).
    cbn [ends_with_closer] in Hv. rewrite Hv. reflexivity.
  - rewrite IH by exact Hv. reflexivity.
Qed.

Lemma skip_blanks_nl_spaces (sp v : string) :
  spaces_only sp = true -> starts_plain v = true ->
  skip_blanks_nl (sp +++ v) = v /\ skip_spaces (sp +++ v) = v.
Proof.
  intros Hs Hv. induction sp as [|a sp IH].
  - destruct v as [|x v]; [discriminate|]. cbn [starts_plain] in Hv.
    apply negb_true_iff in Hv. apply orb_false_iff in Hv. destruct Hv as [Hv _].
    cbn [String.append skip_blanks_nl skip_spaces]. rewrite Hv.
    apply orb_false_iff in Hv. destruct Hv as [Hv _].
    apply orb_false_iff in Hv. destruct Hv as [Hv _]. rewrite Hv. split; reflexivity.
  - cbn [spaces_only] in Hs. apply andb_true_iff in Hs. destruct Hs as [A B].
    cbn [String.append skip_blanks_nl skip_spaces]. rewrite A. cbn [orb].
    apply IH, B.
Qed.

Lemma starts_plain_append (v cl : string) :
  starts_plain v = true ->
  starts_plain (v +++ cl) = true /\
  exists x t, v +++ cl = String x t /\ Ascii.eqb x "{" = false.
Proof.
  destruct v as [|x v]; [discriminate|]. intros H.
  split; [exact H|]. exists x, (v +++ cl). split; [reflexivity|].
  cbn [starts_plain] in H. apply negb_true_iff in H.
  apply orb_false_iff in H. apply H.
Qed.

(** X24.  The data [sqrl_query] hands out.  When the data of the
    response is a JSON object, the result is that object, brace to
    matching brace.  When it is any other value that stands last in the
    response (an array, a number, a string), the result is the value
    itself, without the spaces before it and without the closing braces
    and newlines behind it.  When the response has no data field, the
    result is the text null. *)
Theorem query_data_cases (response : string) :
  (forall obj, json_get_object response "data" = Some obj ->
     query_data response = obj) /\
  (forall spaces v closers,
     strstr response (quoted_key "data")
     = Some (quoted_key "data" +++ spaces +++ v +++ closers) ->
     spaces_only spaces = true -> starts_plain v = true ->
     ends_with_closer v = false -> closers_only closers = true ->
     query_data response = v) /\
  (strstr response (quoted_key "data") = None -> query_data response = "null").
Proof.
  unfold query_data, json_get_object.
  change (snprintf 256 (quoted_key "data")) with (quoted_key "data").
  cbv zeta. repeat split.
  - intros obj H. rewrite H. reflexivity.
  - intros sp v cl Hs Hsp Hv He Hc. rewrite Hs.
    change (String.length (quoted_key "data")) with 7%nat.
    change (string_drop 7 (quoted_key "data" +++ sp +++ v +++ cl))
      with (sp +++ v +++ cl).
    destruct (starts_plain_append v cl Hv) as (Hp & x & t & E & Hx).
    destruct (skip_blanks_nl_spaces sp (v +++ cl) Hsp Hp) as [B1 B2].
    rewrite B1, B2. rewrite E, Hx, <- E.
    apply strip_trailing_append; assumption.
  - intros H. rewrite H. reflexivity.
Qed.

Lemma query_data_cases_witness :
  query_data (js "{'type':'result','id':'4','data': [{'a':1},{'a':2}]}")
  = js "[{'a':1},{'a':2}]".
Proof.
  apply (proj1 (proj2 (query_data_cases
           (js "{'type':'result','id':'4','data': [{'a':1},{'a':2}]}")))
           " " (js "[{'a':1},{'a':2}]") "}");
    reflexivity.
Defined.

(** ** One outcome for every call *)

Lemma returned_app_called (calls : list callback_call) (log : list log_entry) :
  returned (map Called calls ++ log) = returned log.
Proof. induction calls as [|x calls IH]; [reflexivity | exact IH]. Qed.

Lemma move_caller_ids (l : list caller) (addr : nat) (pc : wait_pc) :
  map caller_id (move_caller l addr pc) = map caller_id l.
Proof.
  induction l as [|x l IH]; [reflexivity|].
  cbn [move_caller]. destruct (Nat.eqb (caller_req x) addr); cbn [map caller_id].
  - reflexivity.
  - rewrite IH. reflexivity.
Qed.

Lemma drop_caller_ids (l : list caller) (addr : nat) (k : caller) :
  NoDup (map caller_id l) ->
  caller_at l addr = Some k ->
  NoDup (map caller_id (drop_caller l addr)) /\
  (forall k', In k' (drop_caller l addr) -> caller_id k' <> caller_id k).
Proof.
  induction l as [|x l IH]; [discriminate|].
  intros Hnd Hk. inversion Hnd as [|? ? Hx Hl]; subst.
  cbn [caller_at] in Hk. cbn [drop_caller].
  destruct (Nat.eqb (caller_req x) addr).
  - inversion Hk; subst. split; [exact Hl|].
    intros k' Hk' E. apply Hx. rewrite <- E. apply in_map. exact Hk'.
  - destruct (IH Hl Hk) as [Hnd' Hne]. split.
    + cbn [map]. constructor; [|exact Hnd'].
      intros Hin. apply Hx. apply in_map_iff in Hin.
      destruct Hin as (k' & Ek & Hk'). apply in_map_iff. exists k'.
      split; [exact Ek | eapply drop_caller_incl; exact Hk'].
    + intros k' [<-|Hk'].
      * intros E. apply Hx. rewrite E. apply in_map.
        apply (caller_at_In _ _ _ Hk).
      * apply Hne. exact Hk'.
Qed.

Lemma callers_issued (sys : system) (k : caller) :
  sys_inv sys -> In k (sys_callers sys) ->
  In (caller_id k) (issued (sys_log sys)).
Proof.
  intros Hinv Hin. destruct (inv_callers sys Hinv k Hin) as (r & Hnode & <-).
  apply (inv_pending_issued sys Hinv). apply (node_at_In _ _ _ Hnode).
Qed.

Lemma boot_once (c : sqrl_client_t) (s : socket) : once_inv (boot c s).
Proof.
  constructor; cbn.
  - intros id [].
  - intros _. constructor.
  - intros _. constructor.
  - intros _ k [].
Qed.

Lemma submit_once (sys : system) (addr : nat) (build : string -> string) :
  sys_inv sys -> once_inv sys -> once_inv (submit sys addr build).
Proof.
  intros Hinv [Hri Hcn Hrn Hap].
  pose proof (callers_issued sys) as Hci.
  pose proof (inv_counter sys Hinv) as Hc.
  pose proof (inv_issued sys Hinv) as Hi.
  open_system sys.
  unfold submit. cbn [sys_client sys_socket sys_reader_done sys_callers sys_log].
  destruct (connected c); cbn [negb].
  2: { constructor; cbn [sys_client sys_socket sys_reader_done sys_callers
         sys_log issued returned]; assumption. }
  rewrite next_request_id_spec.
  set (n := List.length (issued log)) in *.
  assert (Eid : fmt_llu (request_id c + 1) = id_of (S n))
    by (rewrite Hc; apply fmt_llu_u64_succ).
  rewrite Eid.
  assert (Fresh : Z.of_nat (S n) < 2 ^ 64 -> ~ In (id_of (S n)) (issued log)).
  { intros Hn. rewrite Hi. apply id_of_fresh. exact Hn. }
  destruct (send_request_begin_cases (set_request_id c (u64 (request_id c + 1))) s
              (build (id_of (S n))) (id_of (S n)) addr) as (s' & [E|E]); rewrite E.
  - constructor; cbn [sys_client sys_socket sys_reader_done sys_callers sys_log
      issued returned List.length map caller_id]; fold n.
    + intros id Hin. right. apply Hri. exact Hin.
    + intros Hn. constructor; [|apply Hcn; lia].
      intros Hin. apply in_map_iff in Hin. destruct Hin as (k & Ek & Hk).
      apply (Fresh Hn). rewrite <- Ek. apply (Hci k Hinv Hk).
    + intros Hn. apply Hrn. lia.
    + intros Hn k [<-|Hk].
      * cbn [caller_id]. intros Hin. apply (Fresh Hn). apply Hri. exact Hin.
      * apply Hap; [lia | exact Hk].
  - constructor; cbn [sys_client sys_socket sys_reader_done sys_callers sys_log
      issued returned List.length]; fold n.
    + intros id [<-|Hin]; [left; reflexivity | right; apply Hri; exact Hin].
    + intros Hn. apply Hcn. lia.
    + intros Hn. constructor; [|apply Hrn; lia].
      intros Hin. apply (Fresh Hn). apply Hri. exact Hin.
    + intros Hn k Hk [E'|Hin].
      * apply (Fresh Hn). rewrite E'. apply (Hci k Hinv Hk).
      * exact (Hap ltac:(lia) k Hk Hin).
Qed.

Lemma caller_moves_once (sys : system) (k : caller)
  (out : option (request_result * sqrl_client_t)) (pc : wait_pc) :
  sys_inv sys -> once_inv sys ->
  caller_at (sys_callers sys) (caller_req k) = Some k ->
  once_inv (caller_moves sys k out pc).
Proof.
  intros Hinv [Hri Hcn Hrn Hap] Hk.
  pose proof (callers_issued sys k Hinv (proj1 (caller_at_In _ _ _ Hk))) as Hki.
  open_system sys.
  unfold caller_moves. cbn [sys_client sys_socket sys_reader_done sys_callers sys_log].
  destruct out as [[res c']|].
  - constructor; cbn [sys_client sys_socket sys_reader_done sys_callers sys_log
      issued returned].
    + intros id [<-|Hin]; [exact Hki | apply Hri; exact Hin].
    + intros Hn. apply (drop_caller_ids callers (caller_req k) k (Hcn Hn) Hk).
    + intros Hn. constructor; [|apply Hrn; exact Hn].
      apply (Hap Hn). apply (caller_at_In _ _ _ Hk).
    + intros Hn k' Hk' [E|Hin].
      * exact (proj2 (drop_caller_ids callers (caller_req k) k (Hcn Hn) Hk)
                 k' Hk' (eq_sym E)).
      * apply (Hap Hn k'); [eapply drop_caller_incl; exact Hk' | exact Hin].
  - constructor; cbn [sys_client sys_socket sys_reader_done sys_callers sys_log].
    + exact Hri.
    + intros Hn. rewrite move_caller_ids. apply Hcn. exact Hn.
    + exact Hrn.
    + intros Hn k' Hk'.
      destruct (move_caller_In _ _ _ _ Hk') as (k0 & H0 & _ & <-).
      apply Hap; assumption.
Qed.

Lemma step_once (sys sys' : system) (ev : event) :
  sys_inv sys -> once_inv sys -> step sys ev = Some sys' -> once_inv sys'.
Proof.
  intros Hinv Hon. destruct ev as [addr build | addr | addr ret |]; cbn [step].
  - destruct (addr_in_use (sys_client sys) addr); [discriminate|].
    intros H. inversion H; subst. apply submit_once; assumption.
  - destruct (caller_at (sys_callers sys) addr) as [k|] eqn:K; [|discriminate].
    destruct (caller_at_In _ _ _ K) as [_ Ea]. subst addr.
    destruct (caller_pc k); [|discriminate].
    intros H. inversion H; subst. apply caller_moves_once; assumption.
  - destruct (caller_at (sys_callers sys) addr) as [k|] eqn:K; [|discriminate].
    destruct (caller_at_In _ _ _ K) as [_ Ea]. subst addr.
    destruct (caller_pc k); [discriminate|].
    intros H. inversion H; subst. apply caller_moves_once; assumption.
  - destruct Hon as [Hri Hcn Hrn Hap].
    destruct (sys_reader_done sys); [discriminate|].
    destruct (run_status (reader_iteration (sys_client sys) (sys_socket sys)));
      intros H; inversion H; subst;
      constructor; cbn [sys_client sys_socket sys_reader_done sys_callers sys_log];
      rewrite ?returned_app_called, ?issued_app_called; assumption.
Qed.

(** ** Calls that enter step by step *)

Lemma send_request_begin_halves (c : sqrl_client_t) (s : socket)
  (json id : string) (addr : nat) :
  send_request_begin c s json id addr
  = send_request_send (pending_add c addr id) s json addr.
Proof. reflexivity. Qed.

Lemma send_request_send_cases (c : sqrl_client_t) (s : socket)
  (json : string) (addr : nat) :
  exists s',
    send_request_send c s json addr = (None, c, s') \/
    send_request_send c s json addr
    = (Some (SQRL_ERR_SEND, None), pending_remove c addr, s').
Proof.
  unfold send_request_send, send_frame.
  destruct (sock_send_all s (frame_of json)) as [[|] s'];
    exists s'; [left | right]; reflexivity.
Qed.

Lemma at_thread_same (threads : nat -> option entry_pc) (t : nat)
  (pc : option entry_pc) : at_thread threads t pc t = pc.
Proof. unfold at_thread. rewrite Nat.eqb_refl. reflexivity. Qed.

Lemma at_thread_other (threads : nat -> option entry_pc) (t t' : nat)
  (pc : option entry_pc) : t' <> t -> at_thread threads t pc t' = threads t'.
Proof.
  intros N. unfold at_thread. destruct (Nat.eqb_spec t' t); [contradiction | reflexivity].
Qed.

(** [submit] is the run of [entry_steps] by a thread that is not in a
    call, or of its first step alone when the client is not connected. *)
Lemma submit_as_entry_steps (f : fine_system) (t addr : nat)
  (build : string -> string) :
  fine_threads f t = None ->
  addr_in_use (sys_client (fine_sys f)) addr = false ->
  exists f',
    fine_run f (if connected (sys_client (fine_sys f))
                then entry_steps t addr build else [FeCall t build]) = Some f' /\
    fine_sys f' = submit (fine_sys f) addr build /\
    forall t', fine_threads f' t' = fine_threads f t'.
Proof.
  destruct f as [[c s d callers log] threads].
  cbn [fine_threads fine_sys sys_client]. intros Ht Hfree.
  unfold submit. cbn [sys_client sys_socket sys_reader_done sys_callers sys_log].
  destruct (connected c) eqn:Hc; cbn [negb].
  - unfold entry_steps.
    cbn [fine_run fine_step fine_sys fine_threads sys_client sys_socket
         sys_reader_done sys_callers sys_log].
    rewrite Ht, Hc. cbn [negb].
    cbn [fine_run fine_step fine_sys fine_threads sys_client sys_socket
         sys_reader_done sys_callers sys_log].
    rewrite at_thread_same.
    cbn [fine_run fine_step fine_sys fine_threads sys_client sys_socket
         sys_reader_done sys_callers sys_log].
    rewrite at_thread_same.
    rewrite <- next_request_id_halves.
    destruct (next_request_id c) as [id c1] eqn:Hn.
    assert (Hp : pending_requests c1 = pending_requests c).
    { unfold next_request_id in Hn. inversion Hn. reflexivity. }
    cbn [fine_run fine_step fine_sys fine_threads sys_client sys_socket
         sys_reader_done sys_callers sys_log].
    rewrite at_thread_same.
    replace (addr_in_use c1 addr) with false
      by (unfold addr_in_use in *; rewrite Hp; symmetry; exact Hfree).
    cbn [fine_run fine_step fine_sys fine_threads sys_client sys_socket
         sys_reader_done sys_callers sys_log].
    rewrite at_thread_same.
    rewrite send_request_begin_halves.
    destruct (send_request_send (pending_add c1 addr id) s (build id) addr)
      as [[[res|] c2] s2];
      (eexists; split; [reflexivity|]; split; [reflexivity|]);
      intros t'; cbn [fine_threads]; unfold at_thread;
      destruct (Nat.eqb_spec t' t) as [->|N]; auto.
  - cbn [fine_run fine_step fine_sys fine_threads sys_client sys_socket
         sys_reader_done sys_callers sys_log].
    rewrite Ht, Hc. cbn [negb].
    eexists. split; [reflexivity|]. split; reflexivity.
Qed.

Lemma node_ids_apart (l : list pending_request_t) (a b : nat)
  (r1 r2 : pending_request_t) :
  NoDup (map req_id l) ->
  node_at l a = Some r1 -> node_at l b = Some r2 -> a <> b ->
  req_id r1 <> req_id r2.
Proof.
  induction l as [|x l IH]; [discriminate|].
  cbn [map node_at]. intros Hnd H1 H2 Hab.
  inversion Hnd as [|? ? Hx Hl]; subst.
  destruct (Nat.eqb_spec (req_addr x) a) as [Ea|Na];
    destruct (Nat.eqb_spec (req_addr x) b) as [Eb|Nb].
  - congruence.
  - inversion H1; subst. intros E. apply Hx. rewrite E.
    apply in_map. apply (node_at_In _ _ _ H2).
  - inversion H2; subst. intros E. apply Hx. rewrite <- E.
    apply in_map. apply (node_at_In _ _ _ H1).
  - apply IH; assumption.
Qed.

Lemma unlink_ids_incl (l : list pending_request_t) (a : nat) (id : string) :
  In id (map req_id (unlink l a)) -> In id (map req_id l).
Proof.
  intros H. apply in_map_iff in H. destruct H as (r & E & Hr).
  apply in_map_iff. exists r. split; [exact E | eapply unlink_incl; exact Hr].
Qed.

Lemma caller_moves_frame (sys : system) (k : caller)
  (out : option (request_result * sqrl_client_t)) (pc : wait_pc) :
  In k (sys_callers sys) ->
  (forall res c', out = Some (res, c') ->
     c' = pending_remove (sys_client sys) (caller_req k)) ->
  entry_frame sys (caller_moves sys k out pc).
Proof.
  intros Hin Hout. open_system sys. unfold caller_moves, entry_frame.
  cbn [sys_client sys_socket sys_reader_done sys_callers sys_log].
  destruct out as [[res c']|];
    cbn [sys_client sys_socket sys_reader_done sys_callers sys_log issued returned].
  - rewrite (Hout res c' eq_refl).
    cbn [pending_remove pending_requests set_pending].
    split; [reflexivity|]. split; [right; exists k; split; [exact Hin | reflexivity]|].
    split; [intros id; apply unlink_ids_incl|]. split.
    + intros a Ha. apply in_map_iff in Ha. destruct Ha as (k' & <- & Hk').
      apply in_map. eapply drop_caller_incl. exact Hk'.
    + intros a r Hnode Hna. exists r. split; [|reflexivity].
      rewrite node_at_unlink_other; [exact Hnode|].
      intros E. apply Hna. rewrite <- E. apply in_map. exact Hin.
  - split; [reflexivity|]. split; [left; reflexivity|].
    split; [auto|]. split.
    + rewrite move_caller_reqs. auto.
    + intros a r Hnode _. exists r. split; [exact Hnode | reflexivity].
Qed.

Lemma wait_step_frame (sys sys' : system) (ev : event) :
  (forall addr build, ev <> EvSubmit addr build) ->
  step sys ev = Some sys' -> entry_frame sys sys'.
Proof.
  intros Hev. destruct ev as [addr build | addr | addr ret |]; cbn [step].
  - destruct (Hev addr build eq_refl).
  - destruct (caller_at (sys_callers sys) addr) as [k|] eqn:K; [|discriminate].
    destruct (caller_at_In _ _ _ K) as [Hin <-].
    destruct (caller_pc k); [|discriminate].
    intros H. inversion H; subst. apply caller_moves_frame; [exact Hin|].
    intros res c' E. apply (send_request_test_result _ _ _ _ E).
  - destruct (caller_at (sys_callers sys) addr) as [k|] eqn:K; [|discriminate].
    destruct (caller_at_In _ _ _ K) as [Hin <-].
    destruct (caller_pc k); [discriminate|].
    intros H. inversion H; subst. apply caller_moves_frame; [exact Hin|].
    intros res c' E. apply (send_request_wake_result _ _ _ _ _ E).
  - destruct (sys_reader_done sys); [discriminate|].
    destruct (reader_iteration_effect (sys_client sys) (sys_socket sys)) as [_ Hpend].
    assert (Hids : forall id,
               In id (map req_id (pending_requests
                        (run_client (reader_iteration (sys_client sys) (sys_socket sys))))) ->
               In id (map req_id (pending_requests (sys_client sys)))).
    { intros id. destruct Hpend as [->|(i & j & _ & ->)]; [auto|].
      rewrite dispatch_response_from_ids. auto. }
    assert (Hnodes : forall a r,
               node_at (pending_requests (sys_client sys)) a = Some r ->
               exists r',
                 node_at (pending_requests
                            (run_client (reader_iteration (sys_client sys) (sys_socket sys)))) a
                 = Some r' /\ req_id r' = req_id r).
    { intros a r Hnode. destruct Hpend as [->|(i & j & _ & ->)].
      - exists r. split; [exact Hnode | reflexivity].
      - apply dispatch_response_from_node. exact Hnode. }
    destruct (run_status (reader_iteration (sys_client sys) (sys_socket sys)));
      intros H; inversion H; subst; unfold entry_frame;
      cbn [sys_client sys_socket sys_reader_done sys_callers sys_log];
      rewrite ?issued_app_called, ?returned_app_called;
      (split; [reflexivity|]; split; [left; reflexivity|];
       split; [exact Hids|]; split; [auto|]; intros a r Hnode _; apply Hnodes; exact Hnode).
Qed.

Ltac open_fine f :=
  destruct f as [[c s d callers log] threads];
  cbn [fine_sys fine_threads sys_client sys_socket sys_reader_done sys_callers
       sys_log] in *.

(** Split on whether a thread looked up after an update is the one
    that was updated. *)
Ltac look H :=
  cbn [fine_threads] in H; unfold at_thread in H;
  repeat match type of H with
         | context [Nat.eqb ?a ?b] =>
             destruct (Nat.eqb_spec a b) as [?E|?N];
             [first [subst a | subst b | idtac]|]
         end;
  try discriminate H.

Lemma boot_entry_inv (c : sqrl_client_t) (s : socket) :
  request_id c = 0 -> pending_requests c = [] -> entry_inv (fine_boot c s).
Proof.
  intros Hid Hp. constructor; cbn [fine_boot fine_sys fine_threads];
    try discriminate.
  - apply boot_inv; assumption.
  - apply boot_once.
Qed.

Lemma call_entry_inv (f f' : fine_system) (t : nat) (build : string -> string) :
  entry_inv f -> fine_step f (FeCall t build) = Some f' -> entry_inv f'.
Proof.
  intros [Hs Ho Hl Hni Hnf Hna Hln Hla Hlf]. open_fine f. cbn [fine_step].
  cbn [fine_sys fine_threads sys_client sys_socket sys_reader_done sys_callers
       sys_log].
  destruct (threads t) eqn:Ht; [discriminate|].
  destruct (connected c); cbn [negb]; intros H; inversion H; subst; clear H.
  - constructor;
      cbn [fine_sys fine_threads sys_client sys_socket sys_reader_done
           sys_callers sys_log]; unfold below_wrap in *.
    + exact Hs.
    + exact Ho.
    + intros t' b seen K. look K. exact (Hl _ _ _ K).
    + intros t' id json K. look K. exact (Hni _ _ _ K).
    + intros Hn t' id json K. look K. exact (Hnf Hn _ _ _ K).
    + intros Hn t1 t2 id j1 j2 K1 K2. look K1. look K2.
      exact (Hna Hn _ _ _ _ _ K1 K2).
    + intros t' addr id json K. look K. exact (Hln _ _ _ _ K).
    + intros t1 t2 addr id1 j1 id2 j2 K1 K2. look K1. look K2.
      exact (Hla _ _ _ _ _ _ _ K1 K2).
    + intros Hn t' addr id json K. look K. exact (Hlf Hn _ _ _ _ K).
  - destruct Hs as [Hc Hi Hk Hkn Hp Hr Hret Hnd].
    destruct Ho as [Hri Hcn Hrn Hap].
    constructor;
      cbn [fine_sys fine_threads sys_client sys_socket sys_reader_done
           sys_callers sys_log issued returned]; unfold below_wrap in *;
      cbn [sys_log issued] in *; try assumption.
    + constructor;
        cbn [sys_client sys_socket sys_reader_done sys_callers sys_log issued];
        try assumption.
      intros id json [K|K]; [discriminate | apply Hret; exact K].
    + constructor;
        cbn [sys_client sys_socket sys_reader_done sys_callers sys_log issued
             returned]; assumption.
Qed.

Lemma issued_pending_fresh (sys : system) :
  sys_inv sys ->
  Z.of_nat (S (List.length (issued (sys_log sys)))) < 2 ^ 64 ->
  ~ In (id_of (S (List.length (issued (sys_log sys))))) (issued (sys_log sys)).
Proof.
  intros Hs Hn. rewrite (inv_issued sys Hs) at 2. apply id_of_fresh. exact Hn.
Qed.

(** A read of the counter and the write that follows it at once. *)
Lemma increment_entry_inv (f f1 f2 : fine_system) (t : nat) :
  entry_inv f ->
  fine_step f (FeLoad t) = Some f1 ->
  fine_step f1 (FeStore t) = Some f2 ->
  entry_inv f2.
Proof.
  intros [Hs Ho Hl Hni Hnf Hna Hln Hla Hlf].
  pose proof (issued_pending_fresh _ Hs) as Fresh.
  open_fine f. cbn [fine_step].
  cbn [fine_sys fine_threads sys_client sys_socket sys_reader_done sys_callers
       sys_log].
  destruct (threads t) as [[build| | |]|] eqn:Ht; try discriminate.
  intros H; inversion H; subst; clear H. cbn [fine_step].
  cbn [fine_sys fine_threads sys_client sys_socket sys_reader_done sys_callers
       sys_log].
  rewrite at_thread_same. rewrite <- next_request_id_halves, next_request_id_spec.
  intros H; inversion H; subst; clear H.
  destruct Hs as [Hc Hi Hk Hkn Hp Hr Hret Hnd].
  destruct Ho as [Hri Hcn Hrn Hap].
  cbn [sys_client sys_socket sys_reader_done sys_callers sys_log] in *.
  set (n := List.length (issued log)) in *.
  assert (Eid : fmt_llu (request_id c + 1) = id_of (S n))
    by (rewrite Hc; apply fmt_llu_u64_succ).
  assert (Ecnt : u64 (request_id c + 1) = u64 (Z.of_nat (S n))).
  { rewrite Hc. unfold u64. rewrite Zplus_mod_idemp_l, Nat2Z.inj_succ. reflexivity. }
  rewrite Eid.
  constructor;
    cbn [fine_sys fine_threads sys_client sys_socket sys_reader_done
         sys_callers sys_log]; unfold below_wrap in *;
    cbn [sys_log issued returned List.length] in *; fold n.
  - constructor;
      cbn [sys_client sys_socket sys_reader_done sys_callers sys_log issued
           List.length set_request_id request_id pending_requests]; fold n.
    + exact Ecnt.
    + cbn [ids_upto]. f_equal. exact Hi.
    + exact Hk.
    + exact Hkn.
    + intros r Hin. right. apply Hp. exact Hin.
    + exact Hr.
    + intros id json [K|K]; [discriminate|].
      destruct (Hret id json K) as [Hin Hj]. split; [right; exact Hin | exact Hj].
    + intros Hn. apply Hnd. lia.
  - constructor;
      cbn [sys_client sys_socket sys_reader_done sys_callers sys_log issued
           returned List.length]; fold n.
    + intros id Hin. right. apply Hri. exact Hin.
    + intros Hn. apply Hcn. lia.
    + intros Hn. apply Hrn. lia.
    + intros Hn. apply Hap. lia.
  - intros t' b seen K. look K. exact (Hl _ _ _ K).
  - intros t' id json K. look K.
    + inversion K; subst. left. reflexivity.
    + right. exact (Hni _ _ _ K).
  - intros Hn t' id json K. look K.
    + inversion K; subst. split.
      * intros Hin. apply in_map_iff in Hin. destruct Hin as (r & Er & Hin).
        apply (Fresh Hn). rewrite <- Er. apply Hp. exact Hin.
      * intros Hin. apply (Fresh Hn). apply Hri. exact Hin.
    + apply (Hnf ltac:(lia) _ _ _ K).
  - intros Hn t1 t2 id j1 j2 K1 K2. look K1; look K2.
    + reflexivity.
    + inversion K1; subst. destruct (Fresh Hn). exact (Hni _ _ _ K2).
    + inversion K2; subst. destruct (Fresh Hn). exact (Hni _ _ _ K1).
    + exact (Hna ltac:(lia) _ _ _ _ _ K1 K2).
  - intros t' addr id json K. look K. exact (Hln _ _ _ _ K).
  - intros t1 t2 addr id1 j1 id2 j2 K1 K2. look K1; look K2.
    exact (Hla _ _ _ _ _ _ _ K1 K2).
  - intros Hn t' addr id json K. look K. exact (Hlf ltac:(lia) _ _ _ _ K).
Qed.

Lemma link_entry_inv (f f' : fine_system) (t addr : nat) :
  entry_inv f -> fine_step f (FeLink t addr) = Some f' -> entry_inv f'.
Proof.
  intros [Hs Ho Hl Hni Hnf Hna Hln Hla Hlf]. open_fine f. cbn [fine_step].
  cbn [fine_sys fine_threads sys_client sys_socket sys_reader_done sys_callers
       sys_log].
  destruct (threads t) as [[ | |id json|]|] eqn:Ht; try discriminate.
  destruct (addr_in_use c addr) eqn:Hfree; [discriminate|].
  intros H; inversion H; subst; clear H.
  destruct Hs as [Hc Hi Hk Hkn Hp Hr Hret Hnd].
  destruct Ho as [Hri Hcn Hrn Hap].
  cbn [sys_client sys_socket sys_reader_done sys_callers sys_log] in *.
  assert (Hfresh : forall a r, node_at (pending_requests c) a = Some r -> a <> addr).
  { intros a r Hnode E. destruct (node_at_In _ _ _ Hnode) as [Hin Ha].
    apply (addr_not_in_use c addr r Hfree Hin). congruence. }
  assert (Hkeep : forall a r, node_at (pending_requests c) a = Some r ->
            node_at (mkPending addr id None SQRL_OK false :: pending_requests c) a
            = Some r).
  { intros a r Hnode. cbn [node_at req_addr].
    destruct (Nat.eqb_spec addr a) as [E|_]; [|exact Hnode].
    destruct (Hfresh a r Hnode). symmetry. exact E. }
  assert (Hnocaller : ~ In addr (map caller_req callers)).
  { intros Hin. apply in_map_iff in Hin. destruct Hin as (k & Ek & Hin).
    destruct (Hk k Hin) as (r & Hnode & _). apply (Hfresh _ _ Hnode). exact Ek. }
  constructor;
    cbn [fine_sys fine_threads sys_client sys_socket sys_reader_done
         sys_callers sys_log]; unfold below_wrap in *;
    cbn [sys_log pending_add pending_requests set_pending] in *.
  - constructor;
      cbn [sys_client sys_socket sys_reader_done sys_callers sys_log
           pending_add pending_requests set_pending request_id].
    + exact Hc.
    + exact Hi.
    + intros k Hin. destruct (Hk k Hin) as (r & Hnode & Hrid).
      exists r. split; [apply Hkeep; exact Hnode | exact Hrid].
    + exact Hkn.
    + intros r [<-|Hin]; [exact (Hni _ _ _ Ht) | apply Hp; exact Hin].
    + intros r j [<-|Hin]; [discriminate | apply Hr; exact Hin].
    + exact Hret.
    + intros Hn. cbn [map req_id]. constructor; [|apply Hnd; exact Hn].
      exact (proj1 (Hnf Hn _ _ _ Ht)).
  - constructor;
      cbn [sys_client sys_socket sys_reader_done sys_callers sys_log];
      assumption.
  - intros t' b seen K. look K. exact (Hl _ _ _ K).
  - intros t' id' json' K. look K. exact (Hni _ _ _ K).
  - intros Hn t' id' json' K. look K.
    destruct (Hnf Hn _ _ _ K) as [Hnp Hnr]. split; [|exact Hnr].
    cbn [map req_id]. intros [E|Hin]; [|exact (Hnp Hin)].
    subst id'. apply N. exact (Hna Hn _ _ _ _ _ K Ht).
  - intros Hn t1 t2 id' j1 j2 K1 K2. look K1; look K2.
    exact (Hna Hn _ _ _ _ _ K1 K2).
  - intros t' addr' id' json' K. look K.
    + inversion K; subst. split; [|exact Hnocaller].
      cbn [node_at req_addr]. rewrite Nat.eqb_refl.
      eexists. split; reflexivity.
    + destruct (Hln _ _ _ _ K) as [(r & Hnode & Hrid) Hnc].
      split; [|exact Hnc]. exists r. split; [apply Hkeep; exact Hnode | exact Hrid].
  - intros t1 t2 addr' id1 j1 id2 j2 K1 K2. look K1; look K2.
    + reflexivity.
    + inversion K1; subst.
      destruct (Hln _ _ _ _ K2) as [(r & Hnode & _) _].
      destruct (Hfresh _ _ Hnode eq_refl).
    + inversion K2; subst.
      destruct (Hln _ _ _ _ K1) as [(r & Hnode & _) _].
      destruct (Hfresh _ _ Hnode eq_refl).
    + exact (Hla _ _ _ _ _ _ _ K1 K2).
  - intros Hn t' addr' id' json' K. look K.
    + inversion K; subst. exact (proj2 (Hnf Hn _ _ _ Ht)).
    + exact (Hlf Hn _ _ _ _ K).
Qed.

Lemma send_entry_inv (f f' : fine_system) (t : nat) :
  entry_inv f -> fine_step f (FeSend t) = Some f' -> entry_inv f'.
Proof.
  intros [Hs Ho Hl Hni Hnf Hna Hln Hla Hlf]. open_fine f. cbn [fine_step].
  cbn [fine_sys fine_threads sys_client sys_socket sys_reader_done sys_callers
       sys_log].
  destruct (threads t) as [[ | | |addr id json]|] eqn:Ht; try discriminate.
  destruct (Hln _ _ _ _ Ht) as [(r & Hnode & Hrid) Hnocaller].
  destruct (node_at_In _ _ _ Hnode) as [Hrin Hraddr].
  destruct Hs as [Hc Hi Hk Hkn Hp Hr Hret Hnd].
  destruct Ho as [Hri Hcn Hrn Hap].
  cbn [sys_client sys_socket sys_reader_done sys_callers sys_log] in *.
  assert (Hother : forall k, In k callers -> caller_req k <> addr).
  { intros k Hin E. apply Hnocaller. rewrite <- E. apply in_map. exact Hin. }
  assert (Hids : Z.of_nat (List.length (issued log)) < 2 ^ 64 ->
                 forall k, In k callers -> caller_id k <> id).
  { intros Hn k Hin E. destruct (Hk k Hin) as (rk & Hnk & Hidk).
    apply (node_ids_apart _ _ _ _ _ (Hnd Hn) Hnk Hnode (Hother k Hin)).
    congruence. }
  assert (Hlinked : Z.of_nat (List.length (issued log)) < 2 ^ 64 ->
            forall t' addr' id' json',
              threads t' = Some (Linked addr' id' json') -> t' <> t -> id' <> id).
  { intros Hn t' addr' id' json' K N E.
    destruct (Hln _ _ _ _ K) as [(r' & Hnode' & Hrid') _].
    assert (addr' <> addr).
    { intros Ea. subst addr'. apply N. exact (Hla _ _ _ _ _ _ _ K Ht). }
    apply (node_ids_apart _ _ _ _ _ (Hnd Hn) Hnode' Hnode); congruence. }
  destruct (send_request_send_cases c s json addr) as (s' & [E|E]); rewrite E;
    intros H; inversion H; subst f'; clear H E.
  - (* the frame is out: the thread is the caller of its node *)
    constructor;
      cbn [fine_sys fine_threads sys_client sys_socket sys_reader_done
           sys_callers sys_log]; unfold below_wrap in *;
      cbn [sys_log] in *.
    + constructor;
        cbn [sys_client sys_socket sys_reader_done sys_callers sys_log];
        try assumption.
      * intros k [<-|Hin]; [|apply Hk; exact Hin].
        cbn [caller_req caller_id]. exists r. split; assumption.
      * cbn [map caller_req]. constructor; assumption.
    + constructor;
        cbn [sys_client sys_socket sys_reader_done sys_callers sys_log];
        try assumption.
      * intros Hn. cbn [map caller_id]. constructor; [|apply Hcn; exact Hn].
        intros Hin. apply in_map_iff in Hin. destruct Hin as (k & Ek & Hin).
        exact (Hids Hn k Hin Ek).
      * intros Hn k [<-|Hin]; [|apply Hap; assumption].
        cbn [caller_id]. exact (Hlf Hn _ _ _ _ Ht).
    + intros t' b seen K. look K. exact (Hl _ _ _ K).
    + intros t' id' json' K. look K. exact (Hni _ _ _ K).
    + intros Hn t' id' json' K. look K. exact (Hnf Hn _ _ _ K).
    + intros Hn t1 t2 id' j1 j2 K1 K2. look K1; look K2.
      exact (Hna Hn _ _ _ _ _ K1 K2).
    + intros t' addr' id' json' K. look K.
      destruct (Hln _ _ _ _ K) as [Hn' Hnc]. split; [exact Hn'|].
      cbn [map caller_req]. intros [Ea|Hin]; [|exact (Hnc Hin)].
      subst addr'. apply N. exact (Hla _ _ _ _ _ _ _ K Ht).
    + intros t1 t2 addr' id1 j1 id2 j2 K1 K2. look K1; look K2.
      exact (Hla _ _ _ _ _ _ _ K1 K2).
    + intros Hn t' addr' id' json' K. look K. exact (Hlf Hn _ _ _ _ K).
  - (* the send failed: the node is unlinked and the call returns *)
    constructor;
      cbn [fine_sys fine_threads sys_client sys_socket sys_reader_done
           sys_callers sys_log]; unfold below_wrap in *;
      cbn [sys_log issued returned pending_remove pending_requests set_pending] in *.
    + constructor;
        cbn [sys_client sys_socket sys_reader_done sys_callers sys_log issued
             pending_remove pending_requests set_pending request_id];
        try assumption.
      * intros k Hin.
        rewrite node_at_unlink_other by (apply not_eq_sym, Hother, Hin).
        apply Hk. exact Hin.
      * intros r0 Hin. apply Hp. eapply unlink_incl. exact Hin.
      * intros r0 j Hin. apply Hr. eapply unlink_incl. exact Hin.
      * intros id' j [K|K]; [discriminate | apply Hret; exact K].
      * intros Hn. apply unlink_ids_NoDup. apply Hnd. exact Hn.
    + constructor;
        cbn [sys_client sys_socket sys_reader_done sys_callers sys_log issued
             returned]; try assumption.
      * intros id' [<-|Hin]; [|apply Hri; exact Hin].
        rewrite <- Hrid. apply Hp. exact Hrin.
      * intros Hn. constructor; [|apply Hrn; exact Hn].
        exact (Hlf Hn _ _ _ _ Ht).
      * intros Hn k Hin [K|K]; [|exact (Hap Hn k Hin K)].
        exact (Hids Hn k Hin (eq_sym K)).
    + intros t' b seen K. look K. exact (Hl _ _ _ K).
    + intros t' id' json' K. look K. exact (Hni _ _ _ K).
    + intros Hn t' id' json' K. look K.
      destruct (Hnf Hn _ _ _ K) as [Hnp Hnr]. split.
      * intros Hin. apply Hnp. eapply unlink_ids_incl. exact Hin.
      * intros [Ei|Hin]; [|exact (Hnr Hin)].
        apply Hnp. rewrite <- Ei, <- Hrid. apply in_map. exact Hrin.
    + intros Hn t1 t2 id' j1 j2 K1 K2. look K1; look K2.
      exact (Hna Hn _ _ _ _ _ K1 K2).
    + intros t' addr' id' json' K. look K.
      destruct (Hln _ _ _ _ K) as [(r' & Hnode' & Hrid') Hnc].
      split; [|exact Hnc]. exists r'. split; [|exact Hrid'].
      rewrite node_at_unlink_other; [exact Hnode'|].
      intros Ea. subst addr'. apply N. exact (Hla _ _ _ _ _ _ _ K Ht).
    + intros t1 t2 addr' id1 j1 id2 j2 K1 K2. look K1; look K2.
      exact (Hla _ _ _ _ _ _ _ K1 K2).
    + intros Hn t' addr' id' json' K. look K.
      intros [Ei|Hin]; [|exact (Hlf Hn _ _ _ _ K Hin)].
      exact (Hlinked Hn _ _ _ _ K N (eq_sym Ei)).
Qed.

Lemma wait_entry_inv (f : fine_system) (sys' : system) (ev : event) :
  (forall addr build, ev <> EvSubmit addr build) ->
  entry_inv f -> step (fine_sys f) ev = Some sys' ->
  entry_inv (mkFine sys' (fine_threads f)).
Proof.
  intros Hev [Hs Ho Hl Hni Hnf Hna Hln Hla Hlf] Hstep.
  destruct (wait_step_frame _ _ _ Hev Hstep) as (Fi & Fr & Fp & Fc & Fn).
  pose proof (step_inv _ _ _ Hs Hstep) as Hs'.
  pose proof (step_once _ _ _ Hs Ho Hstep) as Ho'.
  assert (Hcaller : forall k, In k (sys_callers (fine_sys f)) ->
            In (caller_id k)
               (map req_id (pending_requests (sys_client (fine_sys f))))).
  { intros k Hin. destruct (inv_callers _ Hs k Hin) as (r & Hnode & <-).
    apply in_map. apply (node_at_In _ _ _ Hnode). }
  constructor; cbn [fine_sys fine_threads]; unfold below_wrap in *;
    rewrite ?Fi; try assumption.
  - intros Hn t id json K. destruct (Hnf Hn _ _ _ K) as [Hnp Hnr]. split.
    + intros Hin. apply Hnp, Fp, Hin.
    + destruct Fr as [->|(k & Hk & ->)]; [exact Hnr|].
      intros [Ei|Hin]; [|exact (Hnr Hin)].
      apply Hnp. rewrite <- Ei. apply Hcaller. exact Hk.
  - intros t addr id json K.
    destruct (Hln _ _ _ _ K) as [(r & Hnode & Hrid) Hnc]. split.
    + destruct (Fn _ _ Hnode Hnc) as (r' & Hnode' & Hrid').
      exists r'. split; [exact Hnode' | congruence].
    + intros Hin. apply Hnc, Fc, Hin.
  - intros Hn t addr id json K.
    destruct Fr as [->|(k & Hk & ->)]; [exact (Hlf Hn _ _ _ _ K)|].
    intros [Ei|Hin]; [|exact (Hlf Hn _ _ _ _ K Hin)].
    destruct (Hln _ _ _ _ K) as [(r & Hnode & Hrid) Hnc].
    destruct (inv_callers _ Hs k Hk) as (rk & Hnk & Hidk).
    apply (node_ids_apart _ _ _ _ _ (inv_pending_nodup _ Hs Hn) Hnk Hnode).
    + intros Ea. apply Hnc. rewrite <- Ea. apply in_map. exact Hk.
    + congruence.
Qed.

Lemma fine_step_entry_inv (f f' : fine_system) (ev : fine_event) :
  (forall t, ev <> FeLoad t) -> (forall t, ev <> FeStore t) ->
  entry_inv f -> fine_step f ev = Some f' -> entry_inv f'.
Proof.
  intros HL HS Hinv.
  destruct ev as [t build | t | t | t addr | t | addr | addr ret |].
  - apply call_entry_inv; exact Hinv.
  - destruct (HL t eq_refl).
  - destruct (HS t eq_refl).
  - apply link_entry_inv; exact Hinv.
  - apply send_entry_inv; exact Hinv.
  - cbn [fine_step]. unfold with_sys.
    destruct (step (fine_sys f) (EvTest addr)) as [sys'|] eqn:S; [|discriminate].
    intros H; inversion H; subst.
    apply (wait_entry_inv f sys' (EvTest addr)); [discriminate | exact Hinv | exact S].
  - cbn [fine_step]. unfold with_sys.
    destruct (step (fine_sys f) (EvWake addr ret)) as [sys'|] eqn:S; [|discriminate].
    intros H; inversion H; subst.
    apply (wait_entry_inv f sys' (EvWake addr ret));
      [discriminate | exact Hinv | exact S].
  - cbn [fine_step]. unfold with_sys.
    destruct (step (fine_sys f) EvReader) as [sys'|] eqn:S; [|discriminate].
    intros H; inversion H; subst.
    apply (wait_entry_inv f sys' EvReader); [discriminate | exact Hinv | exact S].
Qed.

Lemma fine_run_entry_inv (n : nat) :
  forall (trace : list fine_event) (f f' : fine_system),
    (List.length trace <= n)%nat ->
    entry_inv f -> increments_whole trace = true ->
    fine_run f trace = Some f' -> entry_inv f'.
Proof.
  induction n as [|n IH]; intros trace f f' Hlen Hinv Hw Hrun.
  - destruct trace; [|cbn in Hlen; lia].
    cbn in Hrun. inversion Hrun; subst. exact Hinv.
  - destruct trace as [|ev rest].
    { cbn in Hrun. inversion Hrun; subst. exact Hinv. }
    cbn [List.length] in Hlen. cbn [fine_run] in Hrun.
    destruct (fine_step f ev) as [f1|] eqn:S1; [|discriminate].
    destruct ev as [t build | t | t | t addr | t | addr | addr ret |];
      cbn [increments_whole] in Hw; try discriminate;
      try (apply (IH rest f1 f'); [lia | | exact Hw | exact Hrun];
           refine (fine_step_entry_inv _ _ _ _ _ Hinv S1); discriminate).
    destruct rest as [|ev2 rest2]; [discriminate|].
    destruct ev2 as [| |t2| | | | |]; try discriminate.
    apply andb_prop in Hw. destruct Hw as [Et Hw].
    apply Nat.eqb_eq in Et. subst t2.
    cbn [fine_run] in Hrun.
    destruct (fine_step f1 (FeStore t)) as [f2|] eqn:S2; [|discriminate].
    cbn [List.length] in Hlen.
    apply (IH rest2 f2 f'); [lia | | exact Hw | exact Hrun].
    exact (increment_entry_inv _ _ _ _ Hinv S1 S2).
Qed.

(** X25.  One id and one outcome for every call.  Let threads call the
    request operations of a connection that has made no request, and
    let them take their steps in any order: the test of [connected],
    the read and the write of the counter, the linking of the node, the
    sending of the frame, the loop test and the return of the timed
    wait, between passes of the reader thread.  If every read of the
    counter is followed at once by the write of the same call, no
    thread taking a step in between, then as long as fewer than 2^64
    ids have been handed out: the ids handed out are pairwise distinct,
    and so are the ids in the pending list; no id gets two outcomes
    (response, send failure or timeout) and every outcome belongs to an
    id that was handed out; and a call that is still waiting has its
    node under the id it was given and has had no outcome yet. *)
Theorem each_call_has_one_outcome (c0 : sqrl_client_t) (s0 : socket)
  (trace : list fine_event) (f : fine_system) :
  request_id c0 = 0 ->
  pending_requests c0 = [] ->
  increments_whole trace = true ->
  fine_run (fine_boot c0 s0) trace = Some f ->
  Z.of_nat (List.length (issued (sys_log (fine_sys f)))) < 2 ^ 64 ->
  NoDup (issued (sys_log (fine_sys f))) /\
  NoDup (map req_id (pending_requests (sys_client (fine_sys f)))) /\
  NoDup (returned (sys_log (fine_sys f))) /\
  (forall id, In id (returned (sys_log (fine_sys f))) ->
              In id (issued (sys_log (fine_sys f)))) /\
  (forall k, In k (sys_callers (fine_sys f)) ->
     (exists r, node_at (pending_requests (sys_client (fine_sys f))) (caller_req k)
                = Some r /\ req_id r = caller_id k) /\
     In (caller_id k) (issued (sys_log (fine_sys f))) /\
     ~ In (caller_id k) (returned (sys_log (fine_sys f)))).
Proof.
  intros Hid Hp Hw Hrun Hn.
  assert (Hinv : entry_inv f).
  { apply (fine_run_entry_inv (List.length trace) trace (fine_boot c0 s0) f);
      [lia | apply boot_entry_inv; assumption | exact Hw | exact Hrun]. }
  destruct Hinv as [Hs Ho _ _ _ _ _ _ _].
  destruct Ho as [Hri Hcn Hrn Hap].
  split; [|split; [|split; [|split]]].
  - rewrite (inv_issued _ Hs). apply ids_upto_NoDup. exact Hn.
  - apply (inv_pending_nodup _ Hs). exact Hn.
  - apply Hrn. exact Hn.
  - exact Hri.
  - intros k Hk. split; [apply (inv_callers _ Hs); exact Hk|].
    split; [apply callers_issued; assumption | apply Hap; assumption].
Qed.

Lemma each_call_has_one_outcome_witness :
  exists f,
    fine_run (fine_boot (fresh_client 3 30000) pong_socket) staggered_pings
    = Some f /\
    issued (sys_log (fine_sys f)) = ["2"; "1"] /\
    returned (sys_log (fine_sys f)) = ["2"; "1"] /\
    NoDup (returned (sys_log (fine_sys f))).
Proof.
  eexists. split; [vm_compute; reflexivity|].
  split; [reflexivity|]. split; [reflexivity|].
  refine (proj1 (proj2 (proj2
            (each_call_has_one_outcome (fresh_client 3 30000) pong_socket
               staggered_pings _ _ _ _ _ _)))).
  - reflexivity.
  - reflexivity.
  - reflexivity.
  - vm_compute. reflexivity.
  - vm_compute. reflexivity.
Defined.

Lemma fine_run_app (a b : list fine_event) :
  forall f,
    fine_run f (a ++ b) = match fine_run f a with
                          | Some f' => fine_run f' b
                          | None => None
                          end.
Proof.
  induction a as [|ev a IH]; intros f; [reflexivity|].
  cbn [app fine_run]. destruct (fine_step f ev); [apply IH | reflexivity].
Qed.

(** Every run of [step] is a run of [fine_step] in which each call
    enters without another thread in between. *)
Lemma run_as_fine_run (t : nat) (trace : list event) :
  forall (f : fine_system) (sys' : system),
    fine_threads f t = None ->
    run (fine_sys f) trace = Some sys' ->
    exists fine_trace f',
      increments_whole fine_trace = true /\
      fine_run f fine_trace = Some f' /\
      fine_sys f' = sys' /\
      forall t', fine_threads f' t' = fine_threads f t'.
Proof.
  induction trace as [|ev trace IH]; intros f sys' Ht Hrun; cbn [run] in Hrun.
  - inversion Hrun; subst. exists [], f. repeat split.
  - destruct (step (fine_sys f) ev) as [sys1|] eqn:S; [|discriminate].
    assert (Hnext : forall first f1,
              (forall rest, increments_whole (first ++ rest) = increments_whole rest) ->
              fine_run f first = Some f1 -> fine_sys f1 = sys1 ->
              (forall t', fine_threads f1 t' = fine_threads f t') ->
              exists fine_trace f',
                increments_whole fine_trace = true /\
                fine_run f fine_trace = Some f' /\
                fine_sys f' = sys' /\
                forall t', fine_threads f' t' = fine_threads f t').
    { intros first f1 Hw R1 E1 T1.
      destruct (IH f1 sys') as (rest & f' & Hw' & R' & E' & T').
      - rewrite T1. exact Ht.
      - rewrite E1. exact Hrun.
      - exists (first ++ rest), f'. rewrite Hw, fine_run_app, R1.
        repeat split; try assumption.
        intros t'. rewrite T'. apply T1. }
    destruct ev as [addr build | addr | addr ret |].
    + cbn [step] in S.
      destruct (addr_in_use (sys_client (fine_sys f)) addr) eqn:U; [discriminate|].
      inversion S; subst sys1.
      destruct (submit_as_entry_steps f t addr build Ht U) as (f1 & R1 & E1 & T1).
      destruct (connected (sys_client (fine_sys f)));
        eapply Hnext; try eassumption; intros rest; cbn;
        rewrite ?Nat.eqb_refl; reflexivity.
    + apply (Hnext [FeTest addr] (mkFine sys1 (fine_threads f)));
        try reflexivity.
      cbn [fine_run fine_step]. rewrite S. reflexivity.
    + apply (Hnext [FeWake addr ret] (mkFine sys1 (fine_threads f)));
        try reflexivity.
      cbn [fine_run fine_step]. rewrite S. reflexivity.
    + apply (Hnext [FeReader] (mkFine sys1 (fine_threads f)));
        try reflexivity.
      cbn [fine_run fine_step]. rewrite S. reflexivity.
Qed.

(** Once the reader thread has ended, no step of any thread completes
    a request. *)
Lemma fine_step_no_completion (f f' : fine_system) (ev : fine_event) :
  sys_reader_done (fine_sys f) = true ->
  fine_step f ev = Some f' ->
  sys_reader_done (fine_sys f') = true /\
  (forall r, In r (pending_requests (sys_client (fine_sys f'))) ->
             req_completed r = true ->
             In r (pending_requests (sys_client (fine_sys f)))).
Proof.
  intros Hdone.
  assert (Hwait : forall ev',
            with_sys f (step (fine_sys f) ev') = Some f' ->
            sys_reader_done (fine_sys f') = true /\
            (forall r, In r (pending_requests (sys_client (fine_sys f'))) ->
                       req_completed r = true ->
                       In r (pending_requests (sys_client (fine_sys f))))).
  { intros ev'. unfold with_sys.
    destruct (step (fine_sys f) ev') as [sys'|] eqn:S; [|discriminate].
    intros H. inversion H; subst. cbn [fine_sys].
    exact (step_no_completion _ _ _ Hdone S). }
  destruct ev as [t build | t | t | t addr | t | addr | addr ret |];
    try (apply Hwait); open_fine f; subst d; cbn [fine_step];
    cbn [fine_sys fine_threads sys_client sys_socket sys_reader_done sys_callers
         sys_log].
  - destruct (threads t); [discriminate|].
    destruct (negb (connected c)); intros H; inversion H; subst;
      cbn [fine_sys sys_client sys_reader_done]; auto.
  - destruct (threads t) as [[| | |]|]; try discriminate.
    intros H; inversion H; subst. cbn [fine_sys sys_client sys_reader_done]. auto.
  - destruct (threads t) as [[| | |]|]; try discriminate.
    unfold request_id_write. intros H; inversion H; subst.
    cbn [fine_sys sys_client sys_reader_done set_request_id pending_requests]. auto.
  - destruct (threads t) as [[| |id json|]|]; try discriminate.
    destruct (addr_in_use c addr); [discriminate|].
    intros H; inversion H; subst.
    cbn [fine_sys sys_client sys_reader_done pending_add set_pending
         pending_requests].
    split; [reflexivity|]. intros r [<-|Hin]; [discriminate | auto].
  - destruct (threads t) as [[| | |addr id json]|]; try discriminate.
    destruct (send_request_send_cases c s json addr) as (s' & [E|E]); rewrite E;
      intros H; inversion H; subst;
      cbn [fine_sys sys_client sys_reader_done pending_remove set_pending
           pending_requests].
    + auto.
    + split; [reflexivity|]. intros r Hin _. eapply unlink_incl. exact Hin.
Qed.

Lemma fine_run_no_completion (trace : list fine_event) :
  forall f f',
    sys_reader_done (fine_sys f) = true ->
    fine_run f trace = Some f' ->
    sys_reader_done (fine_sys f') = true /\
    (forall r, In r (pending_requests (sys_client (fine_sys f'))) ->
               req_completed r = true ->
               In r (pending_requests (sys_client (fine_sys f)))).
Proof.
  induction trace as [|ev trace IH]; intros f f' Hdone H; cbn [fine_run] in H.
  - inversion H; subst. split; [exact Hdone | auto].
  - destruct (fine_step f ev) as [f1|] eqn:S; [|discriminate].
    destruct (fine_step_no_completion _ _ _ Hdone S) as [Hdone1 Hkeep].
    destruct (IH f1 f' Hdone1 H) as [Hdone' Hkeep'].
    split; [exact Hdone'|].
    intros r Hin Hc. apply Hkeep; [|exact Hc]. apply Hkeep'; assumption.
Qed.

(* ================================================================== *)
(** * The query builder                                                *)
(* ================================================================== *)

(** ** Escaping *)

Lemma escape_from_spec (str : string) :
  forall (j buf_size : nat),
    (2 <= buf_size)%nat -> (j <= buf_size - 1)%nat ->
    (String.length (escape_from str j buf_size) + j <= buf_size - 1)%nat /\
    escaped_ok (escape_from str j buf_size) = true /\
    (exists rest, str = unescape (escape_from str j buf_size) +++ rest) /\
    (2 * String.length str + j <= buf_size - 2 ->
     unescape (escape_from str j buf_size) = str)%nat.
Proof.
  induction str as [|a t IH]; intros j n Hn Hj.
  - cbn. repeat split; [lia | exists ""; reflexivity].
  - cbn [escape_from]. destruct (Nat.ltb_spec j (n - 2)) as [L|G].
    + destruct (Ascii.eqb a dquote || Ascii.eqb a backslash)%bool eqn:Q.
      * destruct (IH (j + 2)%nat n Hn ltac:(lia)) as (A & B & (rest & C) & D).
        cbn [String.length escaped_ok unescape].
        change (Ascii.eqb backslash backslash) with true. cbn iota.
        rewrite Q, B. repeat split.
        -- lia.
        -- exists rest. cbn [String.append]. f_equal. exact C.
        -- intros H. f_equal. apply D. cbn [String.length] in H. lia.
      * destruct (IH (j + 1)%nat n Hn ltac:(lia)) as (A & B & (rest & C) & D).
        apply orb_false_iff in Q. destruct Q as [Q1 Q2].
        cbn [String.length escaped_ok unescape]. rewrite Q1, Q2, B.
        repeat split.
        -- lia.
        -- exists rest. cbn [String.append]. f_equal. exact C.
        -- intros H. f_equal. apply D. cbn [String.length] in H. lia.
    + cbn. repeat split.
      * lia.
      * exists (String a t). reflexivity.
      * cbn [String.length]. lia.
Qed.

(** X26.  [escape_json_string] never writes past its buffer: for a
    buffer of at least two bytes the escaped text fits with its
    terminating NUL.  In what it writes every double quote stands
    behind a backslash and no backslash is left without the character
    it escapes, also when the text is cut short.  Read back, the result
    is an initial part of the input, and the whole input when twice its
    length fits into the buffer less two bytes. *)
Theorem escape_json_string_spec (str : string) (buf_size : nat) :
  (2 <= buf_size)%nat ->
  (String.length (escape_json_string str buf_size) <= buf_size - 1)%nat /\
  escaped_ok (escape_json_string str buf_size) = true /\
  (exists rest, c_str str = unescape (escape_json_string str buf_size) +++ rest) /\
  (2 * String.length (c_str str) <= buf_size - 2 ->
   unescape (escape_json_string str buf_size) = c_str str)%nat.
Proof.
  intros Hn. unfold escape_json_string.
  destruct (escape_from_spec (c_str str) 0 buf_size Hn ltac:(lia))
    as (A & B & C & D).
  repeat split; try assumption; [lia|]. intros H. apply D. lia.
Qed.

Lemma escape_json_string_spec_witness :
  (String.length (escape_json_string (js "say 'hi'") 512) <= 512 - 1)%nat /\
  escaped_ok (escape_json_string (js "say 'hi'") 512) = true /\
  unescape (escape_json_string (js "say 'hi'") 512) = c_str (js "say 'hi'").
Proof.
  destruct (escape_json_string_spec (js "say 'hi'") 512 ltac:(lia))
    as (A & B & _ & D).
  split; [exact A|]. split; [exact B|]. apply D. simpl. lia.
Defined.

(** ** Building a query *)

Lemma length_string_take (n : nat) (s : string) :
  (String.length (string_take n s) <= n)%nat.
Proof.
  revert s. induction n as [|n IH]; intros s; [destruct s; cbn; lia|].
  destruct s as [|a s]; cbn [string_take String.length]; [lia|].
  specialize (IH s). lia.
Qed.

Lemma length_strncpy_into (size : nat) (src : string) :
  (String.length (strncpy_into size src) <= size - 1)%nat.
Proof. apply length_string_take. Qed.

Ltac query_fields :=
  cbn [table_name filters sorts limit_value skip_value has_limit has_skip
       is_changes].

Lemma add_filter_fits (q q' : sqrl_query_t) (field op value : string) :
  query_fits q -> add_filter (Some q) field op value = Some q' -> query_fits q'.
Proof.
  intros [Ht Hfc Hsc Hf Hs Hl Hk]. unfold add_filter.
  destruct (Nat.leb_spec MAX_FILTERS (List.length (filters q))) as [L|L];
    intros H; inversion H; subst; constructor; query_fields; try assumption.
  - rewrite length_app. cbn [List.length]. lia.
  - apply Forall_app. split; [exact Hf|]. constructor; [|constructor].
    unfold filter_fits. cbn [filter_field filter_op filter_value].
    split; [apply (length_strncpy_into 128)|].
    split; [apply (length_strncpy_into 16) | apply (length_strncpy_into 512)].
Qed.

Lemma builder_step_fits (q q' : sqrl_query_t) (call : builder_call) :
  query_fits q -> builder_step (Some q) call = Some q' -> query_fits q'.
Proof.
  intros Hq. destruct call; cbn [builder_step];
    try (apply add_filter_fits; exact Hq).
  - destruct Hq as [Ht Hfc Hsc Hf Hs Hl Hk]. unfold sqrl_sort.
    destruct (Nat.leb_spec MAX_SORTS (List.length (sorts q))) as [L|L];
      intros H; inversion H; subst; constructor; query_fields; try assumption.
    + rewrite length_app. cbn [List.length]. lia.
    + apply Forall_app. split; [exact Hs|]. constructor; [|constructor].
      apply (length_strncpy_into 128).
  - destruct Hq as [Ht Hfc Hsc Hf Hs Hl Hk]. unfold sqrl_limit.
    intros H; inversion H; subst; constructor; query_fields; try assumption.
    apply u64_range.
  - destruct Hq as [Ht Hfc Hsc Hf Hs Hl Hk]. unfold sqrl_skip.
    intros H; inversion H; subst; constructor; query_fields; try assumption.
    apply u64_range.
  - destruct Hq as [Ht Hfc Hsc Hf Hs Hl Hk]. unfold sqrl_changes.
    intros H; inversion H; subst; constructor; query_fields; assumption.
Qed.

Lemma builder_step_none (call : builder_call) : builder_step None call = None.
Proof. destruct call; reflexivity. Qed.

Lemma fold_builder_fits (calls : list builder_call) :
  forall (start : option sqrl_query_t) (q : sqrl_query_t),
    (forall q0, start = Some q0 -> query_fits q0) ->
    fold_left builder_step calls start = Some q -> query_fits q.
Proof.
  induction calls as [|call calls IH]; intros start q Hs H; cbn [fold_left] in H.
  - apply Hs. exact H.
  - refine (IH (builder_step start call) q _ H).
    intros q1 E. destruct start as [q0|].
    + apply (builder_step_fits q0 q1 call); [apply Hs; reflexivity | exact E].
    + rewrite builder_step_none in E. discriminate.
Qed.

Lemma build_fits (name : option string) (calls : list builder_call)
  (q : sqrl_query_t) :
  build name calls = Some q -> query_fits q.
Proof.
  intros H. apply (fold_builder_fits calls (sqrl_table name) q); [|exact H].
  unfold sqrl_table. destruct name as [n|]; [|discriminate].
  intros q0 E. inversion E; subst. constructor; query_fields.
  - apply (length_strncpy_into 256).
  - cbn. lia.
  - cbn. lia.
  - constructor.
  - constructor.
  - change (2 ^ 64) with 18446744073709551616. lia.
  - change (2 ^ 64) with 18446744073709551616. lia.
Qed.

(** X27.  Whatever calls a program makes on a query handle, the query
    stays inside its arrays: the table name, every field, operator and
    value fit their character arrays with the terminating NUL, and there
    are never more than 32 filters and 8 sorts.  A filter added to a
    query that holds 32 and a sort added to one that holds 8 are
    dropped without a sign: the query is returned as it was. *)
Theorem builder_keeps_query_in_bounds (name : option string)
  (calls : list builder_call) (q : sqrl_query_t) :
  build name calls = Some q ->
  query_fits q /\
  (forall field op value,
     List.length (filters q) = MAX_FILTERS ->
     add_filter (Some q) field op value = Some q) /\
  (forall field direction,
     List.length (sorts q) = MAX_SORTS ->
     sqrl_sort (Some q) field direction = Some q).
Proof.
  intros H. split; [|split].
  - apply (build_fits name calls q H).
  - intros field op value E. unfold add_filter. rewrite E.
    rewrite Nat.leb_refl. reflexivity.
  - intros field direction E. unfold sqrl_sort. rewrite E.
    rewrite Nat.leb_refl. reflexivity.
Qed.

Lemma builder_keeps_query_in_bounds_witness :
  exists q,
    build (Some "users") [FindEqStr "name" "Ada"; Sort "age" SQRL_DESC; Limit 10]
    = Some q /\ query_fits q.
Proof.
  eexists. split; [reflexivity|].
  refine (proj1 (builder_keeps_query_in_bounds (Some "users")
                   [FindEqStr "name" "Ada"; Sort "age" SQRL_DESC; Limit 10]
                   _ eq_refl)).
Defined.

Lemma occurs_NUL_c_str (s : string) : occurs NUL (c_str s) = false.
Proof.
  induction s as [|a s IH]; [reflexivity|].
  cbn [c_str]. destruct (Ascii.eqb a NUL) eqn:E; [reflexivity|].
  cbn [occurs]. rewrite E, IH. reflexivity.
Qed.

Lemma c_str_without_NUL (s : string) : occurs NUL s = false -> c_str s = s.
Proof.
  induction s as [|a s IH]; [reflexivity|].
  cbn [occurs c_str]. intros H. apply orb_false_iff in H. destruct H as [E O].
  rewrite E, (IH O). reflexivity.
Qed.

Lemma occurs_append (c : ascii) (a b : string) :
  occurs c (a +++ b) = (occurs c a || occurs c b)%bool.
Proof.
  induction a as [|x a IH]; [reflexivity|].
  cbn [String.append occurs]. rewrite IH. apply orb_assoc.
Qed.

Lemma occurs_NUL_escape_from (s : string) :
  forall j n, occurs NUL s = false -> occurs NUL (escape_from s j n) = false.
Proof.
  induction s as [|a s IH]; intros j n H; [reflexivity|].
  cbn [occurs] in H. apply orb_false_iff in H. destruct H as [E O].
  cbn [escape_from]. destruct (j <? n - 2)%nat; [|reflexivity].
  destruct (Ascii.eqb a dquote || Ascii.eqb a backslash)%bool;
    cbn [occurs]; rewrite ?E, IH by exact O; reflexivity.
Qed.

Lemma stored_quoted_value (value : string) :
  (String.length (escape_json_string value 512) <= 509)%nat ->
  strncpy_into 512 (quoted_value value)
  = String dquote (escape_json_string value 512 +++ String dquote "").
Proof.
  intros H. unfold quoted_value, snprintf, strncpy_into.
  set (e := escape_json_string value 512) in *.
  assert (L : String.length (String dquote (e +++ String dquote ""))
              = (String.length e + 2)%nat).
  { cbn [String.length]. rewrite length_append. cbn [String.length]. lia. }
  rewrite (string_take_all (520 - 1)) by lia.
  rewrite c_str_without_NUL.
  - apply string_take_all. lia.
  - cbn [occurs]. rewrite occurs_append. cbn [occurs].
    unfold e, escape_json_string.
    rewrite occurs_NUL_escape_from by apply occurs_NUL_c_str. reflexivity.
Qed.

(** X28.  The string filters.  On a query with room for a filter,
    [sqrl_find_eq_str], [sqrl_find_ne_str], [sqrl_find_contains],
    [sqrl_find_starts_with] and [sqrl_find_ends_with] append one filter
    with their operator; when the escaped value has at most 509
    characters (as it has for every value of at most 254 characters),
    the value stored is the whole escaped value between double
    quotes. *)
Theorem string_filters_store_quoted_value (q : sqrl_query_t)
  (field value : string) :
  (List.length (filters q) < MAX_FILTERS)%nat ->
  (String.length (escape_json_string value 512) <= 509)%nat ->
  let stored := String dquote (escape_json_string value 512 +++ String dquote "") in
  Forall (fun p : option sqrl_query_t * string =>
            fst p = Some (with_filter q
                            (mkFilter (strncpy_into 128 field) (snd p) stored)))
    [ (sqrl_find_eq_str (Some q) field value, "$eq");
      (sqrl_find_ne_str (Some q) field value, "$ne");
      (sqrl_find_contains (Some q) field value, "$contains");
      (sqrl_find_starts_with (Some q) field value, "$startsWith");
      (sqrl_find_ends_with (Some q) field value, "$endsWith") ] /\
  ((String.length (c_str value) <= 254)%nat ->
   (String.length (escape_json_string value 512) <= 509)%nat /\
   unescape (escape_json_string value 512) = c_str value).
Proof.
  intros Hf He. cbv zeta. split.
  - assert (A : forall op,
               strncpy_into 16 op = op ->
               add_filter (Some q) field op (quoted_value value)
               = Some (with_filter q
                         (mkFilter (strncpy_into 128 field) op
                            (String dquote
                               (escape_json_string value 512 +++ String dquote ""))))).
    { intros op Hop. unfold add_filter, with_filter.
      destruct (Nat.leb_spec MAX_FILTERS (List.length (filters q))); [lia|].
      rewrite Hop, stored_quoted_value by exact He. reflexivity. }
    repeat (apply Forall_cons; [cbn [fst snd]; apply A; reflexivity|]).
    apply Forall_nil.
  - intros Hv.
    unfold escape_json_string.
    destruct (escape_from_spec (c_str value) 0 512 ltac:(lia) ltac:(lia))
      as (_ & _ & _ & D).
    split; [|apply D; lia].
    assert (G : forall s j n,
               (String.length (escape_from s j n) <= 2 * String.length s)%nat).
    { induction s as [|a s IH]; intros j n; [cbn; lia|].
      cbn [escape_from]. destruct (j <? n - 2)%nat; [|cbn; lia].
      destruct (Ascii.eqb a dquote || Ascii.eqb a backslash)%bool;
        cbn [String.length].
      - specialize (IH (j + 2)%nat n). lia.
      - specialize (IH (j + 1)%nat n). lia. }
    specialize (G (c_str value) 0%nat 512%nat). lia.
Qed.

Lemma string_filters_store_quoted_value_witness :
  sqrl_find_eq_str (sqrl_table (Some "users")) "name" (js "Ada 'the first'")
  = Some (mkQuery "users"
            [mkFilter "name" "$eq" (js "'Ada \'the first\''")]
            [] 0 0 false false false).
Proof.
  pose proof (string_filters_store_quoted_value
                (mkQuery "users" [] [] 0 0 false false false) "name"
                (js "Ada 'the first'")
                ltac:(apply Nat.ltb_lt; reflexivity)
                ltac:(apply Nat.leb_le; reflexivity))
    as [H _].
  inversion H as [|? ? H1 _]; subst. exact H1.
Defined.

(** ** Compiling a query *)

Lemma string_take_append (n : nat) (a b : string) :
  (String.length a <= n)%nat ->
  string_take n (a +++ b) = a +++ string_take (n - String.length a) b.
Proof.
  revert n. induction a as [|x a IH]; intros n H.
  - cbn [String.append String.length]. rewrite Nat.sub_0_r. reflexivity.
  - destruct n as [|n]; [cbn in H; lia|].
    cbn [String.append string_take String.length Nat.sub].
    rewrite IH by (cbn in H; lia). reflexivity.
Qed.

Lemma string_take_append_long (n : nat) (a b : string) :
  (n <= String.length a)%nat -> string_take n (a +++ b) = string_take n a.
Proof.
  revert a. induction n as [|n IH]; intros a H.
  - destruct a; destruct b; reflexivity.
  - destruct a as [|x a]; [cbn in H; lia|].
    cbn [String.append string_take]. rewrite IH by (cbn in H; lia). reflexivity.
Qed.

Lemma total_length_nonneg (pieces : list string) : 0 <= total_length pieces.
Proof. induction pieces as [|p l IH]; cbn [total_length]; lia. Qed.

Lemma fold_emit_None (pieces : list string) : fold_left emit pieces None = None.
Proof. induction pieces as [|p l IH]; [reflexivity | exact IH]. Qed.

Lemma written_at (full piece : string) :
  Z.of_nat (String.length full) <= BUFFER_SIZE ->
  written (mkCursor (string_take 4095 full) (Z.of_nat (String.length full))
             (BUFFER_SIZE - Z.of_nat (String.length full))) piece
  = string_take 4095 (full +++ piece).
Proof.
  unfold BUFFER_SIZE, written. cbn [cur_text cur_p cur_remaining]. intros H.
  destruct (Z.eqb_spec (4096 - Z.of_nat (String.length full)) 0) as [E|N].
  - rewrite string_take_append_long by lia. reflexivity.
  - rewrite (string_take_all 4095 full) by lia.
    rewrite Nat2Z.id, (string_take_all _ full) by lia.
    rewrite string_take_append by lia. do 2 f_equal. lia.
Qed.

Lemma fold_emit_spec (pieces : list string) :
  forall full : string,
    Z.of_nat (String.length full) <= BUFFER_SIZE ->
    fold_left emit pieces
      (Some (mkCursor (string_take 4095 full) (Z.of_nat (String.length full))
               (BUFFER_SIZE - Z.of_nat (String.length full))))
    = if Z.of_nat (String.length full) + total_length pieces <=? BUFFER_SIZE
      then Some (mkCursor (string_take 4095 (full +++ concat_all pieces))
                   (Z.of_nat (String.length (full +++ concat_all pieces)))
                   (BUFFER_SIZE
                    - Z.of_nat (String.length (full +++ concat_all pieces))))
      else None.
Proof.
  induction pieces as [|p l IH]; intros full H.
  - cbn [fold_left total_length concat_all]. rewrite append_empty_r.
    replace (Z.of_nat (String.length full) + 0 <=? BUFFER_SIZE) with true
      by (symmetry; apply Z.leb_le; lia).
    reflexivity.
  - cbn [fold_left total_length concat_all]. unfold emit at 2.
    cbn [cur_p cur_remaining]. cbv zeta.
    pose proof (total_length_nonneg l) as Hl.
    destruct (Z.ltb_spec BUFFER_SIZE
                (Z.of_nat (String.length full) + Z.of_nat (String.length p)))
      as [Over|Fit].
    + rewrite fold_emit_None.
      replace (Z.of_nat (String.length full)
               + (Z.of_nat (String.length p) + total_length l) <=? BUFFER_SIZE)
        with false by (symmetry; apply Z.leb_gt; lia).
      reflexivity.
    + rewrite written_at by exact H.
      assert (Lp : Z.of_nat (String.length (full +++ p))
                   = Z.of_nat (String.length full) + Z.of_nat (String.length p))
        by (rewrite length_append; lia).
      rewrite <- Lp.
      replace (u64 (BUFFER_SIZE - Z.of_nat (String.length full)
                    - Z.of_nat (String.length p)))
        with (BUFFER_SIZE - Z.of_nat (String.length (full +++ p))).
      2:{ rewrite u64_small; [lia|]. unfold BUFFER_SIZE in *.
          change (2 ^ 64) with 18446744073709551616. lia. }
      rewrite IH by lia. rewrite append_assoc.
      replace (Z.of_nat (String.length (full +++ p)) + total_length l)
        with (Z.of_nat (String.length full)
              + (Z.of_nat (String.length p) + total_length l)) by lia.
      reflexivity.
Qed.

Lemma length_concat_all (pieces : list string) :
  Z.of_nat (String.length (concat_all pieces)) = total_length pieces.
Proof.
  induction pieces as [|p l IH]; [reflexivity|].
  cbn [concat_all total_length]. rewrite length_append. lia.
Qed.

Lemma sqrl_query_compile_closed (q : sqrl_query_t) :
  sqrl_query_compile q
  = if total_length (compile_pieces q) <=? BUFFER_SIZE
    then Some (string_take 4095
                 (concat_all (compile_pieces q) +++ compile_last q))
    else None.
Proof.
  unfold sqrl_query_compile.
  pose proof (fold_emit_spec (compile_pieces q) "") as F.
  cbn [String.length String.append Z.of_nat] in F.
  change (string_take 4095 "") with "" in F.
  rewrite Z.sub_0_r, Z.add_0_l in F. rewrite F by (unfold BUFFER_SIZE; lia).
  destruct (Z.leb_spec (total_length (compile_pieces q)) BUFFER_SIZE) as [L|G];
    [|reflexivity].
  rewrite written_at by (rewrite length_concat_all; exact L). reflexivity.
Qed.

(** X29.  [sqrl_query_compile] stays inside its buffer of 4096 bytes
    exactly when the texts it formats before the closing call (table,
    filters with their separators, sorts, limit and skip) have at most
    4096 characters together.  It then returns the whole query text cut
    to 4095 characters; otherwise it writes outside the buffer. *)
Theorem sqrl_query_compile_within_buffer (q : sqrl_query_t) :
  (total_length (compile_pieces q) <= BUFFER_SIZE ->
   sqrl_query_compile q
   = Some (string_take 4095
             (concat_all (compile_pieces q) +++ compile_last q))) /\
  (BUFFER_SIZE < total_length (compile_pieces q) ->
   sqrl_query_compile q = None) /\
  (forall text, sqrl_query_compile q = Some text ->
     (String.length text <= 4095)%nat).
Proof.
  rewrite sqrl_query_compile_closed.
  destruct (Z.leb_spec (total_length (compile_pieces q)) BUFFER_SIZE) as [L|G].
  - split; [reflexivity|]. split; [lia|].
    intros text E.
    replace text
      with (string_take 4095 (concat_all (compile_pieces q) +++ compile_last q))
      by congruence.
    apply length_string_take.
  - split; [lia|]. split; [reflexivity | discriminate].
Qed.

Lemma sqrl_query_compile_within_buffer_witness :
  sqrl_query_compile
    (mkQuery "users" [mkFilter "age" "$gt" "21"] [mkSort "name" SQRL_ASC]
       10 0 true false false)
  = Some (js "db.table('users').filter(doc => doc.age > 21).orderBy('name').limit(10).run()").
Proof.
  apply (proj1 (sqrl_query_compile_within_buffer
                  (mkQuery "users" [mkFilter "age" "$gt" "21"]
                     [mkSort "name" SQRL_ASC] 10 0 true false false))).
  apply Z.leb_le. reflexivity.
Defined.

(** A program can reach the overflow through the API alone: eleven
    filters with long fields and values. *)
Example sqrl_query_compile_overflows :
  option_map sqrl_query_compile (build (Some "t") eleven_filters) = Some None.
Proof. vm_compute. reflexivity. Qed.

Lemma total_length_app (a b : list string) :
  total_length (a ++ b) = total_length a + total_length b.
Proof.
  induction a as [|p a IH]; [reflexivity|].
  cbn [app total_length]. rewrite IH. lia.
Qed.

Lemma length_filter_js (f : filter_entry_t) :
  filter_fits f -> (String.length (filter_js f) <= 655)%nat.
Proof.
  intros (Hf & _ & Hv). unfold filter_js. cbv zeta.
  repeat match goal with
         | |- context [if streq ?a ?b then _ else _] => destruct (streq a b)
         end;
    rewrite ?length_append; cbn [String.length]; lia.
Qed.

Lemma total_length_filter_pieces (l : list filter_entry_t) :
  forall first : bool,
    Forall filter_fits l ->
    total_length (filter_pieces first l) <= 659 * Z.of_nat (List.length l).
Proof.
  induction l as [|f l IH]; intros first H; [cbn; lia|].
  inversion H as [|? ? Hf Hl]; subst.
  cbn [filter_pieces]. rewrite total_length_app. cbn [total_length].
  pose proof (length_filter_js f Hf). specialize (IH false Hl).
  cbn [List.length]. destruct first; cbn [total_length String.length]; lia.
Qed.

Lemma total_length_sorts (l : list sort_entry_t) :
  Forall sort_fits l ->
  total_length (map sort_js l) <= 147 * Z.of_nat (List.length l).
Proof.
  induction l as [|s l IH]; intros H; [cbn; lia|].
  inversion H as [|? ? Hs Hl]; subst. specialize (IH Hl).
  cbn [map total_length List.length].
  assert (String.length (sort_js s) <= 147)%nat.
  { unfold sort_js, sort_fits in *. destruct (sort_direction s);
      rewrite !length_append; cbn [String.length js]; simpl String.length; lia. }
  lia.
Qed.

Lemma total_length_compile_pieces (q : sqrl_query_t) :
  query_fits q ->
  total_length (compile_pieces q)
  <= 338 + 659 * Z.of_nat (List.length (filters q))
     + 147 * Z.of_nat (List.length (sorts q)).
Proof.
  intros [Ht Hfc Hsc Hf Hs Hl Hk]. unfold compile_pieces.
  rewrite !total_length_app. cbn [total_length].
  assert (A : (String.length (js "db.table('" +++ table_name q +++ js "')")
               <= 267)%nat).
  { rewrite !length_append. simpl String.length. lia. }
  assert (B : total_length
                match filters q with
                | [] => []
                | _ :: _ =>
                    [".filter(doc => "] ++ filter_pieces true (filters q) ++ [")"]
                end
              <= 16 + 659 * Z.of_nat (List.length (filters q))).
  { pose proof (total_length_filter_pieces (filters q) true Hf) as P.
    destruct (filters q) as [|f l]; [cbn; lia|].
    rewrite !total_length_app. cbn [total_length String.length]. lia. }
  pose proof (total_length_sorts (sorts q) Hs) as C.
  assert (D : total_length
                (if has_limit q
                 then [".limit(" +++ fmt_llu (limit_value q) +++ ")"] else [])
              <= 28).
  { destruct (has_limit q); [|cbn; lia]. cbn [total_length].
    rewrite !length_append. cbn [String.length].
    pose proof (proj2 (fmt_llu_spec (limit_value q))). lia. }
  assert (E : total_length
                (if has_skip q
                 then [".skip(" +++ fmt_llu (skip_value q) +++ ")"] else [])
              <= 27).
  { destruct (has_skip q); [|cbn; lia]. cbn [total_length].
    rewrite !length_append. cbn [String.length].
    pose proof (proj2 (fmt_llu_spec (skip_value q))). lia. }
  lia.
Qed.

(** X30.  A query built through the API with few enough entries always
    compiles, and completely: when 659 times the number of filters plus
    147 times the number of sorts is at most 3747 (as it is for up to
    three filters with any sorts, and for up to five filters without),
    [sqrl_query_compile] stays inside its buffer and returns the whole
    query text, nothing cut off, whatever the table name, fields and
    values hold. *)
Theorem small_query_compiles_completely (name : option string)
  (calls : list builder_call) (q : sqrl_query_t) :
  build name calls = Some q ->
  (659 * List.length (filters q) + 147 * List.length (sorts q) <= 3747)%nat ->
  sqrl_query_compile q
  = Some (concat_all (compile_pieces q) +++ compile_last q).
Proof.
  intros Hb Hn. pose proof (build_fits name calls q Hb) as Hq.
  pose proof (total_length_compile_pieces q Hq) as T.
  rewrite sqrl_query_compile_closed.
  replace (total_length (compile_pieces q) <=? BUFFER_SIZE) with true
    by (symmetry; apply Z.leb_le; unfold BUFFER_SIZE; lia).
  f_equal. apply string_take_all.
  rewrite length_append.
  pose proof (length_concat_all (compile_pieces q)) as L.
  assert (String.length (compile_last q) <= 10)%nat
    by (unfold compile_last; destruct (is_changes q); cbn; lia).
  lia.
Qed.

Lemma small_query_compiles_completely_witness :
  exists q,
    build (Some "users") [FindEqStr "name" "Ada"; Sort "age" SQRL_DESC; Limit 10]
    = Some q /\
    sqrl_query_compile q
    = Some (js "db.table('users').filter(doc => doc.name === 'Ada').orderBy('age', 'desc').limit(10).run()").
Proof.
  eexists. split; [reflexivity|].
  apply (small_query_compiles_completely (Some "users")
           [FindEqStr "name" "Ada"; Sort "age" SQRL_DESC; Limit 10] _ eq_refl).
  apply Nat.leb_le. reflexivity.
Defined.
